(** * ZeroGLA: the random-perturbation gradient estimator

    A shallow embedding of [src/zoo_attack/random_gradient_estimator.py]
    (class [RandomGradientEstimator]) and the properties of its
    perturb / estimate / inject / update / revert cycle.

    Conventions of the embedding.
    - Scalars are exact rationals ([Qc], Leibniz equality), so every
      statement below is one of exact arithmetic; floating-point rounding
      is outside the model.
    - A tensor is its row-major flattening, a [list Qc]; [view] to a
      parameter's shape only checks the element count.
    - The parameters referenced by [self.parameters_list] are mutable
      objects shared with the model: they live in a [Store] that every
      method threads explicitly, together with the log of the loss
      evaluations made so far.
    - Python exceptions are values of [exn]; a computation that raises
      keeps the store as mutated up to the raise.
    - The in-place updates of a parameter ([add_], [mul_]) are the ones
      torch performs with gradient tracking off, which is how the
      estimator is driven.
    - The caller's [loss_fn] is a callable: it returns the loss at the
      current values of the parameters or it raises ([Loss]).  A statement
      about evaluations that return takes a loss that returns at every
      point ([LossFn]), read as a callable through [returning].
    - [torch.Generator] and [torch.randn] are the library's: a generator
      is the key it was seeded with and the sizes of the draws made from it
      since, and the samples are a parameter of the development, a
      function of the state of the generator and of the size of the draw.
      That the draws of consecutive sizes are the slices of one larger draw
      is assumed nowhere; where a statement needs it, it is a hypothesis of
      that statement.  [manual_seed] takes every integer key: the range
      torch restricts keys to is not modelled. *)

From Stdlib Require Import String.
From Stdlib Require Import List ZArith QArith Qcanon Bool Lia Field.
Import ListNotations.

Set Implicit Arguments.

Local Open Scope Qc_scope.

(** ** Scalars and flat tensors *)

Definition scalar := Qc.
Definition Tensor := list scalar.

Definition of_nat (n : nat) : scalar := Q2Qc (inject_Z (Z.of_nat n)).
Definition of_Z (z : Z) : scalar := Q2Qc (inject_Z z).

(** [x > 0] on scalars, as a boolean test. *)
Definition Qc_ltb (x y : scalar) : bool :=
  match x ?= y with Lt => true | _ => false end.

Definition Qc_eqb (x y : scalar) : bool :=
  if Qc_eq_dec x y then true else false.

(** Elementwise [a + alpha * b] on tensors of one shape
    ([a.add_(b, alpha=alpha)], [a + alpha * b]). *)
Fixpoint axpy (a : Tensor) (alpha : scalar) (b : Tensor) : Tensor :=
  match a, b with
  | x :: a', y :: b' => (x + alpha * y) :: axpy a' alpha b'
  | _, _ => []
  end.

(** [t.mul_(c)], [c * t]. *)
Definition scale (c : scalar) (t : Tensor) : Tensor := map (fun x => c * x) t.

(** [t.div_(c)]. *)
Definition tdiv (t : Tensor) (c : scalar) : Tensor := map (fun x => x / c) t.

(** [a + b], [a += b] on tensors of one shape. *)
Definition tadd (a b : Tensor) : Tensor := axpy a 1 b.

(** [t[start : stop]]: Python slicing clamps to the length. *)
Definition slice (t : Tensor) (start stop : nat) : Tensor :=
  firstn (stop - start) (skipn start t).

(** ** Exceptions and results *)

Inductive exn : Type :=
| AssertionError
| Exception (msg : string)
| RuntimeError
| TypeError
| UnboundLocalError
| ZeroDivisionError.

Inductive result (A : Type) : Type :=
| Ok (a : A)
| Raise (e : exn).

Arguments Ok {A} a.
Arguments Raise {A} e.

(** [t.view(shape)] on flattened tensors: the element counts must agree. *)
Definition view (t : Tensor) (n : nat) : result Tensor :=
  if Nat.eqb (length t) n then Ok t else Raise RuntimeError.

(** ** Parameters and the store *)

(** [torch.nn.Parameter] (the source's name is a reserved word here): its
    values, flattened, its gradient slot, [None] or a tensor, and whether
    it is trainable.  The shape is fixed for the life of the object, so
    [numel] is the length of the values. *)
Record Param : Type := mkParam {
  requires_grad : bool;
  data : Tensor;
  grad : option Tensor
}.

Definition numel (p : Param) : nat := length (data p).

Definition set_data (p : Param) (d : Tensor) : Param :=
  {| requires_grad := requires_grad p; data := d; grad := grad p |}.

Definition set_grad (p : Param) (g : option Tensor) : Param :=
  {| requires_grad := requires_grad p; data := data p; grad := g |}.

(** The mutable world: the parameter objects of [self.parameters_list], in
    order, and the chronological log of the parameter values at which the
    loss function has been evaluated. *)
Record Store : Type := mkStore {
  params : list Param;
  loss_evals : list (list Tensor)
}.

Definition with_params (st : Store) (ps : list Param) : Store :=
  {| params := ps; loss_evals := loss_evals st |}.

(** State and exception monad over the store. *)
Definition M (A : Type) : Type := Store -> result A * Store.

Definition ret {A} (a : A) : M A := fun st => (Ok a, st).

Definition raise {A} (e : exn) : M A := fun st => (Raise e, st).

Definition bind {A B} (m : M A) (k : A -> M B) : M B :=
  fun st =>
    match m st with
    | (Ok a, st') => k a st'
    | (Raise e, st') => (Raise e, st')
    end.

Notation "x <- m ;; k" := (bind m (fun x => k))
  (at level 61, m at next level, right associativity).
Notation "m ;;; k" := (bind m (fun _ => k))
  (at level 61, right associativity).

(** [assert b]. *)
Definition assert (b : bool) : M unit :=
  if b then ret tt else raise AssertionError.

(** [for x in xs: body], with the loop-carried locals [s]. *)
Fixpoint for_each {A S} (xs : list A) (body : A -> S -> M S) (s : S) : M S :=
  match xs with
  | [] => ret s
  | x :: xs' => s' <- body x s ;; for_each xs' body s'
  end.

(** [for p in self.parameters_list: body], where [body] mutates only the
    parameter [p] and the loop-carried locals [s].  The body returns the
    parameter as it leaves it, also when it raises. *)
Fixpoint for_params_list {S} (body : Param -> S -> Param * result S)
    (ps : list Param) (s : S) : result S * list Param :=
  match ps with
  | [] => (Ok s, [])
  | p :: rest =>
      match body p s with
      | (p', Ok s') =>
          let (r, rest') := for_params_list body rest s' in (r, p' :: rest')
      | (p', Raise e) => (Raise e, p' :: rest)
      end
  end.

Definition for_params {S} (body : Param -> S -> Param * result S)
    (s : S) : M S :=
  fun st =>
    let (r, ps') := for_params_list body (params st) s in
    (r, with_params st ps').

(** ** The randomness source *)

(** A [torch.Generator]: the key it was seeded with and the sizes of the
    draws made from it since, oldest first. *)
Record Generator : Type := mkGenerator {
  gen_key : Z;
  gen_drawn : list nat
}.

Definition manual_seed (key : Z) : Generator :=
  {| gen_key := key; gen_drawn := [] |}.

(** The source of standard-normal samples behind [torch.randn]:
    [normal_sample rng n k] is the entry [k] of the draw of [n] elements
    made from a generator in the state [rng]. *)
Definition Sampler : Type := Generator -> nat -> nat -> scalar.

(** ** The estimator object *)

Inductive RandomGradEstimateMethod : Type :=
| rge_central
| rge_forward.

(** [RandomGradEstimateMethod.<member>.value]. *)
Definition value (m : RandomGradEstimateMethod) : string :=
  match m with
  | rge_central => "rge-central"
  | rge_forward => "rge-forward"
  end.

(** The attributes [__init__] sets, apart from [parameters_list], whose
    objects live in the store.  [device] and [torch_dtype] only select where
    and in which float format torch computes and have no counterpart in
    exact arithmetic.  [num_pert] counts the turns of [range(num_pert)],
    a natural number. *)
Record RandomGradientEstimator : Type := mkEstimator {
  total_dimensions : nat;
  mu : scalar;
  num_pert : nat;
  grad_estimate_method : RandomGradEstimateMethod;
  paramwise_perturb : bool;
  sgd_only_no_optim : bool;
  normalize_perturbation : bool
}.

(** [RandomGradientEstimator.__init__]: the estimator and the list
    [self.parameters_list] it keeps, or the exception raised. *)
Definition init (parameters : list Param) (mu : scalar) (num_pert : nat)
    (grad_estimate_method : RandomGradEstimateMethod + string)
    (normalize_perturbation paramwise_perturb sgd_only_no_optim : bool)
    : result (RandomGradientEstimator * list Param) :=
  let parameters_list := filter requires_grad parameters in
  let total_dimensions := list_sum (map numel parameters_list) in
  match
    match grad_estimate_method with
    | inl m => Ok m
    | inr s =>
        if String.eqb s (value rge_central) then Ok rge_central
        else if String.eqb s (value rge_forward) then Ok rge_forward
        else Raise
          (Exception "Grad estimate method has to be rge-central or rge-forward")
    end
  with
  | Raise e => Raise e
  | Ok method =>
      if paramwise_perturb && negb (Bool.eqb normalize_perturbation false)
      then Raise AssertionError
      else if sgd_only_no_optim && negb paramwise_perturb
      then Raise AssertionError
      else Ok ({| total_dimensions := total_dimensions;
                  mu := mu;
                  num_pert := num_pert;
                  grad_estimate_method := method;
                  paramwise_perturb := paramwise_perturb;
                  sgd_only_no_optim := sgd_only_no_optim;
                  normalize_perturbation := normalize_perturbation |},
               parameters_list)
  end.

(** [get_rng]: a fresh generator seeded with the stream key. *)
Definition get_rng (seed : Z) (perturb_index : nat) : Generator :=
  manual_seed (seed * (Z.of_nat perturb_index + 17) + Z.of_nat perturb_index).

(** [enumerate(xs)]. *)
Definition enumerate {A} (xs : list A) : list (nat * A) :=
  combine (seq 0 (length xs)) xs.

Definition two : scalar := 1 + 1.

(** ** The optimizer collaborator

    What the estimator reads of a [torch.optim.Optimizer]: whether it is an
    instance of [torch.optim.SGD], its [defaults] and its [step()], which
    consumes the gradient slots of the parameters. *)
Record Optimizer : Type := mkOptimizer {
  isinstance_SGD : bool;
  defaults_lr : scalar;
  defaults_momentum : scalar;
  defaults_weight_decay : scalar;
  step : list Param -> list Param
}.

(** One step of [torch.optim.SGD] with momentum 0 (no dampening, no
    Nesterov): a parameter without gradient is skipped; otherwise
    [d_p = grad (+ weight_decay * p if weight_decay != 0)] and
    [p.add_(d_p, alpha=-lr)]. *)
Definition sgd_step_param (lr weight_decay : scalar) (p : Param) : Param :=
  match grad p with
  | None => p
  | Some g =>
      let d_p := if Qc_eqb weight_decay 0 then g
                 else axpy g weight_decay (data p) in
      set_data p (axpy (data p) (- lr) d_p)
  end.

Definition sgd_step (lr weight_decay : scalar) (ps : list Param) : list Param :=
  map (sgd_step_param lr weight_decay) ps.

(** [torch.optim.SGD(params, lr=lr, momentum=0, weight_decay=weight_decay)]. *)
Definition SGD (lr weight_decay : scalar) : Optimizer :=
  {| isinstance_SGD := true;
     defaults_lr := lr;
     defaults_momentum := 0;
     defaults_weight_decay := weight_decay;
     step := sgd_step lr weight_decay |}.

(** [optimizer.step()]. *)
Definition optimizer_step (optimizer : Optimizer) : M unit :=
  fun st => (Ok tt, with_params st (step optimizer (params st))).

(** [a.add_(b, alpha=alpha)] and [a += b] where the shape of [b] is not
    that of [a] by construction: torch refuses a mismatch. *)
Definition add_ (a : Tensor) (alpha : scalar) (b : Tensor) : result Tensor :=
  if Nat.eqb (length a) (length b) then Ok (axpy a alpha b)
  else Raise RuntimeError.

Section Estimator.

(** The samples [torch.randn] draws. *)
Variable normal_sample : Sampler.

(** [torch.norm], the Euclidean norm (a square root, hence not a rational
    function of the entries). *)
Variable norm : Tensor -> scalar.

(** The batch, the labels and the loss of the model on them, as a function
    of the current values of the parameters.  [loss_fn] is a callable of
    the caller's: it returns the loss or it raises. *)
Variables BatchInputs Labels : Type.
Definition Loss : Type :=
  BatchInputs -> Labels -> list Tensor -> result scalar.

(** A loss that returns a value at every point, and the callable it is. *)
Definition LossFn : Type := BatchInputs -> Labels -> list Tensor -> scalar.

Definition returning (loss_fn : LossFn) : Loss :=
  fun batch_inputs labels d => Ok (loss_fn batch_inputs labels d).

(** [torch.randn(n, generator=rng)]: the draw of [n] samples, and the
    generator after it. *)
Definition randn (n : nat) (rng : Generator) : Tensor * Generator :=
  (map (normal_sample rng n) (seq 0 n),
   {| gen_key := gen_key rng; gen_drawn := gen_drawn rng ++ [n] |}).

(** [loss_fn(batch_inputs, labels)]: evaluates the model at the current
    parameter values, and records the evaluation; what the callable raises
    propagates. *)
Definition eval_loss (loss_fn : Loss) (batch_inputs : BatchInputs)
    (labels : Labels) : M scalar :=
  fun st =>
    let d := map data (params st) in
    (loss_fn batch_inputs labels d,
     {| params := params st; loss_evals := loss_evals st ++ [d] |}).

Variable self : RandomGradientEstimator.

(** [generate_perturbation_norm]; every caller drops the generator after
    the draw. *)
Definition generate_perturbation_norm (rng : Generator) : Tensor :=
  let p := fst (randn (total_dimensions self) rng) in
  if normalize_perturbation self then tdiv p (norm p) else p.

(** The loop body of [perturb_model], on the parameter [p] with the local
    [start]. *)
Definition perturb_model_body (perturb : option Tensor) (alpha : scalar)
    (p : Param) (start : nat) : Param * result nat :=
  match perturb with
  | Some perturb =>
      match view (slice perturb start (start + numel p)) (numel p) with
      | Ok _perturb =>
          (set_data p (axpy (data p) alpha _perturb), Ok (start + numel p)%nat)
      | Raise e => (p, Raise e)
      end
  | None =>
      ((if Qc_eqb alpha 1 then p else set_data p (scale alpha (data p))),
       Ok (start + numel p)%nat)
  end.

Definition perturb_model (perturb : option Tensor) (alpha : scalar) : M unit :=
  for_params (perturb_model_body perturb alpha) 0%nat ;;; ret tt.

Definition put_grad_body (grad : Tensor) (p : Param) (start : nat)
    : Param * result nat :=
  match view (slice grad start (start + numel p)) (numel p) with
  | Ok g => (set_grad p (Some g), Ok (start + numel p)%nat)
  | Raise e => (p, Raise e)
  end.

Definition put_grad (grad : Tensor) : M unit :=
  for_params (put_grad_body grad) 0%nat ;;; ret tt.

(** One turn of the accumulation loop of [generate_then_put_grad], on the
    local [update_grad]. *)
Definition accumulate_step (seed : Z) (num_pert : nat)
    (update_grad : option Tensor) (x : nat * scalar) : option Tensor :=
  let '(i, dir_grad) := x in
  let rng := get_rng seed i in
  let update :=
    scale (dir_grad / of_nat num_pert) (generate_perturbation_norm rng) in
  match update_grad with
  | None => Some update
  | Some acc => Some (tadd acc update)
  end.

(** The accumulation loop of [generate_then_put_grad]; it touches no
    parameter. *)
Definition accumulate_update (seed : Z) (dir_grads : Tensor) : option Tensor :=
  let num_pert := length dir_grads in
  fold_left (accumulate_step seed num_pert) (enumerate dir_grads) None.

Definition generate_then_put_grad (seed : Z) (dir_grads : Tensor) : M unit :=
  match accumulate_update seed dir_grads with
  | None => raise AssertionError
  | Some update_grad => put_grad update_grad
  end.

(** [param.add_(_perturb, alpha=alpha)] with [_perturb] drawn from [rng] in
    the shape of [param]: the loop body of [perturb_model_paramwise] and of
    [sgd_no_optim_update_model]. *)
Definition add_randn_body (alpha : scalar) (param : Param) (rng : Generator)
    : Param * result Generator :=
  let (_perturb, rng) := randn (numel param) rng in
  (set_data param (axpy (data param) alpha _perturb), Ok rng).

Definition perturb_model_paramwise (rng : Generator) (alpha : scalar)
    : M unit :=
  for_params (add_randn_body alpha) rng ;;; ret tt.

(** The parameter loop body of [generate_then_put_grad_paramwise] for the
    direction [i] weighted by [c = dir_grad / num_pert]: the first
    direction assigns the gradient slot, the later ones add to it. *)
Definition put_grad_paramwise_body (i : nat) (c : scalar) (param : Param)
    (rng : Generator) : Param * result Generator :=
  let (_perturb, rng) := randn (numel param) rng in
  let update := scale c _perturb in
  if Nat.eqb i 0 then (set_grad param (Some update), Ok rng)
  else
    match grad param with
    | None => (param, Raise TypeError)
    | Some g =>
        match add_ g 1 update with
        | Ok g' => (set_grad param (Some g'), Ok rng)
        | Raise e => (param, Raise e)
        end
    end.

(** One turn of the outer loop of [generate_then_put_grad_paramwise]. *)
Definition put_grad_paramwise_step (seed : Z) (num_pert : nat)
    (x : nat * scalar) (_ : unit) : M unit :=
  let '(i, dir_grad) := x in
  let rng := get_rng seed i in
  for_params (put_grad_paramwise_body i (dir_grad / of_nat num_pert)) rng ;;;
  ret tt.

Definition generate_then_put_grad_paramwise (seed : Z) (dir_grads : Tensor)
    : M unit :=
  let num_pert := length dir_grads in
  for_each (enumerate dir_grads) (put_grad_paramwise_step seed num_pert) tt.

Definition sgd_no_optim_update_model (perturbation_dir_grads : Tensor)
    (seed : Z) (lr : scalar) : M unit :=
  let num_pert := length perturbation_dir_grads in
  for_each (enumerate perturbation_dir_grads) (fun x _ =>
    let '(i, dir_grad) := x in
    let rng := get_rng seed i in
    for_params (add_randn_body (- lr * dir_grad / of_nat num_pert)) rng ;;;
    ret tt) tt.

Definition denominator_factor : scalar :=
  match grad_estimate_method self with
  | rge_central => two
  | rge_forward => 1
  end.

(** The locals the estimation loops carry from one direction to the next:
    [grad], [dir_grads] and [pert_minus_loss] (unbound until assigned). *)
Definition EstimateLocals : Type :=
  (option Tensor * list scalar * option scalar)%type.

(** The assignment to [pert_minus_loss] before the loop. *)
Definition initial_minus_loss (loss_fn : Loss) (batch_inputs : BatchInputs)
    (labels : Labels) : M (option scalar) :=
  match grad_estimate_method self with
  | rge_forward =>
      l <- eval_loss loss_fn batch_inputs labels ;; ret (Some l)
  | rge_central => ret None
  end.

(** One turn of the loop of [_zo_grad_estimate], for the direction [i]. *)
Definition _zo_grad_estimate_step (batch_inputs : BatchInputs)
    (labels : Labels) (loss_fn : Loss) (seed : Z) (i : nat)
    (locals : EstimateLocals) : M EstimateLocals :=
  let '(grad, dir_grads, pert_minus_loss) := locals in
  let rng := get_rng seed i in
  let pb_norm := generate_perturbation_norm rng in
  perturb_model (Some pb_norm) (mu self) ;;;
  pert_plus_loss <- eval_loss loss_fn batch_inputs labels ;;
  pert_minus_loss <-
    match grad_estimate_method self with
    | rge_central =>
        perturb_model (Some pb_norm) (- two * mu self) ;;;
        l <- eval_loss loss_fn batch_inputs labels ;;
        perturb_model (Some pb_norm) (mu self) ;;;
        ret (Some l)
    | rge_forward =>
        perturb_model (Some pb_norm) (- mu self) ;;;
        ret pert_minus_loss
    end ;;
  match pert_minus_loss with
  | None => raise UnboundLocalError
  | Some minus_loss =>
      let dir_grad :=
        (pert_plus_loss - minus_loss) / (mu self * denominator_factor) in
      let dir_grads := dir_grads ++ [dir_grad] in
      let grad :=
        match grad with
        | None => scale dir_grad pb_norm
        | Some grad => tadd grad (scale dir_grad pb_norm)
        end in
      ret (Some grad, dir_grads, pert_minus_loss)
  end.

Definition _zo_grad_estimate (batch_inputs : BatchInputs) (labels : Labels)
    (loss_fn : Loss) (seed : Z) : M (Tensor * Tensor) :=
  pert_minus_loss <- initial_minus_loss loss_fn batch_inputs labels ;;
  locals <- for_each (seq 0 (num_pert self))
    (_zo_grad_estimate_step batch_inputs labels loss_fn seed)
    (None, [], pert_minus_loss) ;;
  let '(grad, dir_grads, _) := locals in
  match grad with
  | None => raise AssertionError
  | Some grad => ret (tdiv grad (of_nat (num_pert self)), dir_grads)
  end.

(** One turn of the loop of [_zo_grad_estimate_paramwise], for the
    direction [i]; the locals are [dir_grads] and [pert_minus_loss]. *)
Definition _zo_grad_estimate_paramwise_step (batch_inputs : BatchInputs)
    (labels : Labels) (loss_fn : Loss) (seed : Z) (i : nat)
    (locals : list scalar * option scalar) : M (list scalar * option scalar) :=
  let '(dir_grads, pert_minus_loss) := locals in
  let rng := get_rng seed i in
  perturb_model_paramwise rng (mu self) ;;;
  pert_plus_loss <- eval_loss loss_fn batch_inputs labels ;;
  pert_minus_loss <-
    match grad_estimate_method self with
    | rge_central =>
        let rng := get_rng seed i in
        perturb_model_paramwise rng (- two * mu self) ;;;
        l <- eval_loss loss_fn batch_inputs labels ;;
        let rng := get_rng seed i in
        perturb_model_paramwise rng (mu self) ;;;
        ret (Some l)
    | rge_forward =>
        let rng := get_rng seed i in
        perturb_model_paramwise rng (- mu self) ;;;
        ret pert_minus_loss
    end ;;
  match pert_minus_loss with
  | None => raise UnboundLocalError
  | Some minus_loss =>
      let dir_grad :=
        (pert_plus_loss - minus_loss) / (mu self * denominator_factor) in
      ret (dir_grads ++ [dir_grad], pert_minus_loss)
  end.

Definition _zo_grad_estimate_paramwise (batch_inputs : BatchInputs)
    (labels : Labels) (loss_fn : Loss) (seed : Z) : M Tensor :=
  pert_minus_loss <- initial_minus_loss loss_fn batch_inputs labels ;;
  locals <- for_each (seq 0 (num_pert self))
    (_zo_grad_estimate_paramwise_step batch_inputs labels loss_fn seed)
    ([], pert_minus_loss) ;;
  ret (fst locals).

Definition compute_grad (batch_inputs : BatchInputs) (labels : Labels)
    (loss_fn : Loss) (seed : Z) (is_put : bool) : M Tensor :=
  if negb (paramwise_perturb self) then
    r <- _zo_grad_estimate batch_inputs labels loss_fn seed ;;
    let '(grad, perturbation_dir_grads) := r in
    (if is_put then put_grad grad else ret tt) ;;;
    ret perturbation_dir_grads
  else
    perturbation_dir_grads <-
      _zo_grad_estimate_paramwise batch_inputs labels loss_fn seed ;;
    generate_then_put_grad_paramwise seed perturbation_dir_grads ;;;
    ret perturbation_dir_grads.

(** One turn of the second loop of [update_model_given_seed_and_grad]:
    inject the gradient of the recorded step, then let the optimizer
    step. *)
Definition update_model_step (optimizer : Optimizer) (x : Z * Tensor)
    (_ : unit) : M unit :=
  let '(one_update_seed, one_update_grad_dirs) := x in
  (if paramwise_perturb self
   then generate_then_put_grad_paramwise one_update_seed one_update_grad_dirs
   else generate_then_put_grad one_update_seed one_update_grad_dirs) ;;;
  optimizer_step optimizer.

(** [zip(iteration_seeds, iteration_grad_scalar)] is [combine]. *)
Definition update_model_given_seed_and_grad (optimizer : Optimizer)
    (iteration_seeds : list Z) (iteration_grad_scalar : list Tensor) : M unit :=
  assert (Nat.eqb (length iteration_seeds) (length iteration_grad_scalar)) ;;;
  if sgd_only_no_optim self then
    let lr := defaults_lr optimizer in
    assert (paramwise_perturb self) ;;;
    for_each (combine iteration_seeds iteration_grad_scalar)
      (fun x _ =>
        let '(one_update_seed, one_update_grad_dirs) := x in
        sgd_no_optim_update_model one_update_grad_dirs one_update_seed lr) tt
  else
    for_each (combine iteration_seeds iteration_grad_scalar)
      (update_model_step optimizer) tt.

(** The body of the parameter loop of [revert_model_given_seed_and_grad].
    [1 / (1 - lr * weight_decay)] is a division of Python numbers, which
    raises on a zero divisor, after [param.add_] has run. *)
Definition revert_param (lr weight_decay : scalar) (param : Param) (_ : unit)
    : Param * result unit :=
  match grad param with
  | None => (param, Raise AssertionError)
  | Some g =>
      match add_ (data param) lr g with
      | Raise e => (param, Raise e)
      | Ok d =>
          let param := set_data param d in
          if Qc_ltb 0 weight_decay then
            if Qc_eqb (1 - lr * weight_decay) 0
            then (param, Raise ZeroDivisionError)
            else (set_data param
                    (scale (1 / (1 - lr * weight_decay)) (data param)), Ok tt)
          else (param, Ok tt)
      end
  end.

(** One turn of the loop of [revert_model_given_seed_and_grad]: inject the
    gradient of the recorded step again, then undo the descent step on
    every parameter. *)
Definition revert_model_step (lr weight_decay : scalar) (x : Z * Tensor)
    (_ : unit) : M unit :=
  let '(one_update_seed, one_update_grad_dirs) := x in
  (if paramwise_perturb self
   then generate_then_put_grad_paramwise one_update_seed one_update_grad_dirs
   else generate_then_put_grad one_update_seed one_update_grad_dirs) ;;;
  for_params (revert_param lr weight_decay) tt.

Definition revert_model_given_seed_and_grad (optimizer : Optimizer)
    (iteration_seeds : list Z) (iteration_grad_scalar : list Tensor) : M unit :=
  assert (negb (sgd_only_no_optim self)) ;;;
  assert (Nat.eqb (length iteration_seeds) (length iteration_grad_scalar)) ;;;
  (if isinstance_SGD optimizer && Qc_eqb (defaults_momentum optimizer) 0
   then ret tt
   else raise (Exception "Revert only supports SGD without momentum")) ;;;
  let lr := defaults_lr optimizer in
  let weight_decay := defaults_weight_decay optimizer in
  for_each (combine iteration_seeds iteration_grad_scalar)
    (revert_model_step lr weight_decay) tt.

(** [torch.stack(tensors)] on scalar tensors: the vector of them; torch
    refuses an empty list. *)
Definition stack (tensors : list scalar) : result Tensor :=
  match tensors with
  | [] => Raise RuntimeError
  | _ :: _ => Ok tensors
  end.

(** One turn of the loop of [compute_grad_with_graph], for the direction
    [i]; the locals are [dir_grads] and [pert_minus_loss]. *)
Definition compute_grad_with_graph_step (batch_inputs : BatchInputs)
    (labels : Labels) (loss_fn : Loss) (seed : Z) (i : nat)
    (locals : list scalar * option scalar) : M (list scalar * option scalar) :=
  let '(dir_grads, pert_minus_loss) := locals in
  let rng := get_rng seed i in
  let pb_norm := generate_perturbation_norm rng in
  perturb_model (Some pb_norm) (mu self) ;;;
  pert_plus_loss <- eval_loss loss_fn batch_inputs labels ;;
  pert_minus_loss <-
    match grad_estimate_method self with
    | rge_central =>
        perturb_model (Some pb_norm) (- two * mu self) ;;;
        l <- eval_loss loss_fn batch_inputs labels ;;
        perturb_model (Some pb_norm) (mu self) ;;;
        ret (Some l)
    | rge_forward =>
        perturb_model (Some pb_norm) (- mu self) ;;;
        ret pert_minus_loss
    end ;;
  match pert_minus_loss with
  | None => raise UnboundLocalError
  | Some minus_loss =>
      let dir_grad :=
        (pert_plus_loss - minus_loss) / (mu self * denominator_factor) in
      ret (dir_grads ++ [dir_grad], pert_minus_loss)
  end.

(** [compute_grad_with_graph].  The batch is detached and cloned first,
    which changes no value; the graph it keeps is autograd's and has no
    counterpart here. *)
Definition compute_grad_with_graph (batch_inputs : BatchInputs)
    (labels : Labels) (loss_fn : Loss) (seed : Z) : M Tensor :=
  assert (negb (paramwise_perturb self)) ;;;
  pert_minus_loss <- initial_minus_loss loss_fn batch_inputs labels ;;
  locals <- for_each (seq 0 (num_pert self))
    (compute_grad_with_graph_step batch_inputs labels loss_fn seed)
    ([], pert_minus_loss) ;;
  match stack (fst locals) with
  | Ok dir_grads => ret dir_grads
  | Raise e => raise e
  end.

End Estimator.

Coercion returning : LossFn >-> Loss.

(** * Specification-level descriptions of the parameter loops *)

(** The parameters after [alpha] times the flat vector [v] has been added,
    slice by slice in list order. *)
Fixpoint add_flat (ps : list Param) (alpha : scalar) (v : Tensor)
    : list Param :=
  match ps with
  | [] => []
  | p :: rest =>
      set_data p (axpy (data p) alpha (firstn (numel p) v))
      :: add_flat rest alpha (skipn (numel p) v)
  end.

(** The parameters after the consecutive slices of the flat vector [v]
    have been written to their gradient slots. *)
Fixpoint put_flat (ps : list Param) (v : Tensor) : list Param :=
  match ps with
  | [] => []
  | p :: rest =>
      set_grad p (Some (firstn (numel p) v))
      :: put_flat rest (skipn (numel p) v)
  end.

Definition sum_numel (ps : list Param) : nat := list_sum (map numel ps).

(** The estimator's [total_dimensions] is the element count of the
    parameters of the store: [__init__] establishes it, and no method
    changes a shape. *)
Definition dims_ok (self : RandomGradientEstimator) (st : Store) : bool :=
  Nat.eqb (total_dimensions self) (sum_numel (params st)).

(** A computation that leaves every parameter with the size it had, in
    whatever way it ends. *)
Definition keeps_sizes {A} (m : M A) : Prop :=
  forall st : Store, map numel (params (snd (m st))) = map numel (params st).

(** The tensors [torch.randn] draws for the parameters [ps], one after the
    other from [rng], in list order. *)
Fixpoint draw_like (normal_sample : Sampler) (rng : Generator)
    (ps : list Param) : list Tensor :=
  match ps with
  | [] => []
  | p :: rest =>
      let (z, rng') := randn normal_sample (numel p) rng in
      z :: draw_like normal_sample rng' rest
  end.

(** The generator after those draws. *)
Fixpoint after_draws (normal_sample : Sampler) (rng : Generator)
    (ps : list Param) : Generator :=
  match ps with
  | [] => rng
  | p :: rest =>
      after_draws normal_sample (snd (randn normal_sample (numel p) rng)) rest
  end.

(** The property of a random source that the draws made one after the other
    from a seeded generator are the consecutive slices of any single larger
    draw from it: the sample [k] of a draw of [n] elements, made after draws
    of the sizes [drawn], is the sample [list_sum drawn + k] of the one draw
    of [total] elements. *)
Definition sequential_draws_are_slices (normal_sample : Sampler) : Prop :=
  forall (key : Z) (drawn : list nat) (n k total : nat),
    (k < n)%nat ->
    (list_sum drawn + n <= total)%nat ->
    normal_sample {| gen_key := key; gen_drawn := drawn |} n k
    = normal_sample (manual_seed key) total (list_sum drawn + k)%nat.

Section EstimateSpec.

Variable normal_sample : Sampler.
Variable norm : Tensor -> scalar.
Variables BatchInputs Labels : Type.
Variable self : RandomGradientEstimator.
Variable loss_fn : LossFn BatchInputs Labels.
Variable batch_inputs : BatchInputs.
Variable labels : Labels.
Variable seed : Z.

(** The direction of index [i]: in the whole-vector mode the flat vector
    [generate_perturbation_norm] draws, in the paramwise mode the
    per-parameter tensors drawn for the parameters [ps], laid end to end. *)
Definition flat_direction (i : nat) : Tensor :=
  generate_perturbation_norm normal_sample norm self (get_rng seed i).

Definition paramwise_direction (ps : list Param) (i : nat) : Tensor :=
  concat (draw_like normal_sample (get_rng seed i) ps).

(** The parameter values [ps + alpha * direction]. *)
Definition perturbed (ps : list Param) (alpha : scalar) (direction : Tensor)
    : list Tensor :=
  map data (add_flat ps alpha direction).

Section Direction.

Variable direction : nat -> Tensor.
Variable ps : list Param.

(** [L_plus] of the direction [i]: the loss at [ps + mu * direction i]. *)
Definition L_plus (i : nat) : scalar :=
  loss_fn batch_inputs labels (perturbed ps (mu self) (direction i)).

(** [L_minus] of the direction [i]: in the central mode the loss at
    [ps - mu * direction i], in the forward mode the loss at [ps]. *)
Definition L_minus (i : nat) : scalar :=
  match grad_estimate_method self with
  | rge_central =>
      loss_fn batch_inputs labels (perturbed ps (- mu self) (direction i))
  | rge_forward => loss_fn batch_inputs labels (map data ps)
  end.

Definition denom : scalar :=
  match grad_estimate_method self with
  | rge_central => two
  | rge_forward => 1
  end.

Definition directional_gradient (i : nat) : scalar :=
  (L_plus i - L_minus i) / (mu self * denom).

(** The loss evaluations of one estimate over the directions [0 .. n-1],
    in the order they are made. *)
Definition estimate_evals (n : nat) : list (list Tensor) :=
  match grad_estimate_method self with
  | rge_central =>
      flat_map (fun i => [perturbed ps (mu self) (direction i);
                          perturbed ps (- mu self) (direction i)]) (seq 0 n)
  | rge_forward =>
      map data ps
      :: map (fun i => perturbed ps (mu self) (direction i)) (seq 0 n)
  end.

(** [avg_i (g_i * z_i)]: the full gradient [_zo_grad_estimate] returns
    beside the directional gradients. *)
Definition full_gradient (n : nat) : option Tensor :=
  option_map (fun g => tdiv g (of_nat n))
    (fold_left (fun grad i =>
       let update := scale (directional_gradient i) (direction i) in
       match grad with
       | None => Some update
       | Some g => Some (tadd g update)
       end) (seq 0 n) None).

End Direction.

End EstimateSpec.

(** The injected gradient, as the specification words it: the flat vector
    whose entry [j] is the sum over the directions [i] of
    [direction_i[j] * dir_grads[i] / num_pert], with [num_pert] the length
    of [dir_grads]. *)
Definition Qc_sum (l : list scalar) : scalar := fold_right Qcplus 0 l.

Definition averaged_sum_entry (direction : nat -> Tensor) (dir_grads : Tensor)
    (j : nat) : scalar :=
  Qc_sum (map (fun x : nat * scalar =>
                 nth j (direction (fst x)) 0 * snd x
                 / of_nat (length dir_grads))
            (enumerate dir_grads)).

Definition averaged_sum (direction : nat -> Tensor) (dir_grads : Tensor)
    (total : nat) : Tensor :=
  map (averaged_sum_entry direction dir_grads) (seq 0 total).

(** One turn of the accumulation of the injected gradient over the
    directions, whatever the way the direction [i] is drawn: the first
    turn starts the sum, the later ones add to it. *)
Definition add_direction (direction : nat -> Tensor) (n : nat)
    (acc : option Tensor) (x : nat * scalar) : option Tensor :=
  let '(i, dir_grad) := x in
  let update := scale (dir_grad / of_nat n) (direction i) in
  match acc with
  | None => Some update
  | Some acc => Some (tadd acc update)
  end.

(** The offset of the parameter of index [k] in a flat vector. *)
Definition offset (ps : list Param) (k : nat) : nat := sum_numel (firstn k ps).

(** ** A worked configuration

    Two parameters of 4 and 6 elements ([total_dimensions = 10]), two
    directions, seed 42; the samples and the loss are simple rational
    functions, enough to run every method on. *)

(** A source whose draws are the consecutive samples of one stream per
    key, whatever the sizes they are drawn in. *)
Definition example_sample : Sampler :=
  fun rng _ k =>
    let pos := (list_sum (gen_drawn rng) + k)%nat in
    of_Z (gen_key rng + Z.of_nat (pos * pos)) / of_nat (S pos).


(** A stand-in for [torch.norm] where none is called (no example
    normalises). *)
Definition example_norm (t : Tensor) : scalar :=
  1 + Qc_sum (map (fun x => x * x) t).

Definition example_loss : LossFn unit unit :=
  fun _ _ d => Qc_sum (map (fun x => x * x) (concat d)).

Definition example_params : list Param :=
  [ {| requires_grad := true;
       data := [of_Z 1; of_Z 2; of_Z 3; of_Z 4];
       grad := None |};
    {| requires_grad := true;
       data := [of_Z 5; of_Z 6; of_Z 7; of_Z 8; of_Z 9; of_Z 10];
       grad := Some [0; 0; 0; 0; 0; of_Z 1] |} ].

Definition example_store : Store :=
  {| params := example_params; loss_evals := [] |}.

Definition example_estimator (method : RandomGradEstimateMethod)
    (paramwise : bool) : RandomGradientEstimator :=
  {| total_dimensions := 10;
     mu := Q2Qc (1 # 1000);
     num_pert := 2;
     grad_estimate_method := method;
     paramwise_perturb := paramwise;
     sgd_only_no_optim := false;
     normalize_perturbation := false |}.

Definition example_seed : Z := 42.

Definition example_dir_grads : Tensor := [of_Z 2; Q2Qc (-3 # 4)].

(** An optimizer that is not SGD (its step is of no concern). *)
Definition example_other_optimizer : Optimizer :=
  {| isinstance_SGD := false;
     defaults_lr := Q2Qc (1 # 10);
     defaults_momentum := 0;
     defaults_weight_decay := 0;
     step := fun ps => ps |}.

(** A flat vector that covers the first parameter and not the second. *)
Definition example_short_vector : Tensor := [1; 1; 1; 1; 1; 1; 1].

(** A callable that raises away from the point where the values sum to
    55, as those of the worked parameters do. *)
Definition example_failing_loss : Loss unit unit :=
  fun _ _ d =>
    if Qc_eqb (Qc_sum (concat d)) (of_Z 55) then Ok 0
    else Raise ZeroDivisionError.

(** A loss that is linear in the parameter values: their sum. *)
Definition example_linear_loss : LossFn unit unit :=
  fun _ _ d => Qc_sum (concat d).

(** The paramwise estimator that updates without an optimizer. *)
Definition example_no_optim_estimator : RandomGradientEstimator :=
  {| total_dimensions := 10;
     mu := Q2Qc (1 # 1000);
     num_pert := 2;
     grad_estimate_method := rge_central;
     paramwise_perturb := true;
     sgd_only_no_optim := true;
     normalize_perturbation := false |}.

(** ** Scalars *)

Lemma Qc_eqb_true (x y : scalar) : Qc_eqb x y = true <-> x = y.
Proof.
  unfold Qc_eqb. destruct (Qc_eq_dec x y); split; congruence.
Qed.

Lemma Qc_eqb_false (x y : scalar) : Qc_eqb x y = false <-> x <> y.
Proof.
  unfold Qc_eqb. destruct (Qc_eq_dec x y); split; congruence.
Qed.

Lemma Qc_ltb_true (x y : scalar) : Qc_ltb x y = true <-> x < y.
Proof.
  unfold Qc_ltb, Qclt, Qccompare. rewrite Qlt_alt.
  destruct (Qcompare x y); split; congruence.
Qed.

Lemma Qc_ltb_false_le (x y : scalar) : Qc_ltb x y = false -> x <= y -> x = y.
Proof.
  intros Hlt Hle.
  destruct (Qc_eq_dec x y) as [|Hne]; [assumption|].
  assert (x < y) as H by (apply Qcle_lt_or_eq in Hle; tauto).
  apply Qc_ltb_true in H. congruence.
Qed.

(** [ring] on goals that mention the alias [scalar]. *)
Ltac scalar_ring := unfold scalar in *; ring.

(** ** Flat tensors *)

Lemma axpy_length (a b : Tensor) (alpha : scalar) :
  length (axpy a alpha b) = Nat.min (length a) (length b).
Proof.
  revert b. induction a as [|x a IH]; intros [|y b]; simpl; auto.
Qed.

Lemma axpy_length_eq (a b : Tensor) (alpha : scalar) :
  length a = length b -> length (axpy a alpha b) = length a.
Proof. intros H. rewrite axpy_length. lia. Qed.

Lemma axpy_axpy (a b : Tensor) (alpha beta : scalar) :
  axpy (axpy a alpha b) beta b = axpy a (alpha + beta) b.
Proof.
  revert b. induction a as [|x a IH]; intros [|y b]; simpl; auto.
  rewrite IH. f_equal. ring.
Qed.

Lemma axpy_0 (a b : Tensor) :
  length a = length b -> axpy a 0 b = a.
Proof.
  revert b. induction a as [|x a IH]; intros [|y b]; simpl;
    try discriminate; auto.
  intros H. injection H as H. rewrite IH by assumption. f_equal. ring.
Qed.

Lemma firstn_axpy (n : nat) (a b : Tensor) (alpha : scalar) :
  firstn n (axpy a alpha b) = axpy (firstn n a) alpha (firstn n b).
Proof.
  revert a b. induction n as [|n IH]; intros [|x a] [|y b]; simpl; auto.
  rewrite IH. reflexivity.
Qed.

Lemma skipn_axpy (n : nat) (a b : Tensor) (alpha : scalar) :
  skipn n (axpy a alpha b) = axpy (skipn n a) alpha (skipn n b).
Proof.
  revert a b. induction n as [|n IH]; intros [|x a] [|y b]; simpl; auto.
  destruct (skipn n a); reflexivity.
Qed.

Lemma firstn_scale (n : nat) (c : scalar) (t : Tensor) :
  firstn n (scale c t) = scale c (firstn n t).
Proof. unfold scale. apply firstn_map. Qed.

Lemma skipn_scale (n : nat) (c : scalar) (t : Tensor) :
  skipn n (scale c t) = scale c (skipn n t).
Proof. unfold scale. apply skipn_map. Qed.

Lemma scale_length (c : scalar) (t : Tensor) : length (scale c t) = length t.
Proof. apply length_map. Qed.

Lemma tdiv_length (t : Tensor) (c : scalar) : length (tdiv t c) = length t.
Proof. apply length_map. Qed.

Lemma slice_firstn_skipn (t : Tensor) (start n : nat) :
  slice t start (start + n) = firstn n (skipn start t).
Proof. unfold slice. f_equal. lia. Qed.

Lemma view_ok (t : Tensor) (n : nat) : length t = n -> view t n = Ok t.
Proof. intros H. unfold view. rewrite H, Nat.eqb_refl. reflexivity. Qed.

Lemma view_slice (t : Tensor) (start n : nat) :
  (start + n <= length t)%nat ->
  view (slice t start (start + n)) n = Ok (firstn n (skipn start t)).
Proof.
  intros H. rewrite slice_firstn_skipn. apply view_ok.
  rewrite length_firstn, length_skipn. lia.
Qed.

(** ** Parameters *)

Lemma set_data_data (p : Param) : set_data p (data p) = p.
Proof. destruct p; reflexivity. Qed.

Lemma set_data_set_data (p : Param) (d d' : Tensor) :
  set_data (set_data p d) d' = set_data p d'.
Proof. reflexivity. Qed.

Lemma set_grad_set_grad (p : Param) (g g' : option Tensor) :
  set_grad (set_grad p g) g' = set_grad p g'.
Proof. reflexivity. Qed.

Lemma with_params_params (st : Store) : with_params st (params st) = st.
Proof. destruct st; reflexivity. Qed.

Lemma with_params_twice (st : Store) (ps ps' : list Param) :
  with_params (with_params st ps) ps' = with_params st ps'.
Proof. reflexivity. Qed.

Lemma add_flat_numel (ps : list Param) (alpha : scalar) (v : Tensor) :
  (sum_numel ps <= length v)%nat ->
  map numel (add_flat ps alpha v) = map numel ps.
Proof.
  revert v. induction ps as [|p ps IH]; intros v H; simpl; [reflexivity|].
  unfold sum_numel in H. simpl in H.
  rewrite IH by (rewrite length_skipn; unfold sum_numel; lia).
  f_equal. unfold numel at 1. simpl.
  rewrite axpy_length_eq; [reflexivity|].
  rewrite length_firstn. unfold numel in *. lia.
Qed.

Lemma add_flat_sum_numel (ps : list Param) (alpha : scalar) (v : Tensor) :
  (sum_numel ps <= length v)%nat ->
  sum_numel (add_flat ps alpha v) = sum_numel ps.
Proof. intros H. unfold sum_numel. rewrite add_flat_numel; auto. Qed.

Lemma add_flat_add (ps : list Param) (alpha beta : scalar) (v : Tensor) :
  (sum_numel ps <= length v)%nat ->
  add_flat (add_flat ps alpha v) beta v = add_flat ps (alpha + beta) v.
Proof.
  revert v. induction ps as [|p ps IH]; intros v H; simpl; [reflexivity|].
  unfold sum_numel in H. simpl in H.
  assert (numel (set_data p (axpy (data p) alpha (firstn (numel p) v)))
          = numel p) as Hn.
  { unfold numel at 1. simpl. rewrite axpy_length_eq; [reflexivity|].
    rewrite length_firstn. unfold numel in *. lia. }
  rewrite Hn. rewrite IH by (rewrite length_skipn; unfold sum_numel; lia).
  f_equal. unfold set_data. simpl. f_equal. apply axpy_axpy.
Qed.

Lemma add_flat_0 (ps : list Param) (v : Tensor) :
  (sum_numel ps <= length v)%nat -> add_flat ps 0 v = ps.
Proof.
  revert v. induction ps as [|p ps IH]; intros v H; simpl; [reflexivity|].
  unfold sum_numel in H. simpl in H.
  rewrite IH by (rewrite length_skipn; unfold sum_numel; lia).
  rewrite axpy_0, set_data_data; [reflexivity|].
  rewrite length_firstn. unfold numel in *. lia.
Qed.

Lemma add_flat_grad (ps : list Param) (alpha : scalar) (v : Tensor) :
  map grad (add_flat ps alpha v) = map grad ps.
Proof.
  revert v. induction ps as [|p ps IH]; intros v; simpl; [reflexivity|].
  rewrite IH. reflexivity.
Qed.

Lemma put_flat_numel (ps : list Param) (v : Tensor) :
  map numel (put_flat ps v) = map numel ps.
Proof.
  revert v. induction ps as [|p ps IH]; intros v; simpl; [reflexivity|].
  rewrite IH. reflexivity.
Qed.

Lemma put_flat_data (ps : list Param) (v : Tensor) :
  map data (put_flat ps v) = map data ps.
Proof.
  revert v. induction ps as [|p ps IH]; intros v; simpl; [reflexivity|].
  rewrite IH. reflexivity.
Qed.

Lemma put_flat_sum_numel (ps : list Param) (v : Tensor) :
  sum_numel (put_flat ps v) = sum_numel ps.
Proof. unfold sum_numel. rewrite put_flat_numel. reflexivity. Qed.

Lemma put_flat_put_flat (ps : list Param) (v w : Tensor) :
  put_flat (put_flat ps v) w = put_flat ps w.
Proof.
  revert v w. induction ps as [|p ps IH]; intros v w; simpl; [reflexivity|].
  rewrite IH. reflexivity.
Qed.

(** ** The parameter loops of the whole-vector mode *)

Lemma perturb_model_loop (v : Tensor) (alpha : scalar) (ps : list Param)
    (start : nat) :
  (start + sum_numel ps <= length v)%nat ->
  for_params_list (perturb_model_body (Some v) alpha) ps start
  = (Ok (start + sum_numel ps)%nat, add_flat ps alpha (skipn start v)).
Proof.
  revert start. induction ps as [|p ps IH]; intros start H.
  - simpl. unfold sum_numel. simpl. rewrite Nat.add_0_r. reflexivity.
  - unfold sum_numel in *. simpl in *.
    unfold perturb_model_body at 1. rewrite view_slice by lia.
    rewrite IH by lia. rewrite skipn_skipn.
    rewrite (Nat.add_comm (numel p) start), Nat.add_assoc. reflexivity.
Qed.

Lemma perturb_model_flat (v : Tensor) (alpha : scalar) (st : Store) :
  (sum_numel (params st) <= length v)%nat ->
  perturb_model (Some v) alpha st
  = (Ok tt, with_params st (add_flat (params st) alpha v)).
Proof.
  intros H. unfold perturb_model, bind, for_params.
  rewrite perturb_model_loop by lia. reflexivity.
Qed.

Lemma put_grad_loop (v : Tensor) (ps : list Param) (start : nat) :
  (start + sum_numel ps <= length v)%nat ->
  for_params_list (put_grad_body v) ps start
  = (Ok (start + sum_numel ps)%nat, put_flat ps (skipn start v)).
Proof.
  revert start. induction ps as [|p ps IH]; intros start H.
  - simpl. unfold sum_numel. simpl. rewrite Nat.add_0_r. reflexivity.
  - unfold sum_numel in *. simpl in *.
    unfold put_grad_body at 1. rewrite view_slice by lia.
    rewrite IH by lia. rewrite skipn_skipn.
    rewrite (Nat.add_comm (numel p) start), Nat.add_assoc. reflexivity.
Qed.

Lemma put_grad_flat (v : Tensor) (st : Store) :
  (sum_numel (params st) <= length v)%nat ->
  put_grad v st = (Ok tt, with_params st (put_flat (params st) v)).
Proof.
  intros H. unfold put_grad, bind, for_params.
  rewrite put_grad_loop by lia. reflexivity.
Qed.

(** ** The randomness source and the parameter loops of the paramwise mode *)

Section Randomness.

Variable normal_sample : Sampler.

Lemma randn_length (n : nat) (rng : Generator) :
  length (fst (randn normal_sample n rng)) = n.
Proof. simpl. rewrite length_map, length_seq. reflexivity. Qed.

Lemma draw_like_length (rng : Generator) (ps : list Param) :
  length (concat (draw_like normal_sample rng ps)) = sum_numel ps.
Proof.
  revert rng. induction ps as [|p ps IH]; intros rng; [reflexivity|].
  change (sum_numel (p :: ps)) with (numel p + sum_numel ps)%nat.
  cbn [draw_like].
  destruct (randn normal_sample (numel p) rng) as [z rng'] eqn:E.
  cbn [concat]. rewrite length_app, IH. f_equal.
  change z with (fst (z, rng')). rewrite <- E. apply randn_length.
Qed.

Lemma firstn_draw_like (p : Param) (ps : list Param) (rng : Generator) :
  firstn (numel p) (concat (draw_like normal_sample rng (p :: ps)))
  = fst (randn normal_sample (numel p) rng).
Proof.
  cbn [draw_like].
  pose proof (randn_length (numel p) rng) as Hz.
  destruct (randn normal_sample (numel p) rng) as [z rng'].
  cbn [concat fst] in *. rewrite firstn_app, Hz, Nat.sub_diag.
  cbn [firstn]. rewrite app_nil_r. apply firstn_all2. lia.
Qed.

Lemma skipn_draw_like (p : Param) (ps : list Param) (rng : Generator) :
  skipn (numel p) (concat (draw_like normal_sample rng (p :: ps)))
  = concat (draw_like normal_sample
              (snd (randn normal_sample (numel p) rng)) ps).
Proof.
  cbn [draw_like].
  pose proof (randn_length (numel p) rng) as Hz.
  destruct (randn normal_sample (numel p) rng) as [z rng'].
  cbn [concat fst snd] in *. rewrite skipn_app, Hz, Nat.sub_diag.
  rewrite skipn_all2 by lia. reflexivity.
Qed.

(** The draws depend on the parameters through their sizes only. *)
Lemma draw_like_numel (ps qs : list Param) (rng : Generator) :
  map numel ps = map numel qs ->
  draw_like normal_sample rng ps = draw_like normal_sample rng qs.
Proof.
  revert qs rng. induction ps as [|p ps IH]; intros [|q qs] rng H;
    try discriminate; [reflexivity|].
  injection H as Hp H. cbn [draw_like]. rewrite Hp.
  destruct (randn normal_sample (numel q) rng) as [z rng'].
  f_equal. apply IH. exact H.
Qed.

(** The paramwise loops, on the per-parameter draws laid end to end. *)
Lemma add_randn_loop (alpha : scalar) (ps : list Param) (rng : Generator) :
  for_params_list (add_randn_body normal_sample alpha) ps rng
  = (Ok (after_draws normal_sample rng ps),
     add_flat ps alpha (concat (draw_like normal_sample rng ps))).
Proof.
  revert rng. induction ps as [|p ps IH]; intros rng; [reflexivity|].
  cbn [for_params_list add_flat after_draws].
  rewrite firstn_draw_like, skipn_draw_like.
  unfold add_randn_body at 1.
  destruct (randn normal_sample (numel p) rng) as [z rng'].
  rewrite IH. reflexivity.
Qed.

Lemma perturb_model_paramwise_flat (rng : Generator) (alpha : scalar)
    (st : Store) :
  perturb_model_paramwise normal_sample rng alpha st
  = (Ok tt,
     with_params st
       (add_flat (params st) alpha
          (concat (draw_like normal_sample rng (params st))))).
Proof.
  unfold perturb_model_paramwise, bind, for_params.
  rewrite add_randn_loop. reflexivity.
Qed.

Lemma put_grad_paramwise_first (c : scalar) (ps : list Param)
    (rng : Generator) :
  for_params_list (put_grad_paramwise_body normal_sample 0 c) ps rng
  = (Ok (after_draws normal_sample rng ps),
     put_flat ps (scale c (concat (draw_like normal_sample rng ps)))).
Proof.
  revert rng. induction ps as [|p ps IH]; intros rng; [reflexivity|].
  cbn [for_params_list put_flat after_draws].
  rewrite firstn_scale, skipn_scale, firstn_draw_like, skipn_draw_like.
  unfold put_grad_paramwise_body at 1.
  destruct (randn normal_sample (numel p) rng) as [z rng'].
  cbn [Nat.eqb]. rewrite IH. reflexivity.
Qed.

Lemma put_grad_paramwise_later (i : nat) (c : scalar) (ps : list Param)
    (acc : Tensor) (rng : Generator) :
  i <> 0%nat ->
  (sum_numel ps <= length acc)%nat ->
  for_params_list (put_grad_paramwise_body normal_sample i c)
    (put_flat ps acc) rng
  = (Ok (after_draws normal_sample rng ps),
     put_flat ps
       (tadd acc (scale c (concat (draw_like normal_sample rng ps))))).
Proof.
  intros Hi. apply Nat.eqb_neq in Hi.
  revert acc rng. induction ps as [|p ps IH]; intros acc rng Hlen;
    [reflexivity|].
  change (sum_numel (p :: ps)) with (numel p + sum_numel ps)%nat in *.
  cbn [put_flat for_params_list after_draws].
  unfold tadd. rewrite firstn_axpy, skipn_axpy.
  rewrite firstn_scale, skipn_scale, firstn_draw_like, skipn_draw_like.
  unfold put_grad_paramwise_body at 1.
  change (numel (set_grad p (Some (firstn (numel p) acc)))) with (numel p).
  pose proof (randn_length (numel p) rng) as Hz.
  destruct (randn normal_sample (numel p) rng) as [z rng'].
  cbn [fst snd] in *.
  rewrite Hi. cbn [grad set_grad].
  unfold add_.
  rewrite length_firstn, scale_length, Hz, Nat.min_l, Nat.eqb_refl by lia.
  rewrite IH by (rewrite length_skipn; lia).
  reflexivity.
Qed.

End Randomness.

(** ** Sources whose sequential draws are slices *)

Lemma seq_shift_from (d n : nat) :
  seq d n = map (fun k => (d + k)%nat) (seq 0 n).
Proof.
  revert d. induction n as [|n IH]; intros d; [reflexivity|].
  cbn [seq map]. rewrite Nat.add_0_r. f_equal.
  rewrite (IH (S d)), <- seq_shift, map_map.
  apply map_ext. intros k. lia.
Qed.

Lemma firstn_seq_le (n a m : nat) :
  (n <= m)%nat -> firstn n (seq a m) = seq a n.
Proof.
  revert a m. induction n as [|n IH]; intros a [|m] H;
    try reflexivity; [lia|].
  cbn [seq firstn]. f_equal. apply IH. lia.
Qed.

Lemma firstn_add {A} (a b : nat) (l : list A) :
  firstn (a + b) l = firstn a l ++ firstn b (skipn a l).
Proof.
  revert l. induction a as [|a IH]; intros [|x l]; cbn [Nat.add firstn skipn app];
    try reflexivity.
  - destruct b; reflexivity.
  - f_equal. apply IH.
Qed.

Section StreamSource.

Variable normal_sample : Sampler.
Hypothesis Hslices : sequential_draws_are_slices normal_sample.

Lemma randn_slice (key : Z) (drawn : list nat) (n total : nat) :
  (list_sum drawn + n <= total)%nat ->
  fst (randn normal_sample n {| gen_key := key; gen_drawn := drawn |})
  = firstn n
      (skipn (list_sum drawn)
         (fst (randn normal_sample total (manual_seed key)))).
Proof.
  intros H. cbn [randn fst].
  rewrite skipn_map, firstn_map, skipn_seq, firstn_seq_le by lia.
  cbn [Nat.add].
  rewrite (seq_shift_from (list_sum drawn) n), map_map.
  apply map_ext_in. intros k Hk. apply in_seq in Hk.
  apply Hslices; lia.
Qed.

Lemma draw_like_slices (ps : list Param) (key : Z) (drawn : list nat)
    (total : nat) :
  (list_sum drawn + sum_numel ps <= total)%nat ->
  concat (draw_like normal_sample {| gen_key := key; gen_drawn := drawn |} ps)
  = firstn (sum_numel ps)
      (skipn (list_sum drawn)
         (fst (randn normal_sample total (manual_seed key)))).
Proof.
  revert drawn. induction ps as [|p ps IH]; intros drawn H; [reflexivity|].
  change (sum_numel (p :: ps)) with (numel p + sum_numel ps)%nat in *.
  cbn [draw_like].
  pose proof (randn_slice key drawn (numel p) (total := total)) as Hp.
  destruct (randn normal_sample (numel p)
              {| gen_key := key; gen_drawn := drawn |}) as [z rng'] eqn:E.
  assert (rng' = {| gen_key := key; gen_drawn := drawn ++ [numel p] |})
    as -> by (change rng' with (snd (z, rng')); rewrite <- E; reflexivity).
  cbn [fst concat] in *. rewrite Hp by lia.
  rewrite IH by (rewrite list_sum_app; cbn [list_sum fold_right]; lia).
  rewrite list_sum_app. cbn [list_sum fold_right]. rewrite Nat.add_0_r.
  rewrite (Nat.add_comm (list_sum drawn) (numel p)), <- skipn_skipn.
  symmetry. apply firstn_add.
Qed.

(** The per-parameter draws from a fresh generator, laid end to end, are
    the first samples of the flat draw from it. *)
Lemma draw_like_flat (ps : list Param) (key : Z) (total : nat) :
  (sum_numel ps <= total)%nat ->
  concat (draw_like normal_sample (manual_seed key) ps)
  = firstn (sum_numel ps)
      (fst (randn normal_sample total (manual_seed key))).
Proof.
  intros H. unfold manual_seed at 1.
  rewrite (draw_like_slices ps key [] (total := total)) by (cbn; lia).
  reflexivity.
Qed.

(** For such a source the directions of the two modes are one vector. *)
Lemma sequential_draws_give_flat_draw (ps : list Param) (seed : Z) (i : nat)
    (total : nat) :
  total = sum_numel ps ->
  concat (draw_like normal_sample (get_rng seed i) ps)
  = fst (randn normal_sample total (get_rng seed i)).
Proof.
  intros ->. unfold get_rng.
  rewrite (draw_like_flat ps _ (total := sum_numel ps)) by lia.
  apply firstn_all2. rewrite randn_length. lia.
Qed.

End StreamSource.

Lemma example_sample_slices : sequential_draws_are_slices example_sample.
Proof. intros key drawn n k total _ _. reflexivity. Qed.

(** ** Monad bookkeeping *)

Lemma bind_ok {A B} {m : M A} (k : A -> M B) {st st' : Store} {a : A} :
  m st = (Ok a, st') -> bind m k st = k a st'.
Proof. intros H. unfold bind. rewrite H. reflexivity. Qed.

Lemma bind_raise {A B} {m : M A} (k : A -> M B) {st st' : Store} {e : exn} :
  m st = (Raise e, st') -> bind m k st = (Raise e, st').
Proof. intros H. unfold bind. rewrite H. reflexivity. Qed.

(** * Perturbing and restoring *)

Section Restore.

Variable normal_sample : Sampler.

Lemma perturb_model_twice (v : Tensor) (alpha beta : scalar) (st : Store) :
  (sum_numel (params st) <= length v)%nat ->
  (perturb_model (Some v) alpha ;;; perturb_model (Some v) beta) st
  = (Ok tt, with_params st (add_flat (params st) (alpha + beta) v)).
Proof.
  intros H.
  rewrite (bind_ok _ (perturb_model_flat v alpha st H)).
  rewrite perturb_model_flat
    by (cbn [params with_params]; rewrite add_flat_sum_numel; assumption).
  cbn [params with_params]. rewrite add_flat_add by assumption. reflexivity.
Qed.

Lemma perturb_model_paramwise_twice (rng : Generator) (alpha beta : scalar)
    (st : Store) :
  (perturb_model_paramwise normal_sample rng alpha ;;;
   perturb_model_paramwise normal_sample rng beta) st
  = (Ok tt,
     with_params st
       (add_flat (params st) (alpha + beta)
          (concat (draw_like normal_sample rng (params st))))).
Proof.
  rewrite (bind_ok _ (perturb_model_paramwise_flat normal_sample rng alpha st)).
  rewrite perturb_model_paramwise_flat. cbn [params with_params].
  assert (sum_numel (params st)
          <= length (concat (draw_like normal_sample rng (params st))))%nat
    as Hlen by (rewrite draw_like_length; lia).
  rewrite (draw_like_numel normal_sample
             (add_flat (params st) alpha
                (concat (draw_like normal_sample rng (params st))))
             (params st))
    by (apply add_flat_numel; exact Hlen).
  rewrite add_flat_add by assumption. reflexivity.
Qed.

(** C3. Restore identity: after a perturbation scaled by [alpha], the same
    perturbation scaled by [-alpha] puts every parameter back to its
    original value, and so does the central sequence [+mu], [-2*mu], [+mu].
    In the whole-vector mode the same flat vector [perturb] is used at each
    call; in the paramwise mode each call gets a generator re-derived from
    the same [(seed, index)] and redraws the per-parameter tensors in list
    order.  The whole store, not only the parameter values, is the one
    before. *)
Theorem restore_identity (perturb : Tensor) (st : Store) :
  (sum_numel (params st) <= length perturb)%nat ->
  forall (alpha mu : scalar) (seed : Z) (i : nat),
    (perturb_model (Some perturb) alpha ;;;
     perturb_model (Some perturb) (- alpha)) st = (Ok tt, st)
    /\ (perturb_model (Some perturb) mu ;;;
        perturb_model (Some perturb) (- two * mu) ;;;
        perturb_model (Some perturb) mu) st = (Ok tt, st)
    /\ (perturb_model_paramwise normal_sample (get_rng seed i) alpha ;;;
        perturb_model_paramwise normal_sample (get_rng seed i) (- alpha)) st
       = (Ok tt, st)
    /\ (perturb_model_paramwise normal_sample (get_rng seed i) mu ;;;
        perturb_model_paramwise normal_sample (get_rng seed i) (- two * mu) ;;;
        perturb_model_paramwise normal_sample (get_rng seed i) mu) st
       = (Ok tt, st).
Proof.
  intros Hlen alpha mu seed i.
  set (rng := get_rng seed i).
  assert (sum_numel (params st)
          <= length (concat (draw_like normal_sample rng (params st))))%nat
    as Hdraw by (rewrite draw_like_length; lia).
  repeat split.
  - rewrite perturb_model_twice by assumption.
    replace (alpha + - alpha) with 0 by ring.
    rewrite add_flat_0, with_params_params by assumption. reflexivity.
  - rewrite (bind_ok _ (perturb_model_flat perturb mu st Hlen)).
    rewrite perturb_model_twice
      by (cbn [params with_params]; rewrite add_flat_sum_numel; assumption).
    cbn [params with_params]. rewrite add_flat_add by assumption.
    replace (mu + (- two * mu + mu)) with 0 by (unfold two; ring).
    rewrite add_flat_0 by assumption.
    rewrite with_params_twice, with_params_params. reflexivity.
  - rewrite perturb_model_paramwise_twice.
    replace (alpha + - alpha) with 0 by ring.
    rewrite add_flat_0, with_params_params by assumption. reflexivity.
  - rewrite (bind_ok _ (perturb_model_paramwise_flat normal_sample rng mu st)).
    rewrite perturb_model_paramwise_twice. cbn [params with_params].
    rewrite (draw_like_numel normal_sample
               (add_flat (params st) mu
                  (concat (draw_like normal_sample rng (params st))))
               (params st))
      by (apply add_flat_numel; exact Hdraw).
    rewrite add_flat_add by assumption.
    replace (mu + (- two * mu + mu)) with 0 by (unfold two; ring).
    rewrite add_flat_0 by assumption.
    rewrite with_params_twice, with_params_params. reflexivity.
Qed.

End Restore.

(** * Construction *)

(** C9. Construction raises for each invalid configuration -- a method
    string that is neither "rge-central" nor "rge-forward",
    [paramwise_perturb] together with [normalize_perturbation], and
    [sgd_only_no_optim] without [paramwise_perturb] -- and succeeds for
    every other configuration, keeping the parameters that require a
    gradient and their total element count. *)
Theorem init_raises_exactly_on_invalid_configuration
    (parameters : list Param) (mu0 : scalar) (num_pert0 : nat)
    (method : RandomGradEstimateMethod + string)
    (normalize paramwise sgd_only : bool) :
  let r := init parameters mu0 num_pert0 method normalize paramwise sgd_only in
  (forall s : string,
     method = inr s -> s <> "rge-central"%string -> s <> "rge-forward"%string ->
     r = Raise
           (Exception "Grad estimate method has to be rge-central or rge-forward"))
  /\ (paramwise = true -> normalize = true -> exists e, r = Raise e)
  /\ (sgd_only = true -> paramwise = false -> exists e, r = Raise e)
  /\ ((forall s : string,
         method = inr s -> s = "rge-central"%string \/ s = "rge-forward"%string) ->
      (paramwise = true -> normalize = false) ->
      (sgd_only = true -> paramwise = true) ->
      exists self : RandomGradientEstimator,
        r = Ok (self, filter requires_grad parameters)
        /\ total_dimensions self = sum_numel (filter requires_grad parameters)
        /\ mu self = mu0 /\ num_pert self = num_pert0
        /\ value (grad_estimate_method self)
           = match method with inl m => value m | inr s => s end
        /\ paramwise_perturb self = paramwise
        /\ sgd_only_no_optim self = sgd_only
        /\ normalize_perturbation self = normalize).
Proof.
  intros r. subst r. unfold init. repeat split.
  - intros s -> Hc Hf.
    apply String.eqb_neq in Hc, Hf. cbn [value]. rewrite Hc, Hf. reflexivity.
  - intros -> ->.
    destruct method as [m|s]; [eexists; reflexivity|].
    destruct (String.eqb s (value rge_central)); [eexists; reflexivity|].
    destruct (String.eqb s (value rge_forward)); eexists; reflexivity.
  - intros -> ->.
    destruct method as [m|s].
    + destruct normalize; eexists; reflexivity.
    + destruct (String.eqb s (value rge_central));
        [destruct normalize; eexists; reflexivity|].
      destruct (String.eqb s (value rge_forward));
        destruct normalize; eexists; reflexivity.
  - intros Hm Hp Hs.
    assert (paramwise && negb (Bool.eqb normalize false) = false) as E1.
    { destruct paramwise; [rewrite Hp by reflexivity|]; reflexivity. }
    assert (sgd_only && negb paramwise = false) as E2.
    { destruct sgd_only; [rewrite Hs by reflexivity|]; reflexivity. }
    destruct method as [m|s].
    + rewrite E1, E2. eexists. split; [reflexivity|]. cbn. repeat split.
    + destruct (Hm s eq_refl) as [-> | ->]; cbn [value String.eqb];
        rewrite ?String.eqb_refl; cbn; rewrite E1, E2;
        (eexists; split; [reflexivity|]; cbn; repeat split).
Qed.

(** * The randomness source *)

Section Determinism.

Variable normal_sample : Sampler.
Variable norm : Tensor -> scalar.

(** C4. The generator of a perturbation is seeded with the key
    [seed * (index + 17) + index], and what is drawn from it is a function
    of [(seed, index)] alone: the flat perturbation is the draw of
    [total_dimensions] samples from a generator freshly seeded with that key
    (normalised when the estimator is so configured), and the per-parameter
    tensors of the paramwise mode are the draws made in list order from a
    generator freshly seeded with the same key, whatever the values in the
    store and whatever was drawn before.  (For a source whose sequential
    draws are the slices of one larger draw, a shorter draw is moreover the
    beginning of a longer one.) *)
Theorem get_rng_key_and_determinism (self : RandomGradientEstimator)
    (seed : Z) (index : nat) :
  let key := (seed * (Z.of_nat index + 17) + Z.of_nat index)%Z in
  get_rng seed index = manual_seed key
  /\ generate_perturbation_norm normal_sample norm self (get_rng seed index)
     = (let p := map (normal_sample (manual_seed key) (total_dimensions self))
                   (seq 0 (total_dimensions self)) in
        if normalize_perturbation self then tdiv p (norm p) else p)
  /\ (forall (alpha : scalar) (st : Store),
        perturb_model_paramwise normal_sample (get_rng seed index) alpha st
        = (Ok tt,
           with_params st
             (add_flat (params st) alpha
                (concat (draw_like normal_sample (manual_seed key)
                           (params st))))))
  /\ (sequential_draws_are_slices normal_sample ->
      forall n m : nat,
        fst (randn normal_sample n (get_rng seed index))
        = firstn n (fst (randn normal_sample (n + m) (get_rng seed index)))).
Proof.
  intros key. repeat split.
  - intros alpha st. apply perturb_model_paramwise_flat.
  - intros Hslices n m.
    change (get_rng seed index) with {| gen_key := key; gen_drawn := [] |}.
    rewrite (randn_slice Hslices key [] n (total := n + m)) by (cbn; lia).
    reflexivity.
Qed.

End Determinism.

(** * Revert: the precondition on the optimizer *)

Section RevertPrecondition.

Variable normal_sample : Sampler.
Variable norm : Tensor -> scalar.

(** C8. When the optimizer is not an SGD instance, or its momentum is not
    zero, [revert_model_given_seed_and_grad] raises and leaves the store as
    it found it: no gradient is injected and no parameter is updated.  The
    exception is the one of the optimizer check unless one of the two
    assertions before it fails first. *)
Theorem revert_rejects_unsupported_optimizer (self : RandomGradientEstimator)
    (optimizer : Optimizer) (iteration_seeds : list Z)
    (iteration_grad_scalar : list Tensor) (st : Store) :
  isinstance_SGD optimizer = false \/ defaults_momentum optimizer <> 0 ->
  revert_model_given_seed_and_grad normal_sample norm self optimizer
    iteration_seeds iteration_grad_scalar st
  = (Raise
       (if sgd_only_no_optim self then AssertionError
        else if Nat.eqb (length iteration_seeds) (length iteration_grad_scalar)
        then Exception "Revert only supports SGD without momentum"
        else AssertionError),
     st).
Proof.
  intros H.
  assert (isinstance_SGD optimizer && Qc_eqb (defaults_momentum optimizer) 0
          = false) as E.
  { destruct H as [-> | H]; [reflexivity|].
    apply Qc_eqb_false in H. rewrite H. apply andb_false_r. }
  unfold revert_model_given_seed_and_grad, bind, assert.
  destruct (sgd_only_no_optim self); [reflexivity|]. cbn.
  destruct (Nat.eqb (length iteration_seeds) (length iteration_grad_scalar));
    [|reflexivity].
  cbn. rewrite E. reflexivity.
Qed.

End RevertPrecondition.

(** * The directional gradient estimate *)

Section EstimateLoops.

Variable normal_sample : Sampler.
Variable norm : Tensor -> scalar.
Variables BatchInputs Labels : Type.
Variable self : RandomGradientEstimator.
Variable loss_fn : LossFn BatchInputs Labels.
Variable batch_inputs : BatchInputs.
Variable labels : Labels.
Variable seed : Z.

Lemma eval_loss_at (ps : list Param) (ev : list (list Tensor)) :
  eval_loss loss_fn batch_inputs labels (mkStore ps ev)
  = (Ok (loss_fn batch_inputs labels (map data ps)),
     mkStore ps (ev ++ [map data ps])).
Proof. reflexivity. Qed.

(** The loss evaluations of the direction [d]. *)
Let step_evals (ps : list Param) (d : Tensor) : list (list Tensor) :=
  match grad_estimate_method self with
  | rge_central => [perturbed ps (mu self) d; perturbed ps (- mu self) d]
  | rge_forward => [perturbed ps (mu self) d]
  end.

(** One apply / measure / restore cycle, for any way [pert] of adding a
    multiple of the direction [d] to the parameters: the parameters are
    back at [ps] when the continuation [k] runs. *)
Lemma cycle_restores {B : Type} (pert : scalar -> M unit) (d : Tensor)
    (ps : list Param) (pml : option scalar) (ev : list (list Tensor))
    (k : scalar -> option scalar -> M B) :
  (sum_numel ps <= length d)%nat ->
  (forall alpha beta ev',
     pert alpha (mkStore (add_flat ps beta d) ev')
     = (Ok tt, mkStore (add_flat ps (beta + alpha) d) ev')) ->
  (pert (mu self) ;;;
   pert_plus_loss <- eval_loss loss_fn batch_inputs labels ;;
   pert_minus_loss <-
     match grad_estimate_method self with
     | rge_central =>
         pert (- two * mu self) ;;;
         l <- eval_loss loss_fn batch_inputs labels ;;
         pert (mu self) ;;;
         ret (Some l)
     | rge_forward =>
         pert (- mu self) ;;;
         ret pml
     end ;;
   k pert_plus_loss pert_minus_loss) (mkStore ps ev)
  = k (loss_fn batch_inputs labels (perturbed ps (mu self) d))
      (match grad_estimate_method self with
       | rge_central =>
           Some (loss_fn batch_inputs labels (perturbed ps (- mu self) d))
       | rge_forward => pml
       end)
      (mkStore ps (ev ++ step_evals ps d)).
Proof.
  intros Hlen Hpert.
  assert (forall alpha ev',
            pert alpha (mkStore ps ev')
            = (Ok tt, mkStore (add_flat ps alpha d) ev')) as Hpert0.
  { intros alpha ev'.
    rewrite <- (add_flat_0 ps d Hlen) at 1. rewrite Hpert.
    replace (0 + alpha) with alpha by scalar_ring. reflexivity. }
  unfold step_evals, perturbed.
  rewrite (bind_ok _ (Hpert0 _ _)).
  rewrite (bind_ok _ (eval_loss_at _ _)).
  destruct (grad_estimate_method self).
  - unfold bind at 1.
    rewrite (bind_ok _ (Hpert _ _ _)).
    replace (mu self + - two * mu self) with (- mu self)
      by (unfold two; scalar_ring).
    rewrite (bind_ok _ (eval_loss_at _ _)).
    rewrite (bind_ok _ (Hpert _ _ _)).
    replace (- mu self + mu self) with 0 by scalar_ring.
    rewrite add_flat_0 by assumption.
    unfold ret. rewrite <- app_assoc. reflexivity.
  - unfold bind at 1.
    rewrite (bind_ok _ (Hpert _ _ _)).
    replace (mu self + - mu self) with 0 by scalar_ring.
    rewrite add_flat_0 by assumption.
    reflexivity.
Qed.

Lemma generate_perturbation_norm_length (rng : Generator) :
  length (generate_perturbation_norm normal_sample norm self rng)
  = total_dimensions self.
Proof.
  unfold generate_perturbation_norm.
  destruct (normalize_perturbation self);
    rewrite ?tdiv_length; apply randn_length.
Qed.

Lemma perturb_model_shift (d : Tensor) (ps : list Param) :
  (sum_numel ps <= length d)%nat ->
  forall alpha beta ev',
    perturb_model (Some d) alpha (mkStore (add_flat ps beta d) ev')
    = (Ok tt, mkStore (add_flat ps (beta + alpha) d) ev').
Proof.
  intros Hlen alpha beta ev'.
  rewrite perturb_model_flat
    by (cbn [params]; rewrite add_flat_sum_numel; assumption).
  cbn [params]. rewrite add_flat_add by assumption. reflexivity.
Qed.

Lemma perturb_model_paramwise_shift (rng : Generator) (ps : list Param) :
  forall alpha beta ev',
    perturb_model_paramwise normal_sample rng alpha
      (mkStore (add_flat ps beta (concat (draw_like normal_sample rng ps))) ev')
    = (Ok tt,
       mkStore (add_flat ps (beta + alpha)
                  (concat (draw_like normal_sample rng ps))) ev').
Proof.
  intros alpha beta ev'.
  assert (sum_numel ps
          <= length (concat (draw_like normal_sample rng ps)))%nat
    as Hlen by (rewrite draw_like_length; lia).
  rewrite perturb_model_paramwise_flat. cbn [params].
  rewrite (draw_like_numel normal_sample
             (add_flat ps beta (concat (draw_like normal_sample rng ps))) ps)
    by (apply add_flat_numel; exact Hlen).
  rewrite add_flat_add by assumption. reflexivity.
Qed.

(** The accumulation of the full gradient over the directions [idx]. *)
Let accumulate (direction : nat -> Tensor) (ps : list Param)
    (grad : option Tensor) (idx : list nat) : option Tensor :=
  fold_left (fun grad i =>
    let update :=
      scale (directional_gradient self loss_fn batch_inputs labels direction ps i)
            (direction i) in
    match grad with
    | None => Some update
    | Some g => Some (tadd g update)
    end) idx grad.

(** The loop invariant on the local [pert_minus_loss]: in the forward mode
    it holds the loss at the unperturbed parameters. *)
Let baseline_ok (ps : list Param) (pml : option scalar) : Prop :=
  grad_estimate_method self = rge_forward ->
  pml = Some (loss_fn batch_inputs labels (map data ps)).

Lemma zo_grad_estimate_step_spec (i : nat) (grad : option Tensor)
    (dir_grads : list scalar) (pml : option scalar) (ps : list Param)
    (ev : list (list Tensor)) :
  (sum_numel ps <= total_dimensions self)%nat ->
  baseline_ok ps pml ->
  exists pml',
    baseline_ok ps pml'
    /\ _zo_grad_estimate_step normal_sample norm self batch_inputs labels
         loss_fn seed i (grad, dir_grads, pml) (mkStore ps ev)
       = (Ok (accumulate (flat_direction normal_sample norm self seed) ps
                grad [i],
              dir_grads
              ++ [directional_gradient self loss_fn batch_inputs labels
                    (flat_direction normal_sample norm self seed) ps i],
              pml'),
          mkStore ps
            (ev ++ step_evals ps (flat_direction normal_sample norm self seed i))).
Proof.
  intros Hdims Hpml.
  set (d := flat_direction normal_sample norm self seed i).
  assert (sum_numel ps <= length d)%nat as Hlen
    by (unfold d, flat_direction; rewrite generate_perturbation_norm_length;
        assumption).
  unfold _zo_grad_estimate_step. cbv zeta.
  fold (flat_direction normal_sample norm self seed i). fold d.
  rewrite (cycle_restores (fun alpha => perturb_model (Some d) alpha) d ps
             pml ev _ Hlen (perturb_model_shift d ps Hlen)).
  unfold baseline_ok, accumulate, directional_gradient, L_plus, L_minus, denom,
    denominator_factor in *.
  fold d.
  destruct (grad_estimate_method self).
  - eexists. split; [discriminate|]. cbn [fold_left].
    destruct grad; reflexivity.
  - rewrite (Hpml eq_refl). eexists. split; [reflexivity|].
    cbn [fold_left]. destruct grad; reflexivity.
Qed.

Lemma zo_grad_estimate_paramwise_step_spec (i : nat)
    (dir_grads : list scalar) (pml : option scalar) (ps : list Param)
    (ev : list (list Tensor)) :
  baseline_ok ps pml ->
  exists pml',
    baseline_ok ps pml'
    /\ _zo_grad_estimate_paramwise_step normal_sample self batch_inputs labels
         loss_fn seed i (dir_grads, pml) (mkStore ps ev)
       = (Ok (dir_grads
              ++ [directional_gradient self loss_fn batch_inputs labels
                    (paramwise_direction normal_sample seed ps) ps i],
              pml'),
          mkStore ps
            (ev ++ step_evals ps (paramwise_direction normal_sample seed ps i))).
Proof.
  intros Hpml.
  set (d := paramwise_direction normal_sample seed ps i).
  assert (sum_numel ps <= length d)%nat as Hlen
    by (unfold d, paramwise_direction; rewrite draw_like_length; lia).
  unfold _zo_grad_estimate_paramwise_step. cbv zeta.
  rewrite (cycle_restores
             (fun alpha =>
                perturb_model_paramwise normal_sample (get_rng seed i) alpha)
             d ps pml ev _ Hlen
             (perturb_model_paramwise_shift (get_rng seed i) ps)).
  unfold baseline_ok, directional_gradient, L_plus, L_minus, denom,
    denominator_factor in *.
  fold d.
  destruct (grad_estimate_method self).
  - eexists. split; [discriminate|]. reflexivity.
  - rewrite (Hpml eq_refl). eexists. split; reflexivity.
Qed.

Lemma zo_grad_estimate_loop (ps : list Param) (idx : list nat) :
  (sum_numel ps <= total_dimensions self)%nat ->
  forall grad dir_grads pml ev,
    baseline_ok ps pml ->
    exists pml',
      baseline_ok ps pml'
      /\ for_each idx
           (_zo_grad_estimate_step normal_sample norm self batch_inputs labels
              loss_fn seed)
           (grad, dir_grads, pml) (mkStore ps ev)
         = (Ok (accumulate (flat_direction normal_sample norm self seed) ps
                  grad idx,
                dir_grads
                ++ map (directional_gradient self loss_fn batch_inputs labels
                          (flat_direction normal_sample norm self seed) ps) idx,
                pml'),
            mkStore ps
              (ev ++ flat_map
                       (fun i =>
                          step_evals ps
                            (flat_direction normal_sample norm self seed i))
                       idx)).
Proof.
  intros Hdims. induction idx as [|i idx IH]; intros grad dir_grads pml ev Hpml.
  - exists pml. split; [assumption|]. cbn. rewrite !app_nil_r. reflexivity.
  - destruct (zo_grad_estimate_step_spec i grad dir_grads ev Hdims Hpml)
      as (pml1 & Hpml1 & E1).
    cbn [for_each]. rewrite (bind_ok _ E1).
    destruct (IH (accumulate (flat_direction normal_sample norm self seed) ps
                    grad [i])
                 (dir_grads
                    ++ [directional_gradient self loss_fn batch_inputs labels
                          (flat_direction normal_sample norm self seed) ps i])
                 pml1 (ev ++ step_evals ps
                            (flat_direction normal_sample norm self seed i))
                 Hpml1)
      as (pml2 & Hpml2 & E2).
    exists pml2. split; [assumption|]. rewrite E2.
    cbn [map flat_map]. rewrite <- !app_assoc. reflexivity.
Qed.

Lemma zo_grad_estimate_paramwise_loop (ps : list Param) (idx : list nat) :
  forall dir_grads pml ev,
    baseline_ok ps pml ->
    exists pml',
      baseline_ok ps pml'
      /\ for_each idx
           (_zo_grad_estimate_paramwise_step normal_sample self batch_inputs
              labels loss_fn seed)
           (dir_grads, pml) (mkStore ps ev)
         = (Ok (dir_grads
                ++ map (directional_gradient self loss_fn batch_inputs labels
                          (paramwise_direction normal_sample seed ps) ps) idx,
                pml'),
            mkStore ps
              (ev ++ flat_map
                       (fun i =>
                          step_evals ps
                            (paramwise_direction normal_sample seed ps i))
                       idx)).
Proof.
  induction idx as [|i idx IH]; intros dir_grads pml ev Hpml.
  - exists pml. split; [assumption|]. cbn. rewrite !app_nil_r. reflexivity.
  - destruct (zo_grad_estimate_paramwise_step_spec i dir_grads ev Hpml)
      as (pml1 & Hpml1 & E1).
    cbn [for_each]. rewrite (bind_ok _ E1).
    destruct (IH (dir_grads
                  ++ [directional_gradient self loss_fn batch_inputs labels
                        (paramwise_direction normal_sample seed ps) ps i])
                 pml1 (ev ++ step_evals ps
                            (paramwise_direction normal_sample seed ps i))
                 Hpml1)
      as (pml2 & Hpml2 & E2).
    exists pml2. split; [assumption|]. rewrite E2.
    cbn [map flat_map]. rewrite <- !app_assoc. reflexivity.
Qed.

Lemma initial_minus_loss_spec (ps : list Param) (ev : list (list Tensor)) :
  exists pml,
    baseline_ok ps pml
    /\ initial_minus_loss self loss_fn batch_inputs labels (mkStore ps ev)
       = (Ok pml,
          mkStore ps
            (ev ++ match grad_estimate_method self with
                   | rge_central => []
                   | rge_forward => [map data ps]
                   end)).
Proof.
  unfold initial_minus_loss, baseline_ok.
  destruct (grad_estimate_method self).
  - exists None. split; [discriminate|]. rewrite app_nil_r. reflexivity.
  - eexists. split; [reflexivity|]. reflexivity.
Qed.

Lemma estimate_evals_steps (direction : nat -> Tensor) (ps : list Param)
    (n : nat) :
  match grad_estimate_method self with
  | rge_central => []
  | rge_forward => [map data ps]
  end ++ flat_map (fun i => step_evals ps (direction i)) (seq 0 n)
  = estimate_evals self direction ps n.
Proof.
  unfold estimate_evals, step_evals.
  destruct (grad_estimate_method self); [reflexivity|].
  cbn [app]. f_equal.
Qed.

(** What [_zo_grad_estimate] returns and the store it leaves, from any
    store whose parameters have the element count the estimator was built
    for: the parameters are back at their values and the loss evaluations
    made are recorded; with no direction at all, [grad] stays [None] and
    the final assertion fails. *)
Lemma zo_grad_estimate_spec (ps : list Param) (ev : list (list Tensor)) :
  (sum_numel ps <= total_dimensions self)%nat ->
  _zo_grad_estimate normal_sample norm self batch_inputs labels loss_fn seed
    (mkStore ps ev)
  = (match full_gradient self loss_fn batch_inputs labels
             (flat_direction normal_sample norm self seed) ps (num_pert self)
     with
     | Some g =>
         Ok (g, map (directional_gradient self loss_fn batch_inputs labels
                       (flat_direction normal_sample norm self seed) ps)
                  (seq 0 (num_pert self)))
     | None => Raise AssertionError
     end,
     mkStore ps
       (ev ++ estimate_evals self (flat_direction normal_sample norm self seed)
                ps (num_pert self))).
Proof.
  intros Hdims. unfold _zo_grad_estimate.
  destruct (initial_minus_loss_spec ps ev) as (pml & Hpml & E0).
  rewrite (bind_ok _ E0).
  destruct (zo_grad_estimate_loop (seq 0 (num_pert self)) Hdims None []
              (ev ++ match grad_estimate_method self with
                     | rge_central => []
                     | rge_forward => [map data ps]
                     end) Hpml)
    as (pml' & _ & E).
  rewrite (bind_ok _ E). rewrite <- app_assoc, estimate_evals_steps.
  unfold full_gradient, accumulate.
  match goal with |- context [fold_left ?f ?l None] =>
    destruct (fold_left f l None) end; reflexivity.
Qed.

Lemma zo_grad_estimate_paramwise_spec (ps : list Param)
    (ev : list (list Tensor)) :
  _zo_grad_estimate_paramwise normal_sample self batch_inputs labels loss_fn
    seed (mkStore ps ev)
  = (Ok (map (directional_gradient self loss_fn batch_inputs labels
                (paramwise_direction normal_sample seed ps) ps)
           (seq 0 (num_pert self))),
     mkStore ps
       (ev ++ estimate_evals self (paramwise_direction normal_sample seed ps)
                ps (num_pert self))).
Proof.
  unfold _zo_grad_estimate_paramwise.
  destruct (initial_minus_loss_spec ps ev) as (pml & Hpml & E0).
  rewrite (bind_ok _ E0).
  destruct (zo_grad_estimate_paramwise_loop (seq 0 (num_pert self)) []
              (ev ++ match grad_estimate_method self with
                     | rge_central => []
                     | rge_forward => [map data ps]
                     end) Hpml)
    as (pml' & _ & E).
  rewrite (bind_ok _ E). rewrite <- app_assoc, estimate_evals_steps.
  reflexivity.
Qed.

Lemma full_gradient_some (direction : nat -> Tensor) (ps : list Param)
    (n : nat) :
  n <> 0%nat ->
  exists g,
    full_gradient self loss_fn batch_inputs labels direction ps n = Some g.
Proof.
  intros Hn. unfold full_gradient.
  destruct n as [|n]; [congruence|].
  cbn [seq fold_left].
  match goal with |- context [fold_left ?f ?l (Some ?a)] =>
    assert (forall l' a', exists g, fold_left f l' (Some a') = Some g) as H
  end.
  { induction l' as [|i l' IH]; intros a'; cbn [fold_left]; eauto. }
  match goal with |- context [fold_left ?f ?l (Some ?a)] =>
    destruct (H l a) as [g ->] end.
  eexists. reflexivity.
Qed.

End EstimateLoops.

(** * Gradient injection *)

Lemma enumerate_cons {A} (x : A) (xs : list A) :
  enumerate (x :: xs) = (0%nat, x) :: combine (seq 1 (length xs)) xs.
Proof. reflexivity. Qed.

Lemma in_combine_seq {A} (xs : list A) (start i : nat) (x : A) :
  In (i, x) (combine (seq start (length xs)) xs) -> (start <= i)%nat.
Proof.
  revert start. induction xs as [|y xs IH]; intros start H; [contradiction|].
  cbn in H. destruct H as [H | H].
  - injection H as <- _. lia.
  - apply IH in H. lia.
Qed.

Lemma nth_axpy (a b : Tensor) (alpha : scalar) (j : nat) :
  length a = length b ->
  nth j (axpy a alpha b) 0 = nth j a 0 + alpha * nth j b 0.
Proof.
  revert b j. induction a as [|x a IH]; intros [|y b] [|j] H;
    try discriminate; cbn; try scalar_ring; try reflexivity.
  apply IH. injection H as H. assumption.
Qed.

Lemma nth_scale (c : scalar) (t : Tensor) (j : nat) :
  nth j (scale c t) 0 = c * nth j t 0.
Proof.
  revert j. induction t as [|x t IH]; intros [|j]; cbn;
    try scalar_ring; try reflexivity.
  apply IH.
Qed.

Lemma map_nth_seq (t : Tensor) :
  map (fun j => nth j t 0) (seq 0 (length t)) = t.
Proof.
  induction t as [|x t IH]; [reflexivity|].
  cbn [length seq map nth]. f_equal.
  rewrite <- seq_shift, map_map. exact IH.
Qed.

Section Injection.

Variable direction : nat -> Tensor.
Variable total : nat.
Hypothesis direction_length : forall i, length (direction i) = total.

Lemma add_direction_sum (n : nat) (l : list (nat * scalar)) (acc : Tensor) :
  length acc = total ->
  fold_left (add_direction direction n) l (Some acc)
  = Some (map (fun j =>
                 nth j acc 0
                 + Qc_sum (map (fun x : nat * scalar =>
                                  nth j (direction (fst x)) 0 * snd x
                                  / of_nat n) l))
            (seq 0 total)).
Proof.
  revert acc. induction l as [|[i dg] l IH]; intros acc Hacc.
  - cbn. f_equal. rewrite <- Hacc. rewrite <- (map_nth_seq acc) at 1.
    apply map_ext. intros j. scalar_ring.
  - cbn [fold_left add_direction].
    rewrite IH
      by (unfold tadd; rewrite axpy_length_eq;
          rewrite ?scale_length, ?direction_length; assumption).
    f_equal. apply map_ext. intros j.
    unfold tadd. rewrite nth_axpy
      by (rewrite scale_length, direction_length; assumption).
    rewrite nth_scale. unfold Qc_sum. cbn [map fold_right fst snd].
    unfold Qcdiv. scalar_ring.
Qed.

Lemma add_direction_averaged_sum (dir_grads : Tensor) :
  dir_grads <> [] ->
  fold_left (add_direction direction (length dir_grads)) (enumerate dir_grads) None
  = Some (averaged_sum direction dir_grads total).
Proof.
  destruct dir_grads as [|dg dgs]; [congruence|]. intros _.
  rewrite enumerate_cons. cbn [fold_left add_direction].
  rewrite add_direction_sum by (rewrite scale_length; apply direction_length).
  unfold averaged_sum, averaged_sum_entry. rewrite enumerate_cons.
  f_equal. apply map_ext. intros j.
  rewrite nth_scale. unfold Qc_sum. cbn [map fold_right fst snd].
  unfold Qcdiv. scalar_ring.
Qed.

End Injection.

Lemma offset_S (p : Param) (ps : list Param) (k : nat) :
  offset (p :: ps) (S k) = (numel p + offset ps k)%nat.
Proof. reflexivity. Qed.

Lemma put_flat_nth_error (ps : list Param) (v : Tensor) (k : nat) (p : Param) :
  nth_error ps k = Some p ->
  nth_error (put_flat ps v) k
  = Some (set_grad p (Some (slice v (offset ps k) (offset ps k + numel p)))).
Proof.
  revert v k. induction ps as [|q ps IH]; intros v [|k] H;
    try discriminate.
  - injection H as ->. cbn [put_flat nth_error].
    rewrite slice_firstn_skipn. reflexivity.
  - cbn [put_flat nth_error] in *. rewrite (IH _ _ H).
    rewrite !slice_firstn_skipn, offset_S, skipn_skipn.
    rewrite (Nat.add_comm (offset ps k)). reflexivity.
Qed.

Section InjectionModes.

Variable normal_sample : Sampler.
Variable norm : Tensor -> scalar.
Variable self : RandomGradientEstimator.
Variable seed : Z.

Lemma accumulate_update_averaged_sum (dir_grads : Tensor) :
  dir_grads <> [] ->
  accumulate_update normal_sample norm self seed dir_grads
  = Some (averaged_sum (flat_direction normal_sample norm self seed) dir_grads
            (total_dimensions self)).
Proof.
  intros Hne.
  exact (add_direction_averaged_sum
           (flat_direction normal_sample norm self seed)
           (fun i => generate_perturbation_norm_length normal_sample norm self
                       (get_rng seed i))
           Hne).
Qed.

Lemma averaged_sum_length (direction : nat -> Tensor) (dir_grads : Tensor)
    (total : nat) :
  length (averaged_sum direction dir_grads total) = total.
Proof. unfold averaged_sum. rewrite length_map, length_seq. reflexivity. Qed.

(** The flat vector the paramwise mode never builds: the per-parameter
    draws of the direction [i] over the parameters [ps], end to end. *)
Let flat_draw (ps : list Param) (i : nat) : Tensor :=
  concat (draw_like normal_sample (get_rng seed i) ps).

Lemma put_grad_paramwise_later_turns (n : nat) (ps : list Param)
    (l : list (nat * scalar)) :
  (forall i dg, In (i, dg) l -> i <> 0%nat) ->
  forall (acc : Tensor) (ev : list (list Tensor)),
    length acc = sum_numel ps ->
    exists acc',
      fold_left (add_direction (flat_draw ps) n) l (Some acc) = Some acc'
      /\ for_each l (put_grad_paramwise_step normal_sample seed n) tt
           (mkStore (put_flat ps acc) ev)
         = (Ok tt, mkStore (put_flat ps acc') ev).
Proof.
  induction l as [|[i dg] l IH]; intros Hl acc ev Hacc.
  - exists acc. split; reflexivity.
  - assert (i <> 0%nat) as Hi by (apply (Hl i dg); left; reflexivity).
    cbn [for_each fold_left add_direction].
    unfold put_grad_paramwise_step at 1. cbv zeta.
    unfold bind at 1. unfold bind at 1. unfold for_params. cbn [params].
    rewrite put_grad_paramwise_later by (assumption || lia).
    cbn [with_params loss_evals]. unfold ret at 1.
    apply IH.
    + intros i' dg' H. apply (Hl i' dg'). right. assumption.
    + unfold tadd, flat_draw. rewrite axpy_length_eq;
        rewrite ?scale_length, ?draw_like_length; assumption.
Qed.

(** What the paramwise injection leaves in the store: the gradient slots
    hold the consecutive slices of the averaged sum over the directions,
    and nothing else has changed. *)
Lemma generate_then_put_grad_paramwise_spec (dir_grads : Tensor)
    (ps : list Param) (ev : list (list Tensor)) :
  dir_grads <> [] ->
  generate_then_put_grad_paramwise normal_sample seed dir_grads (mkStore ps ev)
  = (Ok tt,
     mkStore (put_flat ps (averaged_sum (flat_draw ps) dir_grads (sum_numel ps)))
       ev).
Proof.
  intros Hne.
  assert (forall i, length (flat_draw ps i) = sum_numel ps) as Hdraw
    by (intros i; apply draw_like_length).
  pose proof (add_direction_averaged_sum (flat_draw ps) Hdraw Hne) as Hsum.
  destruct dir_grads as [|dg dgs]; [congruence|].
  unfold generate_then_put_grad_paramwise. rewrite enumerate_cons in *.
  cbn [for_each fold_left add_direction] in *.
  unfold put_grad_paramwise_step at 1. cbv zeta.
  unfold bind at 1. unfold bind at 1. unfold for_params. cbn [params].
  rewrite put_grad_paramwise_first. cbn [with_params loss_evals].
  unfold ret at 1.
  destruct (put_grad_paramwise_later_turns (length (dg :: dgs)) ps
              (combine (seq 1 (length dgs)) dgs)) with
    (acc := scale (dg / of_nat (length (dg :: dgs))) (flat_draw ps 0))
    (ev := ev) as (acc' & Hacc' & E).
  - intros i d H. apply in_combine_seq in H. lia.
  - rewrite scale_length. apply Hdraw.
  - etransitivity; [exact E|].
    rewrite Hacc' in Hsum. injection Hsum as ->. reflexivity.
Qed.

End InjectionModes.

Lemma dims_ok_le (self : RandomGradientEstimator) (st : Store) :
  dims_ok self st = true ->
  (sum_numel (params st) <= total_dimensions self)%nat.
Proof. unfold dims_ok. intros H. apply Nat.eqb_eq in H. lia. Qed.

Lemma averaged_sum_ext (d1 d2 : nat -> Tensor) (dir_grads : Tensor)
    (total : nat) :
  (forall i, d1 i = d2 i) ->
  averaged_sum d1 dir_grads total = averaged_sum d2 dir_grads total.
Proof.
  intros H. unfold averaged_sum, averaged_sum_entry.
  apply map_ext. intros j. f_equal. apply map_ext. intros [i dg].
  cbn [fst snd]. rewrite H. reflexivity.
Qed.

Lemma averaged_sum_ext_in (d1 d2 : nat -> Tensor) (dir_grads : Tensor)
    (total : nat) :
  (forall i, (i < length dir_grads)%nat -> d1 i = d2 i) ->
  averaged_sum d1 dir_grads total = averaged_sum d2 dir_grads total.
Proof.
  intros H. unfold averaged_sum, averaged_sum_entry.
  apply map_ext. intros j. f_equal. apply map_ext_in. intros [i dg] Hin.
  cbn [fst snd]. unfold enumerate in Hin.
  apply in_combine_l, in_seq in Hin.
  rewrite H by lia. reflexivity.
Qed.

Section InjectionClaims.

Variable normal_sample : Sampler.
Variable norm : Tensor -> scalar.
Variable self : RandomGradientEstimator.
Variable seed : Z.

(** C5. Whole-vector injection: [generate_then_put_grad] regenerates the
    direction [i] from the generator of [(seed, i)], forms the flat vector
    whose entries are the sums over [i] of
    [direction_i * dir_grads[i] / num_pert], [num_pert] being the length of
    [dir_grads], and writes its consecutive parameter-sized slices, in list
    order, to the gradient slots, whatever they held; the parameter values
    are untouched. *)
Theorem generate_then_put_grad_writes_averaged_sum (dir_grads : Tensor)
    (st : Store) :
  dims_ok self st = true ->
  dir_grads <> [] ->
  let direction := fun i =>
    generate_perturbation_norm normal_sample norm self (get_rng seed i) in
  let update_grad :=
    map (fun j =>
           Qc_sum (map (fun x : nat * scalar =>
                          nth j (direction (fst x)) 0 * snd x
                          / of_nat (length dir_grads))
                     (enumerate dir_grads)))
        (seq 0 (total_dimensions self)) in
  exists ps',
    generate_then_put_grad normal_sample norm self seed dir_grads st
    = (Ok tt, with_params st ps')
    /\ length ps' = length (params st)
    /\ forall k p,
         nth_error (params st) k = Some p ->
         nth_error ps' k
         = Some {| requires_grad := requires_grad p;
                   data := data p;
                   grad := Some (slice update_grad (offset (params st) k)
                                   (offset (params st) k + numel p)) |}.
Proof.
  intros Hdims Hne direction update_grad.
  exists (put_flat (params st) update_grad).
  assert (update_grad
          = averaged_sum (flat_direction normal_sample norm self seed)
              dir_grads (total_dimensions self)) as E by reflexivity.
  split; [|split].
  - unfold generate_then_put_grad.
    rewrite accumulate_update_averaged_sum by assumption. rewrite <- E.
    apply put_grad_flat. rewrite E, averaged_sum_length.
    apply dims_ok_le. assumption.
  - rewrite <- (length_map numel), put_flat_numel, length_map. reflexivity.
  - intros k p H. apply put_flat_nth_error. assumption.
Qed.


End InjectionClaims.

(** * What the estimate functions return *)

Section EstimateClaims.

Variable normal_sample : Sampler.
Variable norm : Tensor -> scalar.
Variables BatchInputs Labels : Type.
Variable self : RandomGradientEstimator.
Variable loss_fn : LossFn BatchInputs Labels.
Variable batch_inputs : BatchInputs.
Variable labels : Labels.
Variable seed : Z.

Lemma full_gradient_flat_some (ps : list Param) :
  num_pert self <> 0%nat ->
  exists g,
    full_gradient self loss_fn batch_inputs labels
      (flat_direction normal_sample norm self seed) ps (num_pert self) = Some g.
Proof. apply full_gradient_some. Qed.

Lemma nth_error_map_seq {A} (f : nat -> A) (n i : nat) :
  (i < n)%nat -> nth_error (map f (seq 0 n)) i = Some (f i).
Proof.
  intros H. rewrite nth_error_map.
  rewrite (nth_error_nth' (seq 0 n) 0%nat) by (rewrite length_seq; exact H).
  rewrite seq_nth by exact H. reflexivity.
Qed.

(** C2. For every index [i] below [num_pert], the directional gradient the
    estimate computes is [(L_plus - L_minus) / (mu * denom)], with [L_plus]
    the loss at the parameters plus [mu] times the direction [i], [denom]
    2 in the central mode and 1 in the forward mode, and, in the central
    mode, [L_minus] the loss at the parameters minus [mu] times the
    direction [i] (in the forward mode, the loss at the parameters of the
    call).  Both [_zo_grad_estimate], on the flat directions, and
    [_zo_grad_estimate_paramwise], on the per-parameter draws, return one
    such value per index, in the order of the indices, evaluate the loss at
    exactly those parameter values and leave the parameters where they
    found them. *)
Theorem directional_gradient_formula (st : Store) (i : nat) :
  (i < num_pert self)%nat ->
  let ps := params st in
  let estimate := fun (direction : nat -> Tensor) (i : nat) =>
    let L_plus :=
      loss_fn batch_inputs labels
        (map data (add_flat ps (mu self) (direction i))) in
    let L_minus :=
      match grad_estimate_method self with
      | rge_central =>
          loss_fn batch_inputs labels
            (map data (add_flat ps (- mu self) (direction i)))
      | rge_forward => loss_fn batch_inputs labels (map data ps)
      end in
    let denom :=
      match grad_estimate_method self with
      | rge_central => 1 + 1
      | rge_forward => 1
      end in
    (L_plus - L_minus) / (mu self * denom) in
  let flat := fun i =>
    generate_perturbation_norm normal_sample norm self (get_rng seed i) in
  let paramwise := fun i =>
    concat (draw_like normal_sample (get_rng seed i) ps) in
  (dims_ok self st = true ->
   exists grad dir_grads,
     _zo_grad_estimate normal_sample norm self batch_inputs labels loss_fn
       seed st
     = (Ok (grad, dir_grads),
        {| params := ps;
           loss_evals :=
             loss_evals st ++ estimate_evals self flat ps (num_pert self) |})
     /\ dir_grads = map (estimate flat) (seq 0 (num_pert self))
     /\ nth_error dir_grads i = Some (estimate flat i))
  /\ (exists dir_grads,
        _zo_grad_estimate_paramwise normal_sample self batch_inputs labels
          loss_fn seed st
        = (Ok dir_grads,
           {| params := ps;
              loss_evals :=
                loss_evals st
                ++ estimate_evals self paramwise ps (num_pert self) |})
        /\ dir_grads = map (estimate paramwise) (seq 0 (num_pert self))
        /\ nth_error dir_grads i = Some (estimate paramwise i)).
Proof.
  intros Hi ps estimate flat paramwise.
  subst ps. destruct st as [ps ev]. cbn [params loss_evals] in *. split.
  - intros Hdims. apply dims_ok_le in Hdims. cbn [params] in Hdims.
    rewrite zo_grad_estimate_spec by assumption.
    destruct (full_gradient_flat_some ps) as [g ->]; [lia|].
    exists g. eexists. split; [reflexivity|]. split; [reflexivity|].
    exact (nth_error_map_seq (estimate flat) Hi).
  - rewrite zo_grad_estimate_paramwise_spec.
    eexists. split; [reflexivity|]. split; [reflexivity|].
    exact (nth_error_map_seq (estimate paramwise) Hi).
Qed.

(** C7. In the forward mode the baseline [L_minus] is the loss evaluated
    once, at the parameters of the call and before any perturbation, and
    that value is the [L_minus] of every direction: the loss evaluations of
    one estimate are that one followed by one evaluation per direction, at
    the parameters plus [mu] times the direction, and nothing else.  This
    holds for [_zo_grad_estimate] and for [_zo_grad_estimate_paramwise]. *)
Theorem forward_baseline_is_evaluated_once (st : Store) :
  grad_estimate_method self = rge_forward ->
  let ps := params st in
  let baseline := loss_fn batch_inputs labels (map data ps) in
  let plus := fun (direction : nat -> Tensor) (i : nat) =>
    map data (add_flat ps (mu self) (direction i)) in
  let flat := fun i =>
    generate_perturbation_norm normal_sample norm self (get_rng seed i) in
  let paramwise := fun i =>
    concat (draw_like normal_sample (get_rng seed i) ps) in
  (dims_ok self st = true ->
   snd (_zo_grad_estimate normal_sample norm self batch_inputs labels loss_fn
          seed st)
   = {| params := ps;
        loss_evals :=
          loss_evals st
          ++ map data ps :: map (plus flat) (seq 0 (num_pert self)) |}
   /\ (num_pert self <> 0%nat ->
       exists grad,
         fst (_zo_grad_estimate normal_sample norm self batch_inputs labels
                loss_fn seed st)
         = Ok (grad,
               map (fun i =>
                      (loss_fn batch_inputs labels (plus flat i) - baseline)
                      / (mu self * 1))
                 (seq 0 (num_pert self)))))
  /\ _zo_grad_estimate_paramwise normal_sample self batch_inputs labels
       loss_fn seed st
     = (Ok (map (fun i =>
                   (loss_fn batch_inputs labels (plus paramwise i) - baseline)
                   / (mu self * 1))
              (seq 0 (num_pert self))),
        {| params := ps;
           loss_evals :=
             loss_evals st
             ++ map data ps :: map (plus paramwise) (seq 0 (num_pert self)) |}).
Proof.
  intros Hm ps baseline plus flat paramwise.
  subst ps baseline plus. destruct st as [ps ev]. cbn [params loss_evals].
  split.
  - intros Hdims. apply dims_ok_le in Hdims. cbn [params] in Hdims.
    rewrite zo_grad_estimate_spec by assumption. cbn [fst snd].
    unfold estimate_evals, directional_gradient, L_plus, L_minus, denom,
      perturbed.
    rewrite Hm. split; [reflexivity|].
    intros Hn. destruct (full_gradient_flat_some ps Hn) as [g ->].
    exists g. reflexivity.
  - rewrite zo_grad_estimate_paramwise_spec.
    unfold estimate_evals, directional_gradient, L_plus, L_minus, denom,
      perturbed.
    rewrite Hm. reflexivity.
Qed.

End EstimateClaims.

(** * [compute_grad] and the gradient slots *)

Section ComputeGrad.

Variable normal_sample : Sampler.
Variable norm : Tensor -> scalar.
Variables BatchInputs Labels : Type.
Variable self : RandomGradientEstimator.
Variable loss_fn : LossFn BatchInputs Labels.
Variable batch_inputs : BatchInputs.
Variable labels : Labels.
Variable seed : Z.

Lemma map_seq_not_nil {A} (f : nat -> A) (n : nat) :
  n <> 0%nat -> map f (seq 0 n) <> [].
Proof. destruct n; [congruence | discriminate]. Qed.

(** C10. In the whole-vector mode [compute_grad] with [is_put = False]
    returns the directional gradients and leaves every parameter, its
    gradient slot included, as it was.  In the paramwise mode the value of
    [is_put] makes no difference, and the call writes to the gradient slot
    of every parameter its slice of the gradient reconstructed from the
    directional gradients it returns.  (Both need at least one direction:
    with [num_pert = 0] the whole-vector estimate raises and the paramwise
    injection has nothing to write.) *)
Theorem compute_grad_gradient_slots (st : Store) :
  let ps := params st in
  (paramwise_perturb self = false ->
   dims_ok self st = true ->
   params (snd (compute_grad normal_sample norm self batch_inputs labels
                  loss_fn seed false st)) = ps
   /\ (num_pert self <> 0%nat ->
       fst (compute_grad normal_sample norm self batch_inputs labels loss_fn
              seed false st)
       = Ok (map (directional_gradient self loss_fn batch_inputs labels
                    (flat_direction normal_sample norm self seed) ps)
               (seq 0 (num_pert self)))))
  /\ (paramwise_perturb self = true ->
      (forall is_put is_put' : bool,
         compute_grad normal_sample norm self batch_inputs labels loss_fn seed
           is_put st
         = compute_grad normal_sample norm self batch_inputs labels loss_fn
             seed is_put' st)
      /\ (num_pert self <> 0%nat ->
          forall is_put : bool,
            let dir_grads :=
              map (directional_gradient self loss_fn batch_inputs labels
                     (paramwise_direction normal_sample seed ps) ps)
                (seq 0 (num_pert self)) in
            let update_grad :=
              averaged_sum (paramwise_direction normal_sample seed ps)
                dir_grads (sum_numel ps) in
            fst (compute_grad normal_sample norm self batch_inputs labels
                   loss_fn seed is_put st) = Ok dir_grads
            /\ forall k p,
                 nth_error ps k = Some p ->
                 nth_error
                   (params (snd (compute_grad normal_sample norm self
                                   batch_inputs labels loss_fn seed is_put st)))
                   k
                 = Some {| requires_grad := requires_grad p;
                           data := data p;
                           grad := Some (slice update_grad (offset ps k)
                                           (offset ps k + numel p)) |})).
Proof.
  intros ps. subst ps. destruct st as [ps ev]. cbn [params]. split.
  - intros Hmode Hdims. apply dims_ok_le in Hdims. cbn [params] in Hdims.
    unfold compute_grad. rewrite Hmode. cbn [negb].
    pose proof (zo_grad_estimate_spec normal_sample norm self loss_fn
                  batch_inputs labels seed ps ev Hdims) as E.
    destruct (full_gradient self loss_fn batch_inputs labels
                (flat_direction normal_sample norm self seed) ps
                (num_pert self)) as [g|] eqn:Eg.
    + rewrite (bind_ok _ E). split; [reflexivity|]. intros _. reflexivity.
    + rewrite (bind_raise _ E). split; [reflexivity|]. intros Hn.
      destruct (full_gradient_some self loss_fn batch_inputs labels
                  (flat_direction normal_sample norm self seed) ps Hn)
        as [g Hg].
      congruence.
  - intros Hmode. split.
    + intros is_put is_put'. unfold compute_grad. rewrite Hmode. reflexivity.
    + intros Hn is_put.
      set (dir_grads :=
             map (directional_gradient self loss_fn batch_inputs labels
                    (paramwise_direction normal_sample seed ps) ps)
               (seq 0 (num_pert self))).
      unfold compute_grad. rewrite Hmode. cbn [negb].
      rewrite (bind_ok _ (zo_grad_estimate_paramwise_spec normal_sample self
                            loss_fn batch_inputs labels seed ps ev)).
      fold dir_grads.
      assert (dir_grads <> []) as Hne
        by (apply map_seq_not_nil; assumption).
      rewrite (bind_ok _ (generate_then_put_grad_paramwise_spec normal_sample
                            seed ps _ Hne)).
      cbn [fst snd params ret]. split; [reflexivity|].
      intros k p H.
      rewrite (put_flat_nth_error _ _ _ H). reflexivity.
Qed.

End ComputeGrad.

(** * Update and revert *)

Lemma revert_tensor_decay (lr wd : scalar) (x g : Tensor) :
  length x = length g ->
  1 - lr * wd <> 0 ->
  scale (1 / (1 - lr * wd)) (axpy (axpy x (- lr) (axpy g wd x)) lr g) = x.
Proof.
  intros Hlen Hne. revert g Hlen.
  induction x as [|a x IH]; intros [|b g] Hlen; try discriminate;
    [reflexivity|].
  injection Hlen as Hlen. cbn [axpy scale map].
  fold (scale (1 / (1 - lr * wd))
          (axpy (axpy x (- lr) (axpy g wd x)) lr g)).
  rewrite IH by assumption. f_equal.
  unfold scalar in *. field. assumption.
Qed.

Lemma revert_tensor_plain (lr : scalar) (x g : Tensor) :
  length x = length g -> axpy (axpy x (- lr) g) lr g = x.
Proof.
  intros Hlen. rewrite axpy_axpy.
  replace (- lr + lr) with 0 by scalar_ring. apply axpy_0. assumption.
Qed.

(** The values [revert_param] leaves are those before the SGD step. *)
Lemma revert_param_undoes_sgd_step (lr wd : scalar) (p : Param) (g : Tensor) :
  length g = numel p ->
  0 <= wd ->
  1 - lr * wd <> 0 ->
  let p1 := sgd_step_param lr wd (set_grad p (Some g)) in
  numel p1 = numel p
  /\ revert_param lr wd (set_grad p1 (Some g)) tt
     = (set_grad p (Some g), Ok tt).
Proof.
  intros Hg Hwd Hne p1. unfold numel in Hg.
  assert (data p1
          = axpy (data p) (- lr)
              (if Qc_eqb wd 0 then g else axpy g wd (data p))) as Hp1
    by reflexivity.
  assert (length (data p1) = length (data p)) as Hlen.
  { rewrite Hp1. apply axpy_length_eq.
    destruct (Qc_eqb wd 0); rewrite ?axpy_length_eq; congruence. }
  split; [exact Hlen|].
  unfold revert_param. cbn [grad set_grad data].
  unfold add_. rewrite Hlen, Hg, Nat.eqb_refl.
  cbn [set_data data requires_grad grad].
  destruct (Qc_ltb 0 wd) eqn:Hlt.
  - apply Qc_ltb_true in Hlt.
    assert (Qc_eqb wd 0 = false) as Hz.
    { apply Qc_eqb_false. intros ->. apply Qclt_not_eq in Hlt. congruence. }
    apply Qc_eqb_false in Hne. rewrite Hne.
    unfold set_grad. cbn [requires_grad data grad].
    rewrite Hp1, Hz, revert_tensor_decay;
      [reflexivity | congruence | apply Qc_eqb_false; assumption].
  - apply Qc_ltb_false_le in Hlt; [|assumption]. subst wd.
    unfold set_grad. cbn [requires_grad data grad].
    rewrite Hp1. change (Qc_eqb 0 0) with true. cbv iota.
    rewrite revert_tensor_plain by congruence. reflexivity.
Qed.

Lemma revert_undoes_sgd_step (lr wd : scalar) (ps : list Param) (G : Tensor) :
  (sum_numel ps <= length G)%nat ->
  0 <= wd ->
  1 - lr * wd <> 0 ->
  let ps1 := sgd_step lr wd (put_flat ps G) in
  map numel ps1 = map numel ps
  /\ for_params_list (revert_param lr wd) (put_flat ps1 G) tt
     = (Ok tt, put_flat ps G).
Proof.
  intros Hlen Hwd Hne. revert G Hlen.
  induction ps as [|p ps IH]; intros G Hlen; [split; reflexivity|].
  change (sum_numel (p :: ps)) with (numel p + sum_numel ps)%nat in Hlen.
  assert (length (firstn (numel p) G) = numel p) as Hg
    by (rewrite length_firstn; lia).
  destruct (@revert_param_undoes_sgd_step lr wd p (firstn (numel p) G)
              Hg Hwd Hne)
    as [Hn1 Hrev].
  destruct (IH (skipn (numel p) G)) as [Hns Hrest];
    [rewrite length_skipn; lia|].
  cbn zeta in *. cbn [put_flat sgd_step map].
  fold (sgd_step lr wd (put_flat ps (skipn (numel p) G))).
  unfold Tensor in *.
  split.
  - f_equal; [exact Hn1 | exact Hns].
  - cbn [put_flat for_params_list]. rewrite Hn1, Hrev, Hrest. reflexivity.
Qed.

Lemma combine_app {A B} (a a' : list A) (b b' : list B) :
  length a = length b ->
  combine (a ++ a') (b ++ b') = combine a b ++ combine a' b'.
Proof.
  revert b. induction a as [|x a IH]; intros [|y b] H; try discriminate;
    [reflexivity|].
  cbn. rewrite IH by (injection H as H; exact H). reflexivity.
Qed.

Lemma combine_rev {A B} (a : list A) (b : list B) :
  length a = length b -> combine (rev a) (rev b) = rev (combine a b).
Proof.
  revert b. induction a as [|x a IH]; intros [|y b] H; try discriminate;
    [reflexivity|].
  injection H as H. cbn [rev combine].
  rewrite combine_app by (rewrite !length_rev; exact H).
  rewrite IH by exact H. reflexivity.
Qed.

Lemma for_each_app {A S} (l1 l2 : list A) (body : A -> S -> M S) (s : S)
    (st : Store) :
  for_each (l1 ++ l2) body s st
  = (s' <- for_each l1 body s ;; for_each l2 body s') st.
Proof.
  revert s st. induction l1 as [|x l1 IH]; intros s st; [reflexivity|].
  cbn [app for_each]. unfold bind.
  destruct (body x s st) as [[s'|e] st']; [|reflexivity].
  rewrite IH. reflexivity.
Qed.

Section UpdateRevert.

Variable normal_sample : Sampler.
Variable norm : Tensor -> scalar.
Variable self : RandomGradientEstimator.
Variables lr wd : scalar.

Hypothesis wd_nonneg : 0 <= wd.
Hypothesis decay_invertible : 1 - lr * wd <> 0.

(** The gradient injected for the recorded step [x] into the parameters
    [ps]. *)
Let injected (ps : list Param) (x : Z * Tensor) : Tensor :=
  if paramwise_perturb self
  then averaged_sum (paramwise_direction normal_sample (fst x) ps) (snd x)
         (sum_numel ps)
  else averaged_sum (flat_direction normal_sample norm self (fst x)) (snd x)
         (total_dimensions self).

(** The parameters with their gradient slots emptied. *)
Let erase (ps : list Param) : list Param :=
  map (fun p => set_grad p None) ps.

(** The parameters after the update of the recorded step [x]. *)
Let updated (ps : list Param) (x : Z * Tensor) : list Param :=
  sgd_step lr wd (put_flat ps (injected ps x)).

Lemma injected_length (ps : list Param) (x : Z * Tensor) :
  total_dimensions self = sum_numel ps ->
  length (injected ps x) = sum_numel ps.
Proof.
  intros H. unfold injected.
  destruct (paramwise_perturb self); rewrite averaged_sum_length; auto.
Qed.

Lemma injected_numel (ps qs : list Param) (x : Z * Tensor) :
  map numel qs = map numel ps -> injected qs x = injected ps x.
Proof.
  intros H. unfold injected, paramwise_direction, sum_numel. rewrite H.
  destruct (paramwise_perturb self); [|reflexivity].
  apply averaged_sum_ext. intros i.
  rewrite (draw_like_numel normal_sample qs ps) by exact H. reflexivity.
Qed.

Lemma inject_spec (x : Z * Tensor) (ps : list Param) (ev : list (list Tensor)) :
  snd x <> [] ->
  total_dimensions self = sum_numel ps ->
  (if paramwise_perturb self
   then generate_then_put_grad_paramwise normal_sample (fst x) (snd x)
   else generate_then_put_grad normal_sample norm self (fst x) (snd x))
    (mkStore ps ev)
  = (Ok tt, mkStore (put_flat ps (injected ps x)) ev).
Proof.
  intros Hne Hdims. unfold injected. destruct (paramwise_perturb self).
  - apply generate_then_put_grad_paramwise_spec. assumption.
  - unfold generate_then_put_grad.
    rewrite accumulate_update_averaged_sum by assumption.
    rewrite put_grad_flat
      by (rewrite averaged_sum_length; cbn [params]; lia).
    reflexivity.
Qed.

Lemma erase_put_flat (ps : list Param) (G : Tensor) :
  erase (put_flat ps G) = erase ps.
Proof.
  revert G. induction ps as [|p ps IH]; intros G; [reflexivity|].
  cbn. f_equal. apply IH.
Qed.

Lemma erase_numel (ps qs : list Param) :
  erase qs = erase ps -> map numel qs = map numel ps.
Proof.
  intros H. apply (f_equal (map numel)) in H.
  unfold erase in H. rewrite !map_map in H. exact H.
Qed.

Lemma erase_data (ps qs : list Param) :
  erase qs = erase ps -> map data qs = map data ps.
Proof.
  intros H. apply (f_equal (map data)) in H.
  unfold erase in H. rewrite !map_map in H. exact H.
Qed.

Lemma put_flat_erase (ps qs : list Param) (G : Tensor) :
  erase qs = erase ps -> put_flat qs G = put_flat ps G.
Proof.
  revert qs G. induction ps as [|p ps IH]; intros [|q qs] G H;
    try discriminate; [reflexivity|].
  cbn in H. injection H as Hr Hd Hps. cbn [put_flat].
  assert (numel q = numel p) as Hn by (unfold numel; congruence).
  rewrite Hn, (IH qs) by assumption.
  unfold set_grad. rewrite Hr, Hd. reflexivity.
Qed.

Lemma updated_numel (ps : list Param) (x : Z * Tensor) :
  total_dimensions self = sum_numel ps ->
  map numel (updated ps x) = map numel ps.
Proof.
  intros Hdims. unfold updated.
  apply revert_undoes_sgd_step; try assumption.
  rewrite injected_length by assumption. lia.
Qed.

Lemma update_model_step_spec (x : Z * Tensor) (ps : list Param)
    (ev : list (list Tensor)) :
  snd x <> [] ->
  total_dimensions self = sum_numel ps ->
  update_model_step normal_sample norm self (SGD lr wd) x tt (mkStore ps ev)
  = (Ok tt, mkStore (updated ps x) ev).
Proof.
  intros Hne Hdims. unfold update_model_step. destruct x as [seed dgs].
  rewrite (bind_ok _ (inject_spec (seed, dgs) ps ev Hne Hdims)).
  reflexivity.
Qed.

Lemma revert_model_step_spec (x : Z * Tensor) (ps qs : list Param)
    (ev : list (list Tensor)) :
  snd x <> [] ->
  total_dimensions self = sum_numel ps ->
  erase qs = erase (updated ps x) ->
  revert_model_step normal_sample norm self lr wd x tt (mkStore qs ev)
  = (Ok tt, mkStore (put_flat ps (injected ps x)) ev).
Proof.
  intros Hne Hdims Hqs.
  assert (map numel qs = map numel ps) as Hnumel
    by (rewrite (erase_numel _ _ Hqs), updated_numel by assumption;
        reflexivity).
  assert (sum_numel qs = sum_numel ps) as Hsum
    by (unfold sum_numel; rewrite Hnumel; reflexivity).
  unfold revert_model_step. destruct x as [seed dgs].
  rewrite (bind_ok _ (inject_spec (seed, dgs) qs ev Hne
                        (eq_trans Hdims (eq_sym Hsum)))).
  unfold for_params. cbn [params].
  rewrite (injected_numel _ _ (seed, dgs) Hnumel).
  rewrite (put_flat_erase _ _ _ Hqs). unfold updated.
  destruct (@revert_undoes_sgd_step lr wd ps
              (injected ps (seed, dgs)))
    as [_ ->]; try assumption.
  - rewrite injected_length by assumption. lia.
  - reflexivity.
Qed.

Lemma update_model_loop (l : list (Z * Tensor)) :
  Forall (fun x => snd x <> []) l ->
  forall (ps : list Param) (ev : list (list Tensor)),
    total_dimensions self = sum_numel ps ->
    for_each l (update_model_step normal_sample norm self (SGD lr wd)) tt
      (mkStore ps ev)
    = (Ok tt, mkStore (fold_left updated l ps) ev).
Proof.
  induction 1 as [|x l Hx Hl IH]; intros ps ev Hdims; [reflexivity|].
  cbn [for_each fold_left].
  rewrite (bind_ok _ (update_model_step_spec x ps ev Hx Hdims)).
  apply IH. unfold sum_numel. rewrite updated_numel by assumption. exact Hdims.
Qed.

Lemma revert_model_loop (l : list (Z * Tensor)) :
  Forall (fun x => snd x <> []) l ->
  forall (ps qs : list Param) (ev : list (list Tensor)),
    total_dimensions self = sum_numel ps ->
    erase qs = erase (fold_left updated l ps) ->
    exists qs',
      for_each (rev l) (revert_model_step normal_sample norm self lr wd) tt
        (mkStore qs ev)
      = (Ok tt, mkStore qs' ev)
      /\ erase qs' = erase ps.
Proof.
  induction 1 as [|x l Hx Hl IH]; intros ps qs ev Hdims Hqs.
  - exists qs. split; [reflexivity | exact Hqs].
  - cbn [fold_left] in Hqs. cbn [rev]. rewrite for_each_app.
    destruct (IH (updated ps x) qs ev) as (qs1 & E1 & Hqs1).
    + unfold sum_numel. rewrite updated_numel by assumption. exact Hdims.
    + exact Hqs.
    + rewrite (bind_ok _ E1). cbn [for_each].
      rewrite (bind_ok _ (revert_model_step_spec x ps qs1 ev Hx Hdims Hqs1)).
      eexists. split; [reflexivity|]. apply erase_put_flat.
Qed.

End UpdateRevert.

(** The step of the modelled optimizer is the forward step of plain
    gradient descent with weight decay: every entry [x] of a parameter
    becomes [x * (1 - lr * wd) - lr * g], with [g] the entry of the
    gradient slot. *)
Lemma sgd_step_is_decayed_descent (lr wd : scalar) (p : Param) (g : Tensor)
    (j : nat) :
  length g = numel p ->
  nth j (data (sgd_step_param lr wd (set_grad p (Some g)))) 0
  = nth j (data p) 0 * (1 - lr * wd) - lr * nth j g 0.
Proof.
  intros Hg. unfold numel in Hg. unfold sgd_step_param.
  cbn [grad set_grad data set_data].
  destruct (Qc_eqb wd 0) eqn:Hz.
  - apply Qc_eqb_true in Hz. subst wd.
    rewrite nth_axpy by congruence. scalar_ring.
  - rewrite nth_axpy by (rewrite axpy_length_eq; congruence).
    rewrite nth_axpy by congruence. scalar_ring.
Qed.

(** C1. Update / revert inverse law.  For an estimator on the optimizer
    path, the optimizer plain SGD with zero momentum, learning rate [lr]
    and weight decay [wd] (not negative, and with [lr * wd <> 1], so that
    the decay factor [1 - lr * wd] can be divided by), and any recorded
    steps with at least one directional gradient each: the update runs to
    its end, the revert of the same steps, latest first, runs to its end,
    and every parameter then has the value it had before the update, in
    exact arithmetic.  A single recorded step is the case of one-element
    lists, which are their own reversals. *)
Theorem revert_after_update_restores_parameters
    (normal_sample : Sampler) (norm : Tensor -> scalar)
    (self : RandomGradientEstimator) (lr wd : scalar)
    (iteration_seeds : list Z) (iteration_grad_scalar : list Tensor)
    (st : Store) :
  sgd_only_no_optim self = false ->
  dims_ok self st = true ->
  0 <= wd ->
  1 - lr * wd <> 0 ->
  length iteration_seeds = length iteration_grad_scalar ->
  Forall (fun dir_grads => dir_grads <> []) iteration_grad_scalar ->
  exists st1 st2,
    update_model_given_seed_and_grad normal_sample norm self (SGD lr wd)
      iteration_seeds iteration_grad_scalar st
    = (Ok tt, st1)
    /\ revert_model_given_seed_and_grad normal_sample norm self (SGD lr wd)
         (rev iteration_seeds) (rev iteration_grad_scalar) st1
       = (Ok tt, st2)
    /\ map data (params st2) = map data (params st)
    /\ loss_evals st2 = loss_evals st.
Proof.
  intros Hopt Hdims Hwd Hne Hlen Hgrads.
  assert (total_dimensions self = sum_numel (params st)) as Hsum
    by (unfold dims_ok in Hdims; apply Nat.eqb_eq in Hdims; exact Hdims).
  destruct st as [ps ev]. cbn [params loss_evals] in *.
  set (l := combine iteration_seeds iteration_grad_scalar).
  assert (Forall (fun x : Z * Tensor => snd x <> []) l) as Hl.
  { apply Forall_forall. intros [seed dgs] Hin.
    apply in_combine_r in Hin. rewrite Forall_forall in Hgrads.
    apply Hgrads. exact Hin. }
  pose proof (update_model_loop normal_sample norm self Hwd Hne Hl ps ev Hsum)
    as Eup.
  destruct (revert_model_loop normal_sample norm self Hwd Hne Hl ps _ ev Hsum
              eq_refl) as (qs' & Erev & Hqs').
  eexists. exists (mkStore qs' ev). split; [|split; [|split]].
  - unfold update_model_given_seed_and_grad.
    rewrite Hlen, Nat.eqb_refl, Hopt. exact Eup.
  - unfold revert_model_given_seed_and_grad.
    rewrite Hopt, !length_rev, Hlen, Nat.eqb_refl.
    rewrite combine_rev by exact Hlen. exact Erev.
  - cbn [params].
    apply (f_equal (map data)) in Hqs'. rewrite !map_map in Hqs'. exact Hqs'.
  - reflexivity.
Qed.

(** * Outside the preconditions

    What the code does where the theorems above do not apply: with no
    direction at all, and with a decay factor [1 - lr * wd] equal to zero. *)

Lemma generate_then_put_grad_no_direction
    (normal_sample : Sampler) (norm : Tensor -> scalar)
    (self : RandomGradientEstimator) (seed : Z) (st : Store) :
  generate_then_put_grad normal_sample norm self seed [] st
  = (Raise AssertionError, st).
Proof. reflexivity. Qed.

Lemma generate_then_put_grad_paramwise_no_direction
    (normal_sample : Sampler) (seed : Z) (st : Store) :
  generate_then_put_grad_paramwise normal_sample seed [] st = (Ok tt, st).
Proof. reflexivity. Qed.

Lemma zo_grad_estimate_no_direction
    (normal_sample : Sampler) (norm : Tensor -> scalar)
    (BatchInputs Labels : Type) (self : RandomGradientEstimator)
    (loss_fn : LossFn BatchInputs Labels) (batch_inputs : BatchInputs)
    (labels : Labels) (seed : Z) (st : Store) :
  num_pert self = 0%nat ->
  dims_ok self st = true ->
  fst (_zo_grad_estimate normal_sample norm self batch_inputs labels loss_fn
         seed st)
  = Raise AssertionError.
Proof.
  intros Hn Hdims. apply dims_ok_le in Hdims. destruct st as [ps ev].
  cbn [params] in Hdims. rewrite zo_grad_estimate_spec by assumption.
  unfold full_gradient. rewrite Hn. reflexivity.
Qed.

(** With a weight decay [wd > 0] and [lr * wd = 1] the forward step has
    forgotten the parameter values, and the revert stops on the division
    [1 / (1 - lr * wd)]. *)
Lemma revert_param_zero_division (lr wd : scalar) (param : Param) (g : Tensor) :
  grad param = Some g ->
  length (data param) = length g ->
  0 < wd ->
  1 - lr * wd = 0 ->
  snd (revert_param lr wd param tt) = Raise ZeroDivisionError.
Proof.
  intros Hg Hlen Hwd Hz. unfold revert_param, add_.
  rewrite Hg, Hlen, Nat.eqb_refl.
  apply Qc_ltb_true in Hwd. apply Qc_eqb_true in Hz. rewrite Hwd, Hz.
  reflexivity.
Qed.

(** * The theorems at the worked configuration *)

Lemma revert_after_update_witness :
  sgd_only_no_optim (example_estimator rge_central false) = false
  /\ dims_ok (example_estimator rge_central false) example_store = true
  /\ 0 <= Q2Qc (1 # 3)
  /\ 1 - Q2Qc (1 # 10) * Q2Qc (1 # 3) <> 0
  /\ length [42%Z; 7%Z] = length [example_dir_grads; [of_Z 5]]
  /\ Forall (fun dir_grads : Tensor => dir_grads <> [])
       [example_dir_grads; [of_Z 5]]
  /\ exists st1 st2,
       update_model_given_seed_and_grad example_sample example_norm
         (example_estimator rge_central false)
         (SGD (Q2Qc (1 # 10)) (Q2Qc (1 # 3)))
         [42%Z; 7%Z] [example_dir_grads; [of_Z 5]] example_store
       = (Ok tt, st1)
       /\ revert_model_given_seed_and_grad example_sample example_norm
            (example_estimator rge_central false)
            (SGD (Q2Qc (1 # 10)) (Q2Qc (1 # 3)))
            (rev [42%Z; 7%Z]) (rev [example_dir_grads; [of_Z 5]]) st1
          = (Ok tt, st2)
       /\ map data (params st2) = map data (params example_store)
       /\ loss_evals st2 = loss_evals example_store.
Proof.
  assert (0 <= Q2Qc (1 # 3)) as Hwd by (unfold Qcle, Qle; cbn; lia).
  assert (1 - Q2Qc (1 # 10) * Q2Qc (1 # 3) <> 0) as Hne
    by (apply Qc_eqb_false; reflexivity).
  assert (Forall (fun dir_grads : Tensor => dir_grads <> [])
            [example_dir_grads; [of_Z 5]]) as Hgrads
    by (repeat constructor; discriminate).
  repeat (split; [first [reflexivity | assumption]|]).
  apply (revert_after_update_restores_parameters example_sample example_norm
           (example_estimator rge_central false) (lr := Q2Qc (1 # 10))
           (wd := Q2Qc (1 # 3)) [42%Z; 7%Z] example_store);
    first [reflexivity | assumption].
Defined.

Lemma directional_gradient_formula_witness :
  (1 < num_pert (example_estimator rge_central false))%nat
  /\ dims_ok (example_estimator rge_central false) example_store = true
  /\ exists grad dir_grads st',
       _zo_grad_estimate example_sample example_norm
         (example_estimator rge_central false) tt tt example_loss
         example_seed example_store
       = (Ok (grad, dir_grads), st')
       /\ params st' = example_params
       /\ length (loss_evals st') = 4%nat
       /\ nth_error dir_grads 1
          = Some ((example_loss tt tt
                     (map data
                        (add_flat example_params (Q2Qc (1 # 1000))
                           (generate_perturbation_norm example_sample
                              example_norm
                              (example_estimator rge_central false)
                              (get_rng example_seed 1))))
                   - example_loss tt tt
                       (map data
                          (add_flat example_params (- Q2Qc (1 # 1000))
                             (generate_perturbation_norm example_sample
                                example_norm
                                (example_estimator rge_central false)
                                (get_rng example_seed 1)))))
                  / (Q2Qc (1 # 1000) * (1 + 1))).
Proof.
  assert (1 < num_pert (example_estimator rge_central false))%nat as Hi
    by (cbn; lia).
  split; [exact Hi|]. split; [reflexivity|].
  destruct (directional_gradient_formula example_sample example_norm
              (example_estimator rge_central false) example_loss tt tt
              example_seed example_store Hi) as [Hflat _].
  destruct Hflat as (grad & dir_grads & E & _ & Hnth); [reflexivity|].
  exists grad, dir_grads. eexists. split; [exact E|].
  split; [reflexivity|]. split; [reflexivity|]. exact Hnth.
Defined.

Lemma restore_identity_witness :
  (sum_numel (params example_store)
   <= length (generate_perturbation_norm example_sample example_norm
                (example_estimator rge_central false)
                (get_rng example_seed 1)))%nat
  /\ (perturb_model
        (Some (generate_perturbation_norm example_sample example_norm
                 (example_estimator rge_central false)
                 (get_rng example_seed 1)))
        (Q2Qc (1 # 1000)) ;;;
      perturb_model
        (Some (generate_perturbation_norm example_sample example_norm
                 (example_estimator rge_central false)
                 (get_rng example_seed 1)))
        (- Q2Qc (1 # 1000))) example_store
     = (Ok tt, example_store)
  /\ (perturb_model_paramwise example_sample (get_rng example_seed 1)
        (Q2Qc (1 # 1000)) ;;;
      perturb_model_paramwise example_sample (get_rng example_seed 1)
        (- two * Q2Qc (1 # 1000)) ;;;
      perturb_model_paramwise example_sample (get_rng example_seed 1)
        (Q2Qc (1 # 1000))) example_store
     = (Ok tt, example_store).
Proof.
  assert (sum_numel (params example_store)
          <= length (generate_perturbation_norm example_sample example_norm
                       (example_estimator rge_central false)
                       (get_rng example_seed 1)))%nat as Hlen
    by (cbn; lia).
  split; [exact Hlen|].
  destruct (@restore_identity example_sample _ _ Hlen (Q2Qc (1 # 1000))
              (Q2Qc (1 # 1000)) example_seed 1)
    as (Hflat & _ & _ & Hcentral).
  split; [exact Hflat | exact Hcentral].
Defined.

Lemma get_rng_key_witness :
  get_rng 42 3 = manual_seed 843
  /\ generate_perturbation_norm example_sample example_norm
       (example_estimator rge_central false) (get_rng 42 3)
     = map (example_sample (manual_seed 843) 10%nat) (seq 0 10).
Proof.
  destruct (get_rng_key_and_determinism example_sample example_norm
              (example_estimator rge_central false) 42 3)
    as (Hkey & Hdraw & _).
  split; [exact Hkey | exact Hdraw].
Defined.

Lemma generate_then_put_grad_witness :
  dims_ok (example_estimator rge_central false) example_store = true
  /\ example_dir_grads <> []
  /\ exists ps',
       generate_then_put_grad example_sample example_norm
         (example_estimator rge_central false) example_seed example_dir_grads
         example_store
       = (Ok tt, with_params example_store ps')
       /\ length ps' = 2%nat
       /\ map data ps' = map data example_params.
Proof.
  split; [reflexivity|]. split; [discriminate|].
  destruct (generate_then_put_grad_writes_averaged_sum example_sample
              example_norm (example_estimator rge_central false) example_seed
              (dir_grads := example_dir_grads) example_store)
    as (ps' & E & Hlen & Hnth); [reflexivity | discriminate |].
  exists ps'. split; [exact E|]. split; [exact Hlen|].
  destruct ps' as [|q0 [|q1 [|q2 ps']]]; try discriminate.
  pose proof (Hnth 0%nat _ eq_refl) as H0.
  pose proof (Hnth 1%nat _ eq_refl) as H1.
  cbn [nth_error] in H0, H1.
  injection H0 as ->. injection H1 as ->. reflexivity.
Defined.



Lemma forward_baseline_witness :
  grad_estimate_method (example_estimator rge_forward true) = rge_forward
  /\ exists dir_grads st',
       _zo_grad_estimate_paramwise example_sample
         (example_estimator rge_forward true) tt tt example_loss example_seed
         example_store
       = (Ok dir_grads, st')
       /\ length dir_grads = 2%nat
       /\ length (loss_evals st') = 3%nat
       /\ nth_error (loss_evals st') 0 = Some (map data example_params).
Proof.
  split; [reflexivity|].
  destruct (forward_baseline_is_evaluated_once example_sample example_norm
              (example_estimator rge_forward true) example_loss tt tt
              example_seed example_store eq_refl) as [_ E].
  eexists. eexists. split; [exact E|].
  split; [reflexivity|]. split; reflexivity.
Defined.

Lemma revert_rejects_witness :
  (isinstance_SGD example_other_optimizer = false
   \/ defaults_momentum example_other_optimizer <> 0)
  /\ revert_model_given_seed_and_grad example_sample example_norm
       (example_estimator rge_central false) example_other_optimizer
       [example_seed] [example_dir_grads] example_store
     = (Raise (Exception "Revert only supports SGD without momentum"),
        example_store).
Proof.
  split; [left; reflexivity|].
  apply (revert_rejects_unsupported_optimizer example_sample example_norm
           (example_estimator rge_central false) example_other_optimizer
           [example_seed] [example_dir_grads] example_store).
  left. reflexivity.
Defined.

Lemma init_witness :
  (exists e,
     init example_params (Q2Qc (1 # 1000)) 2 (inl rge_central) false false true
     = Raise e)
  /\ (exists self,
        init example_params (Q2Qc (1 # 1000)) 2 (inr "rge-forward"%string)
          false true true
        = Ok (self, example_params)
        /\ total_dimensions self = 10%nat
        /\ grad_estimate_method self = rge_forward).
Proof.
  split.
  - destruct (init_raises_exactly_on_invalid_configuration example_params
                (Q2Qc (1 # 1000)) 2 (inl rge_central) false false true)
      as (_ & _ & H & _).
    apply H; reflexivity.
  - destruct (init_raises_exactly_on_invalid_configuration example_params
                (Q2Qc (1 # 1000)) 2 (inr "rge-forward"%string) false true true)
      as (_ & _ & _ & H).
    destruct H as (self & E & Hdims & _ & _ & Hm & _).
    + intros s Hs. injection Hs as <-. right. reflexivity.
    + reflexivity.
    + reflexivity.
    + exists self. split; [exact E|]. split; [exact Hdims|].
      destruct (grad_estimate_method self); [discriminate | reflexivity].
Defined.

Lemma compute_grad_witness :
  paramwise_perturb (example_estimator rge_central false) = false
  /\ dims_ok (example_estimator rge_central false) example_store = true
  /\ paramwise_perturb (example_estimator rge_central true) = true
  /\ num_pert (example_estimator rge_central true) <> 0%nat
  /\ map grad
       (params (snd (compute_grad example_sample example_norm
                       (example_estimator rge_central false) tt tt
                       example_loss example_seed false example_store)))
     = map grad example_params
  /\ compute_grad example_sample example_norm
       (example_estimator rge_central true) tt tt example_loss example_seed
       false example_store
     = compute_grad example_sample example_norm
         (example_estimator rge_central true) tt tt example_loss example_seed
         true example_store.
Proof.
  split; [reflexivity|]. split; [reflexivity|]. split; [reflexivity|].
  split; [discriminate|].
  destruct (compute_grad_gradient_slots example_sample example_norm
              (example_estimator rge_central false) example_loss tt tt
              example_seed example_store) as [Hflat _].
  destruct (compute_grad_gradient_slots example_sample example_norm
              (example_estimator rge_central true) example_loss tt tt
              example_seed example_store) as [_ Hpw].
  destruct Hflat as [Hps _]; [reflexivity | reflexivity |].
  destruct Hpw as [Hput _]; [reflexivity|].
  split; [rewrite Hps; reflexivity | apply Hput].
Defined.

(** * The graph-keeping variant of the estimate *)

Section GraphVariant.

Variable normal_sample : Sampler.
Variable norm : Tensor -> scalar.
Variables BatchInputs Labels : Type.
Variable self : RandomGradientEstimator.
Variable loss_fn : LossFn BatchInputs Labels.
Variable batch_inputs : BatchInputs.
Variable labels : Labels.
Variable seed : Z.

(** The loop invariant on [pert_minus_loss], as for the other loops. *)
Let baseline (ps : list Param) (pml : option scalar) : Prop :=
  grad_estimate_method self = rge_forward ->
  pml = Some (loss_fn batch_inputs labels (map data ps)).

Let direction_evals (ps : list Param) (d : Tensor) : list (list Tensor) :=
  match grad_estimate_method self with
  | rge_central => [perturbed ps (mu self) d; perturbed ps (- mu self) d]
  | rge_forward => [perturbed ps (mu self) d]
  end.

Lemma compute_grad_with_graph_step_spec (i : nat) (dir_grads : list scalar)
    (pml : option scalar) (ps : list Param) (ev : list (list Tensor)) :
  (sum_numel ps <= total_dimensions self)%nat ->
  baseline ps pml ->
  exists pml',
    baseline ps pml'
    /\ compute_grad_with_graph_step normal_sample norm self batch_inputs
         labels loss_fn seed i (dir_grads, pml) (mkStore ps ev)
       = (Ok (dir_grads
              ++ [directional_gradient self loss_fn batch_inputs labels
                    (flat_direction normal_sample norm self seed) ps i],
              pml'),
          mkStore ps
            (ev ++ direction_evals ps
                     (flat_direction normal_sample norm self seed i))).
Proof.
  intros Hdims Hpml.
  set (d := flat_direction normal_sample norm self seed i).
  assert (sum_numel ps <= length d)%nat as Hlen
    by (unfold d, flat_direction; rewrite generate_perturbation_norm_length;
        assumption).
  unfold compute_grad_with_graph_step. cbv zeta.
  fold (flat_direction normal_sample norm self seed i). fold d.
  rewrite (cycle_restores self loss_fn batch_inputs labels
             (fun alpha => perturb_model (Some d) alpha) d ps
             pml ev _ Hlen (perturb_model_shift d ps Hlen)).
  unfold baseline, directional_gradient, L_plus, L_minus, denom,
    denominator_factor, direction_evals in *.
  fold d.
  destruct (grad_estimate_method self).
  - eexists. split; [discriminate|]. reflexivity.
  - rewrite (Hpml eq_refl). eexists. split; reflexivity.
Qed.

Lemma compute_grad_with_graph_loop (ps : list Param) (idx : list nat) :
  (sum_numel ps <= total_dimensions self)%nat ->
  forall dir_grads pml ev,
    baseline ps pml ->
    exists pml',
      for_each idx
        (compute_grad_with_graph_step normal_sample norm self batch_inputs
           labels loss_fn seed)
        (dir_grads, pml) (mkStore ps ev)
      = (Ok (dir_grads
             ++ map (directional_gradient self loss_fn batch_inputs labels
                       (flat_direction normal_sample norm self seed) ps) idx,
             pml'),
         mkStore ps
           (ev ++ flat_map
                    (fun i =>
                       direction_evals ps
                         (flat_direction normal_sample norm self seed i))
                    idx)).
Proof.
  intros Hdims. induction idx as [|i idx IH]; intros dir_grads pml ev Hpml.
  - exists pml. cbn. rewrite !app_nil_r. reflexivity.
  - destruct (compute_grad_with_graph_step_spec i dir_grads ev Hdims Hpml)
      as (pml1 & Hpml1 & E1).
    cbn [for_each]. rewrite (bind_ok _ E1).
    destruct (IH (dir_grads
                  ++ [directional_gradient self loss_fn batch_inputs labels
                        (flat_direction normal_sample norm self seed) ps i])
                 pml1
                 (ev ++ direction_evals ps
                          (flat_direction normal_sample norm self seed i))
                 Hpml1)
      as (pml2 & E2).
    exists pml2. rewrite E2.
    cbn [map flat_map]. rewrite <- !app_assoc. reflexivity.
Qed.

(** What [compute_grad_with_graph] does from any store whose parameters
    have the element count the estimator was built for. *)
Lemma compute_grad_with_graph_spec (ps : list Param) (ev : list (list Tensor)) :
  paramwise_perturb self = false ->
  (sum_numel ps <= total_dimensions self)%nat ->
  compute_grad_with_graph normal_sample norm self batch_inputs labels loss_fn
    seed (mkStore ps ev)
  = (stack (map (directional_gradient self loss_fn batch_inputs labels
                   (flat_direction normal_sample norm self seed) ps)
              (seq 0 (num_pert self))),
     mkStore ps
       (ev ++ estimate_evals self (flat_direction normal_sample norm self seed)
                ps (num_pert self))).
Proof.
  intros Hmode Hdims. unfold compute_grad_with_graph.
  rewrite Hmode. cbn [negb assert]. unfold bind at 1. cbn [ret].
  destruct (initial_minus_loss_spec self loss_fn batch_inputs labels ps ev)
    as (pml & Hpml & E0).
  rewrite (bind_ok _ E0).
  destruct (compute_grad_with_graph_loop (seq 0 (num_pert self)) Hdims []
              (ev ++ match grad_estimate_method self with
                     | rge_central => []
                     | rge_forward => [map data ps]
                     end) Hpml)
    as (pml' & E).
  rewrite (bind_ok _ E). rewrite <- app_assoc.
  pose proof (estimate_evals_steps self loss_fn batch_inputs labels
                (flat_direction normal_sample norm self seed) ps
                (num_pert self)) as Hev.
  cbv beta in Hev. unfold direction_evals. rewrite Hev.
  cbn [fst app].
  destruct (stack _); reflexivity.
Qed.

End GraphVariant.

Section GraphVariantProperties.

Variable normal_sample : Sampler.
Variable norm : Tensor -> scalar.
Variables BatchInputs Labels : Type.
Variable self : RandomGradientEstimator.
Variable loss_fn : LossFn BatchInputs Labels.
Variable batch_inputs : BatchInputs.
Variable labels : Labels.
Variable seed : Z.

(** X1. In the whole-vector mode and with at least one direction,
    [compute_grad_with_graph] returns exactly the directional gradients
    that [_zo_grad_estimate] returns from the same store, after the same
    loss evaluations, and leaves every parameter, gradient slot included,
    as it was. *)
Theorem compute_grad_with_graph_agrees_with_zo_grad_estimate (st : Store) :
  paramwise_perturb self = false ->
  dims_ok self st = true ->
  num_pert self <> 0%nat ->
  exists grad dir_grads st',
    _zo_grad_estimate normal_sample norm self batch_inputs labels loss_fn
      seed st
    = (Ok (grad, dir_grads), st')
    /\ compute_grad_with_graph normal_sample norm self batch_inputs labels
         loss_fn seed st
       = (Ok dir_grads, st')
    /\ length dir_grads = num_pert self
    /\ params st' = params st.
Proof.
  intros Hmode Hdims Hn. apply dims_ok_le in Hdims.
  destruct st as [ps ev]. cbn [params] in *.
  rewrite zo_grad_estimate_spec by assumption.
  rewrite compute_grad_with_graph_spec by assumption.
  destruct (full_gradient_some self loss_fn batch_inputs labels
              (flat_direction normal_sample norm self seed) ps Hn) as [g ->].
  exists g. eexists. eexists. split; [reflexivity|].
  split; [|split; [|reflexivity]].
  - destruct (num_pert self) as [|n]; [congruence | reflexivity].
  - rewrite length_map, length_seq. reflexivity.
Qed.

(** X2. [compute_grad_with_graph] refuses the paramwise mode with an
    AssertionError before anything is evaluated or changed; with no
    direction at all it fails on the empty [torch.stack], after the one
    baseline evaluation of the forward mode, and with every parameter as
    it was. *)
Theorem compute_grad_with_graph_failures (st : Store) :
  (paramwise_perturb self = true ->
   compute_grad_with_graph normal_sample norm self batch_inputs labels
     loss_fn seed st
   = (Raise AssertionError, st))
  /\ (paramwise_perturb self = false ->
      num_pert self = 0%nat ->
      compute_grad_with_graph normal_sample norm self batch_inputs labels
        loss_fn seed st
      = (Raise RuntimeError,
         {| params := params st;
            loss_evals :=
              loss_evals st
              ++ match grad_estimate_method self with
                 | rge_central => []
                 | rge_forward => [map data (params st)]
                 end |})).
Proof.
  split.
  - intros Hmode. unfold compute_grad_with_graph. rewrite Hmode. reflexivity.
  - intros Hmode Hn. unfold compute_grad_with_graph, initial_minus_loss.
    rewrite Hmode, Hn. destruct st as [ps ev].
    destruct (grad_estimate_method self); cbn; rewrite ?app_nil_r; reflexivity.
Qed.

End GraphVariantProperties.

(** * The stream keys *)

Lemma get_rng_key (seed : Z) (i : nat) :
  gen_key (get_rng seed i) = ((seed + 1) * (Z.of_nat i + 17) - 17)%Z.
Proof. cbn. lia. Qed.

Lemma get_rng_eq_iff (seed seed' : Z) (i i' : nat) :
  get_rng seed i = get_rng seed' i'
  <-> ((seed + 1) * (Z.of_nat i + 17) = (seed' + 1) * (Z.of_nat i' + 17))%Z.
Proof.
  split.
  - intros H. apply (f_equal gen_key) in H. rewrite !get_rng_key in H. lia.
  - intros H. unfold get_rng. f_equal. lia.
Qed.

(** X3. Two (seed, index) pairs get the same generator exactly when
    [(seed + 1) * (index + 17)] is the same for both; so pairs of different
    steps can share a stream, as do seed [s], index 0 and seed 0, index
    [17 * s], and then the flat perturbations drawn for them are equal. *)
Theorem get_rng_collisions (normal_sample : Sampler)
    (norm : Tensor -> scalar) (self : RandomGradientEstimator) :
  (forall (seed seed' : Z) (i i' : nat),
     get_rng seed i = get_rng seed' i'
     <-> ((seed + 1) * (Z.of_nat i + 17)
          = (seed' + 1) * (Z.of_nat i' + 17))%Z)
  /\ (forall s : nat,
        get_rng (Z.of_nat s) 0 = get_rng 0 (17 * s)
        /\ generate_perturbation_norm normal_sample norm self
             (get_rng (Z.of_nat s) 0)
           = generate_perturbation_norm normal_sample norm self
               (get_rng 0 (17 * s))).
Proof.
  split; [exact get_rng_eq_iff|].
  intros s.
  assert (get_rng (Z.of_nat s) 0 = get_rng 0 (17 * s)) as E
    by (apply get_rng_eq_iff; lia).
  split; [exact E | rewrite E; reflexivity].
Qed.

(** X4. Within one step the indices get pairwise different generators
    exactly when the seed is not -1; with the seed -1 every index gets the
    generator of key -17, so all the directions of the step are one and the
    same vector. *)
Theorem get_rng_separates_indices_iff (normal_sample : Sampler)
    (norm : Tensor -> scalar) (self : RandomGradientEstimator) (seed : Z) :
  ((forall i j : nat, get_rng seed i = get_rng seed j -> i = j)
   <-> seed <> (-1)%Z)
  /\ (forall i j : nat,
        get_rng (-1) i = manual_seed (-17)
        /\ generate_perturbation_norm normal_sample norm self (get_rng (-1) i)
           = generate_perturbation_norm normal_sample norm self
               (get_rng (-1) j)).
Proof.
  split; [split|].
  - intros H ->. specialize (H 0%nat 1%nat eq_refl). discriminate.
  - intros Hs i j H. apply get_rng_eq_iff in H. nia.
  - intros i j.
    assert (forall k, get_rng (-1) k = manual_seed (-17)) as E
      by (intros k; unfold get_rng; f_equal; lia).
    split; [apply E | rewrite !E; reflexivity].
Qed.

(** * [perturb_model] without a perturbation: scaling *)

Lemma scale_1 (t : Tensor) : scale 1 t = t.
Proof.
  induction t as [|x t IH]; [reflexivity|].
  cbn [scale map]. fold (scale 1 t). rewrite IH. f_equal. scalar_ring.
Qed.

Lemma scale_scale (a b : scalar) (t : Tensor) :
  scale b (scale a t) = scale (b * a) t.
Proof.
  unfold scale. rewrite map_map. apply map_ext. intros x. scalar_ring.
Qed.

(** The parameters with every value multiplied by [alpha]. *)
Lemma perturb_model_none_loop (alpha : scalar) (ps : list Param) (start : nat) :
  for_params_list (perturb_model_body None alpha) ps start
  = (Ok (start + sum_numel ps)%nat,
     map (fun p => set_data p (scale alpha (data p))) ps).
Proof.
  revert start. induction ps as [|p ps IH]; intros start.
  - unfold sum_numel. cbn. rewrite Nat.add_0_r. reflexivity.
  - cbn [for_params_list perturb_model_body map]. rewrite IH.
    change (sum_numel (p :: ps)) with (numel p + sum_numel ps)%nat.
    rewrite Nat.add_assoc. f_equal. f_equal.
    destruct (Qc_eqb alpha 1) eqn:E; [|reflexivity].
    apply Qc_eqb_true in E. subst alpha.
    rewrite scale_1, set_data_data. reflexivity.
Qed.

Lemma perturb_model_none (alpha : scalar) (st : Store) :
  perturb_model None alpha st
  = (Ok tt,
     with_params st
       (map (fun p => set_data p (scale alpha (data p))) (params st))).
Proof.
  unfold perturb_model, bind, for_params.
  rewrite perturb_model_none_loop. reflexivity.
Qed.

(** X5. Called without a perturbation, [perturb_model] never raises and
    multiplies every parameter value by [alpha], touching nothing else;
    two such calls compose to the product of the factors, so a factor and
    its inverse give back the very store. *)
Theorem perturb_model_scaling (alpha beta : scalar) (st : Store) :
  perturb_model None alpha st
  = (Ok tt,
     with_params st
       (map (fun p => {| requires_grad := requires_grad p;
                         data := map (fun x => alpha * x) (data p);
                         grad := grad p |}) (params st)))
  /\ (perturb_model None alpha ;;; perturb_model None beta) st
     = perturb_model None (beta * alpha) st
  /\ (beta * alpha = 1 ->
      (perturb_model None alpha ;;; perturb_model None beta) st = (Ok tt, st)).
Proof.
  assert ((perturb_model None alpha ;;; perturb_model None beta) st
          = perturb_model None (beta * alpha) st) as Hcomp.
  { rewrite (bind_ok _ (perturb_model_none alpha st)).
    rewrite !perturb_model_none. cbn [params with_params loss_evals].
    rewrite map_map. unfold with_params. do 2 f_equal.
    apply map_ext. intros p. unfold set_data. cbn [data requires_grad grad].
    rewrite scale_scale. reflexivity. }
  split; [apply perturb_model_none|]. split; [exact Hcomp|].
  intros H. rewrite Hcomp, H, perturb_model_none.
  rewrite (map_ext _ (fun p => p)), map_id, with_params_params; [reflexivity|].
  intros p. rewrite scale_1. apply set_data_data.
Qed.

(** * Shape mismatches and what the parameter loops never touch *)

Lemma view_slice_fails (t : Tensor) (start n : nat) :
  (start <= length t < start + n)%nat ->
  view (slice t start (start + n)) n = Raise RuntimeError.
Proof.
  intros H. rewrite slice_firstn_skipn. unfold view.
  rewrite length_firstn, length_skipn.
  destruct (Nat.eqb_spec (Nat.min n (length t - start)) n); [lia|reflexivity].
Qed.

Lemma offset_0 (ps : list Param) : offset ps 0 = 0%nat.
Proof. reflexivity. Qed.

(** A flat vector too short for the parameters: the loop stops with a
    RuntimeError at the first parameter [k] that the vector does not reach
    the end of, the parameters before it already perturbed. *)
Lemma perturb_model_loop_short (v : Tensor) (alpha : scalar) (ps : list Param)
    (start : nat) :
  (start <= length v < start + sum_numel ps)%nat ->
  exists k p,
    nth_error ps k = Some p
    /\ (start + offset ps k <= length v < start + offset ps k + numel p)%nat
    /\ for_params_list (perturb_model_body (Some v) alpha) ps start
       = (Raise RuntimeError,
          add_flat (firstn k ps) alpha (skipn start v) ++ skipn k ps).
Proof.
  revert start. induction ps as [|p ps IH]; intros start H.
  - unfold sum_numel in H. cbn in H. lia.
  - change (sum_numel (p :: ps)) with (numel p + sum_numel ps)%nat in H.
    cbn [for_params_list]. unfold perturb_model_body at 1.
    destruct (Nat.le_gt_cases (start + numel p) (length v)) as [Hok | Hshort].
    + rewrite view_slice by exact Hok.
      destruct (IH (start + numel p)%nat) as (k & q & Hq & Hoff & E); [lia|].
      rewrite E. exists (S k), q. split; [exact Hq|].
      split; [rewrite offset_S; lia|].
      cbn [firstn skipn add_flat app]. rewrite skipn_skipn.
      rewrite (Nat.add_comm (numel p) start). reflexivity.
    + rewrite view_slice_fails by lia.
      exists 0%nat, p. split; [reflexivity|].
      split; [rewrite offset_0; lia | reflexivity].
Qed.

Lemma perturb_model_loop_grad (perturb : option Tensor) (alpha : scalar)
    (ps : list Param) (start : nat) :
  map grad (snd (for_params_list (perturb_model_body perturb alpha) ps start))
  = map grad ps.
Proof.
  revert start. induction ps as [|p ps IH]; intros start; [reflexivity|].
  cbn [for_params_list].
  destruct (perturb_model_body perturb alpha p start) as [p' [s'|e]] eqn:E.
  - specialize (IH s').
    destruct (for_params_list (perturb_model_body perturb alpha) ps s')
      as [r rest'].
    cbn [snd map] in *. rewrite IH. f_equal.
    unfold perturb_model_body in E.
    destruct perturb as [pb|].
    + destruct (view (slice pb start (start + numel p)) (numel p));
        inversion E; reflexivity.
    + destruct (Qc_eqb alpha 1); inversion E; reflexivity.
  - cbn [snd map]. f_equal.
    unfold perturb_model_body in E.
    destruct perturb as [pb|].
    + destruct (view (slice pb start (start + numel p)) (numel p));
        inversion E; reflexivity.
    + destruct (Qc_eqb alpha 1); inversion E.
Qed.

(** X6. A perturbation vector shorter than the parameters makes
    [perturb_model] raise a RuntimeError at the first parameter that the
    vector does not reach the end of -- the parameter [k] whose slice
    starts within the vector, at [offset k], and ends beyond it -- with the
    parameters before that one already perturbed and the others as they
    were; and whatever the arguments and the outcome, [perturb_model]
    never touches a gradient slot. *)
Theorem perturb_model_short_vector (perturb : Tensor) (alpha : scalar)
    (st : Store) :
  (length perturb < sum_numel (params st))%nat ->
  (exists k p,
     nth_error (params st) k = Some p
     /\ (offset (params st) k <= length perturb
         < offset (params st) k + numel p)%nat
     /\ perturb_model (Some perturb) alpha st
        = (Raise RuntimeError,
           with_params st
             (add_flat (firstn k (params st)) alpha perturb
              ++ skipn k (params st))))
  /\ (forall (p : option Tensor) (a : scalar),
        map grad (params (snd (perturb_model p a st)))
        = map grad (params st)).
Proof.
  intros Hshort. split.
  - destruct (@perturb_model_loop_short perturb alpha (params st) 0%nat)
      as (k & p & Hp & Hoff & E); [lia|].
    exists k, p. split; [exact Hp|]. split; [exact Hoff|].
    unfold perturb_model, bind, for_params. rewrite E. reflexivity.
  - intros p a.
    pose proof (perturb_model_loop_grad p a (params st) 0%nat) as H.
    unfold perturb_model, bind, for_params.
    destruct (for_params_list (perturb_model_body p a) (params st) 0%nat)
      as [[s|e] ps']; exact H.
Qed.

Lemma put_grad_loop_short (v : Tensor) (ps : list Param) (start : nat) :
  (start <= length v < start + sum_numel ps)%nat ->
  exists k p,
    nth_error ps k = Some p
    /\ (start + offset ps k <= length v < start + offset ps k + numel p)%nat
    /\ for_params_list (put_grad_body v) ps start
       = (Raise RuntimeError,
          put_flat (firstn k ps) (skipn start v) ++ skipn k ps).
Proof.
  revert start. induction ps as [|p ps IH]; intros start H.
  - unfold sum_numel in H. cbn in H. lia.
  - change (sum_numel (p :: ps)) with (numel p + sum_numel ps)%nat in H.
    cbn [for_params_list]. unfold put_grad_body at 1.
    destruct (Nat.le_gt_cases (start + numel p) (length v)) as [Hok | Hshort].
    + rewrite view_slice by exact Hok.
      destruct (IH (start + numel p)%nat) as (k & q & Hq & Hoff & E); [lia|].
      rewrite E. exists (S k), q. split; [exact Hq|].
      split; [rewrite offset_S; lia|].
      cbn [firstn skipn put_flat app]. rewrite skipn_skipn.
      rewrite (Nat.add_comm (numel p) start). reflexivity.
    + rewrite view_slice_fails by lia.
      exists 0%nat, p. split; [reflexivity|].
      split; [rewrite offset_0; lia | reflexivity].
Qed.

Lemma put_grad_loop_data (v : Tensor) (ps : list Param) (start : nat) :
  map data (snd (for_params_list (put_grad_body v) ps start)) = map data ps.
Proof.
  revert start. induction ps as [|p ps IH]; intros start; [reflexivity|].
  cbn [for_params_list]. unfold put_grad_body at 1.
  destruct (view (slice v start (start + numel p)) (numel p)) as [g|e].
  - specialize (IH (start + numel p)%nat).
    destruct (for_params_list (put_grad_body v) ps (start + numel p)%nat)
      as [r rest'].
    cbn [snd map] in *. rewrite IH. reflexivity.
  - reflexivity.
Qed.

(** X7. A gradient vector shorter than the parameters makes [put_grad]
    raise a RuntimeError at the first parameter that the vector does not
    reach the end of -- the parameter [k] whose slice starts within the
    vector, at [offset k], and ends beyond it -- with the gradient slots
    before that one already overwritten and the others as they were; and
    whatever the vector and the outcome, [put_grad] never changes a
    parameter value. *)
Theorem put_grad_short_vector (grad_vector : Tensor) (st : Store) :
  (length grad_vector < sum_numel (params st))%nat ->
  (exists k p,
     nth_error (params st) k = Some p
     /\ (offset (params st) k <= length grad_vector
         < offset (params st) k + numel p)%nat
     /\ put_grad grad_vector st
        = (Raise RuntimeError,
           with_params st
             (put_flat (firstn k (params st)) grad_vector
              ++ skipn k (params st))))
  /\ (forall g : Tensor,
        map data (params (snd (put_grad g st))) = map data (params st)).
Proof.
  intros Hshort. split.
  - destruct (@put_grad_loop_short grad_vector (params st) 0%nat)
      as (k & p & Hp & Hoff & E); [lia|].
    exists k, p. split; [exact Hp|]. split; [exact Hoff|].
    unfold put_grad, bind, for_params. rewrite E. reflexivity.
  - intros g.
    pose proof (put_grad_loop_data g (params st) 0%nat) as H.
    unfold put_grad, bind, for_params.
    destruct (for_params_list (put_grad_body g) (params st) 0%nat)
      as [[s|e] ps']; exact H.
Qed.

(** * The full gradient of the whole-vector estimate *)

Lemma Qc_sum_div (l : list scalar) (c : scalar) :
  Qc_sum l / c = Qc_sum (map (fun x => x / c) l).
Proof.
  induction l as [|x l IH]; cbn [Qc_sum fold_right map].
  - unfold Qcdiv. scalar_ring.
  - fold (Qc_sum l). fold (Qc_sum (map (fun x => x / c) l)).
    rewrite <- IH. unfold Qcdiv. scalar_ring.
Qed.

Lemma enumerate_map_seq {A} (f : nat -> A) (n : nat) :
  enumerate (map f (seq 0 n)) = map (fun i => (i, f i)) (seq 0 n).
Proof.
  unfold enumerate. rewrite length_map, length_seq.
  generalize 0%nat. induction n as [|n IH]; intros start; [reflexivity|].
  cbn [seq map combine]. rewrite IH. reflexivity.
Qed.

Section FullGradient.

Variable direction : nat -> Tensor.
Variable total : nat.
Hypothesis direction_length : forall i, length (direction i) = total.
Variable weight : nat -> scalar.

(** One turn of the accumulation of [grad] in [_zo_grad_estimate]. *)
Let add_weighted (grad : option Tensor) (i : nat) : option Tensor :=
  let update := scale (weight i) (direction i) in
  match grad with
  | None => Some update
  | Some g => Some (tadd g update)
  end.

Lemma add_weighted_sum (idx : list nat) (acc : Tensor) :
  length acc = total ->
  fold_left add_weighted idx (Some acc)
  = Some (map (fun j =>
                 nth j acc 0
                 + Qc_sum (map (fun i => weight i * nth j (direction i) 0)
                             idx))
            (seq 0 total)).
Proof.
  revert acc. induction idx as [|i idx IH]; intros acc Hacc.
  - cbn. f_equal. rewrite <- Hacc. rewrite <- (map_nth_seq acc) at 1.
    apply map_ext. intros j. scalar_ring.
  - cbn [fold_left add_weighted].
    rewrite IH
      by (unfold tadd; rewrite axpy_length_eq;
          rewrite ?scale_length, ?direction_length; assumption).
    f_equal. apply map_ext. intros j.
    unfold tadd. rewrite nth_axpy
      by (rewrite scale_length, direction_length; assumption).
    rewrite nth_scale. unfold Qc_sum. cbn [map fold_right]. scalar_ring.
Qed.

(** The average of the weighted directions is the averaged sum that the
    injection forms from the same weights. *)
Lemma weighted_average (n : nat) :
  n <> 0%nat ->
  option_map (fun g => tdiv g (of_nat n))
    (fold_left add_weighted (seq 0 n) None)
  = Some (averaged_sum direction (map weight (seq 0 n)) total).
Proof.
  intros Hn. destruct n as [|n]; [congruence|].
  cbn [seq fold_left add_weighted].
  rewrite add_weighted_sum by (rewrite scale_length; apply direction_length).
  cbn [option_map]. f_equal.
  unfold averaged_sum, averaged_sum_entry, tdiv.
  rewrite map_map. apply map_ext. intros j.
  change (0%nat :: seq 1 n) with (seq 0 (S n)).
  rewrite enumerate_map_seq, length_map, length_seq, map_map.
  cbn [fst snd]. rewrite nth_scale.
  change (seq 0 (S n)) with (0%nat :: seq 1 n).
  cbn [map]. unfold Qc_sum at 2. cbn [fold_right].
  fold (Qc_sum (map (fun i => nth j (direction i) 0 * weight i
                              / of_nat (S n)) (seq 1 n))).
  rewrite (map_ext (fun i => nth j (direction i) 0 * weight i / of_nat (S n))
             (fun i => (weight i * nth j (direction i) 0) / of_nat (S n)))
    by (intros i; unfold Qcdiv; scalar_ring).
  rewrite <- (map_map (fun i => weight i * nth j (direction i) 0)
                (fun x => x / of_nat (S n))).
  rewrite <- Qc_sum_div. unfold Qcdiv. scalar_ring.
Qed.

End FullGradient.

Section Replay.

Variable normal_sample : Sampler.
Variable norm : Tensor -> scalar.
Variables BatchInputs Labels : Type.
Variable self : RandomGradientEstimator.
Variable loss_fn : LossFn BatchInputs Labels.
Variable batch_inputs : BatchInputs.
Variable labels : Labels.
Variable seed : Z.

(** The directional gradients of one whole-vector estimate from [ps]. *)
Let estimates (ps : list Param) : Tensor :=
  map (directional_gradient self loss_fn batch_inputs labels
         (flat_direction normal_sample norm self seed) ps)
    (seq 0 (num_pert self)).

Lemma full_gradient_is_average (ps : list Param) :
  num_pert self <> 0%nat ->
  full_gradient self loss_fn batch_inputs labels
    (flat_direction normal_sample norm self seed) ps (num_pert self)
  = Some (averaged_sum (flat_direction normal_sample norm self seed)
            (estimates ps) (total_dimensions self)).
Proof.
  intros Hn.
  exact (weighted_average (flat_direction normal_sample norm self seed)
           (fun i => generate_perturbation_norm_length normal_sample norm self
                       (get_rng seed i))
           (directional_gradient self loss_fn batch_inputs labels
              (flat_direction normal_sample norm self seed) ps)
           Hn).
Qed.

Lemma estimates_not_nil (ps : list Param) :
  num_pert self <> 0%nat -> estimates ps <> [].
Proof. intros Hn. apply map_seq_not_nil. exact Hn. Qed.

(** X8. The full gradient [_zo_grad_estimate] returns beside the
    directional gradients is the vector the accumulation loop of
    [generate_then_put_grad] rebuilds from the seed and those directional
    gradients alone: its entry [j] is the sum over [i] of
    [direction_i[j] * dir_grads[i] / num_pert]. *)
Theorem zo_grad_estimate_full_gradient_is_replayable (st : Store) :
  dims_ok self st = true ->
  num_pert self <> 0%nat ->
  exists grad dir_grads st',
    _zo_grad_estimate normal_sample norm self batch_inputs labels loss_fn
      seed st
    = (Ok (grad, dir_grads), st')
    /\ accumulate_update normal_sample norm self seed dir_grads = Some grad
    /\ grad
       = map (fun j =>
                Qc_sum (map (fun x : nat * scalar =>
                               nth j (generate_perturbation_norm normal_sample
                                        norm self (get_rng seed (fst x))) 0
                               * snd x / of_nat (length dir_grads))
                          (enumerate dir_grads)))
           (seq 0 (total_dimensions self)).
Proof.
  intros Hdims Hn. apply dims_ok_le in Hdims.
  destruct st as [ps ev]. cbn [params] in Hdims.
  rewrite zo_grad_estimate_spec by assumption.
  rewrite full_gradient_is_average by assumption.
  eexists. eexists. eexists. split; [reflexivity|]. split; [|reflexivity].
  apply accumulate_update_averaged_sum. apply estimates_not_nil. exact Hn.
Qed.

(** X9. In the whole-vector mode, [compute_grad] with [is_put = True]
    leaves in the gradient slots exactly what [generate_then_put_grad]
    writes when it replays the seed and the directional gradients that the
    call returned; the parameter values are those before the call. *)
Theorem compute_grad_put_is_replayable (st : Store) :
  paramwise_perturb self = false ->
  dims_ok self st = true ->
  num_pert self <> 0%nat ->
  exists dir_grads st1 st2,
    compute_grad normal_sample norm self batch_inputs labels loss_fn seed
      true st
    = (Ok dir_grads, st1)
    /\ generate_then_put_grad normal_sample norm self seed dir_grads st
       = (Ok tt, st2)
    /\ params st1 = params st2
    /\ map data (params st1) = map data (params st).
Proof.
  intros Hmode Hdims Hn.
  assert (sum_numel (params st) <= total_dimensions self)%nat as Hle
    by (apply dims_ok_le; exact Hdims).
  destruct st as [ps ev]. cbn [params] in *.
  unfold compute_grad. rewrite Hmode. cbn [negb].
  pose proof (zo_grad_estimate_spec normal_sample norm self loss_fn
                batch_inputs labels seed ps ev Hle) as E.
  rewrite full_gradient_is_average in E by assumption.
  rewrite (bind_ok _ E). cbv iota. unfold bind at 1.
  rewrite put_grad_flat
    by (rewrite averaged_sum_length; cbn [params]; exact Hle).
  exists (estimates ps). unfold generate_then_put_grad.
  rewrite accumulate_update_averaged_sum
    by (apply estimates_not_nil; exact Hn).
  rewrite put_grad_flat by (rewrite averaged_sum_length; exact Hle).
  eexists. eexists. split; [reflexivity|]. split; [reflexivity|].
  cbn [params with_params]. split; [reflexivity|]. apply put_flat_data.
Qed.

End Replay.

(** * The two modes side by side *)

Section ModesAgree.

Variable normal_sample : Sampler.
Variable norm : Tensor -> scalar.
Variables BatchInputs Labels : Type.
Variable loss_fn : LossFn BatchInputs Labels.
Variable batch_inputs : BatchInputs.
Variable labels : Labels.
Variable seed : Z.

(** X10. With normalisation off, and provided that for each direction the
    tensors drawn parameter after parameter from the generator of its key,
    laid end to end, are the flat vector drawn from that generator (a
    property of the random source), the paramwise [compute_grad] and the
    whole-vector [compute_grad] with [is_put = True], on estimators with
    the same [mu], [num_pert] (at least 1) and method, are one and the same
    computation: the same directional gradients, the same gradient slots,
    the same loss evaluations, the same store. *)
Theorem compute_grad_modes_agree (self_w self_p : RandomGradientEstimator)
    (is_put : bool) (st : Store) :
  paramwise_perturb self_w = false ->
  paramwise_perturb self_p = true ->
  normalize_perturbation self_w = false ->
  mu self_p = mu self_w ->
  num_pert self_p = num_pert self_w ->
  grad_estimate_method self_p = grad_estimate_method self_w ->
  dims_ok self_w st = true ->
  num_pert self_w <> 0%nat ->
  (forall i : nat,
     (i < num_pert self_w)%nat ->
     concat (draw_like normal_sample (get_rng seed i) (params st))
     = fst (randn normal_sample (total_dimensions self_w) (get_rng seed i))) ->
  compute_grad normal_sample norm self_p batch_inputs labels loss_fn seed
    is_put st
  = compute_grad normal_sample norm self_w batch_inputs labels loss_fn seed
      true st.
Proof.
  intros Hw Hp Hnorm Hmu Hnum Hmeth Hdims Hn Hdraws.
  assert (total_dimensions self_w = sum_numel (params st)) as Hsum
    by (unfold dims_ok in Hdims; apply Nat.eqb_eq in Hdims; exact Hdims).
  destruct st as [ps ev]. cbn [params] in *.
  assert (forall i,
            (i < num_pert self_w)%nat ->
            paramwise_direction normal_sample seed ps i
            = flat_direction normal_sample norm self_w seed i) as Hdir.
  { intros i Hi.
    unfold paramwise_direction, flat_direction, generate_perturbation_norm.
    rewrite Hnorm. apply Hdraws. exact Hi. }
  assert (map (directional_gradient self_p loss_fn batch_inputs labels
                 (paramwise_direction normal_sample seed ps) ps)
            (seq 0 (num_pert self_p))
          = map (directional_gradient self_w loss_fn batch_inputs labels
                   (flat_direction normal_sample norm self_w seed) ps)
              (seq 0 (num_pert self_w))) as Hdgs.
  { rewrite Hnum. apply map_ext_in. intros i Hi. apply in_seq in Hi.
    unfold directional_gradient, L_plus, L_minus, denom.
    rewrite Hmu, Hmeth, Hdir by lia. reflexivity. }
  assert (estimate_evals self_p (paramwise_direction normal_sample seed ps)
            ps (num_pert self_p)
          = estimate_evals self_w
              (flat_direction normal_sample norm self_w seed) ps
              (num_pert self_w)) as Hev.
  { unfold estimate_evals. rewrite Hnum, Hmu, Hmeth.
    destruct (grad_estimate_method self_w).
    - rewrite !flat_map_concat_map. f_equal.
      apply map_ext_in. intros i Hi. apply in_seq in Hi.
      rewrite Hdir by lia. reflexivity.
    - f_equal. apply map_ext_in. intros i Hi. apply in_seq in Hi.
      rewrite Hdir by lia. reflexivity. }
  unfold compute_grad. rewrite Hw, Hp. cbn [negb].
  rewrite (bind_ok _ (zo_grad_estimate_paramwise_spec normal_sample self_p
                        loss_fn batch_inputs labels seed ps ev)).
  rewrite Hdgs, Hev.
  assert (map (directional_gradient self_w loss_fn batch_inputs labels
                 (flat_direction normal_sample norm self_w seed) ps)
            (seq 0 (num_pert self_w)) <> []) as Hne
    by (apply map_seq_not_nil; exact Hn).
  rewrite (bind_ok _ (generate_then_put_grad_paramwise_spec normal_sample
                        seed ps _ Hne)).
  assert (sum_numel ps <= total_dimensions self_w)%nat as Hle by lia.
  pose proof (zo_grad_estimate_spec normal_sample norm self_w loss_fn
                batch_inputs labels seed ps ev Hle) as E.
  rewrite (full_gradient_is_average normal_sample norm self_w loss_fn
             batch_inputs labels seed ps Hn) in E.
  rewrite (bind_ok _ E). cbv iota. unfold bind.
  rewrite put_grad_flat
    by (rewrite averaged_sum_length; cbn [params]; lia).
  unfold ret, with_params. cbn [params loss_evals].
  rewrite Hsum.
  rewrite (averaged_sum_ext_in
             (fun i => concat (draw_like normal_sample (get_rng seed i) ps))
             (flat_direction normal_sample norm self_w seed));
    [reflexivity|].
  intros i Hi. rewrite length_map, length_seq in Hi.
  rewrite <- Hdir by exact Hi. reflexivity.
Qed.

End ModesAgree.

(** * The update without optimizer state *)

Lemma axpy_scale (d z : Tensor) (a c : scalar) :
  axpy d (a * c) z = axpy d a (scale c z).
Proof.
  revert z. induction d as [|x d IH]; intros [|y z]; cbn; auto.
  fold (scale c z). rewrite IH. f_equal. scalar_ring.
Qed.

Lemma axpy_axpy_tadd (d u z : Tensor) (a c : scalar) :
  axpy (axpy d a u) (a * c) z = axpy d a (tadd u (scale c z)).
Proof.
  revert u z. induction d as [|x d IH]; intros [|y u] [|w z]; cbn; auto.
  fold (scale c z). fold (tadd u (scale c z)). rewrite IH. f_equal.
  scalar_ring.
Qed.

Lemma add_flat_scale (ps : list Param) (a c : scalar) (z : Tensor) :
  add_flat ps (a * c) z = add_flat ps a (scale c z).
Proof.
  revert z. induction ps as [|p ps IH]; intros z; [reflexivity|].
  cbn [add_flat]. rewrite IH, axpy_scale, firstn_scale, skipn_scale.
  reflexivity.
Qed.

Lemma add_flat_add_flat_tadd (ps : list Param) (a c : scalar) (u z : Tensor) :
  (sum_numel ps <= length u)%nat ->
  add_flat (add_flat ps a u) (a * c) z
  = add_flat ps a (tadd u (scale c z)).
Proof.
  revert u z. induction ps as [|p ps IH]; intros u z H; [reflexivity|].
  change (sum_numel (p :: ps)) with (numel p + sum_numel ps)%nat in H.
  cbn [add_flat].
  assert (numel (set_data p (axpy (data p) a (firstn (numel p) u)))
          = numel p) as Hn.
  { unfold numel at 1. cbn [data set_data]. rewrite axpy_length_eq;
      [reflexivity|]. rewrite length_firstn. unfold numel in *. lia. }
  rewrite Hn, IH by (rewrite length_skipn; lia).
  unfold tadd. rewrite firstn_axpy, skipn_axpy, firstn_scale, skipn_scale.
  unfold set_data. cbn [data requires_grad grad].
  rewrite axpy_axpy_tadd. reflexivity.
Qed.

Lemma sgd_step_plain (lr : scalar) (ps : list Param) (G : Tensor) :
  (sum_numel ps <= length G)%nat ->
  sgd_step lr 0 (put_flat ps G) = put_flat (add_flat ps (- lr) G) G.
Proof.
  revert G. induction ps as [|p ps IH]; intros G H; [reflexivity|].
  change (sum_numel (p :: ps)) with (numel p + sum_numel ps)%nat in H.
  cbn [put_flat add_flat sgd_step map].
  fold (sgd_step lr 0 (put_flat ps (skipn (numel p) G))).
  rewrite IH by (rewrite length_skipn; lia).
  assert (numel (set_data p (axpy (data p) (- lr) (firstn (numel p) G)))
          = numel p) as Hn.
  { unfold numel at 1. cbn [data set_data]. rewrite axpy_length_eq;
      [reflexivity|]. rewrite length_firstn. unfold numel in *. lia. }
  rewrite Hn. reflexivity.
Qed.

Section NoOptim.

Variable normal_sample : Sampler.
Variable seed : Z.
Variable lr : scalar.

(** The flat vector of the per-parameter draws of the direction [i]. *)
Let draws (ps : list Param) (i : nat) : Tensor :=
  concat (draw_like normal_sample (get_rng seed i) ps).

(** One turn of the loop of [sgd_no_optim_update_model]. *)
Let turn (n : nat) (x : nat * scalar) (_ : unit) : M unit :=
  let '(i, dir_grad) := x in
  let rng := get_rng seed i in
  for_params (add_randn_body normal_sample (- lr * dir_grad / of_nat n)) rng ;;;
  ret tt.

Lemma no_optim_turn (n i : nat) (dg : scalar) (qs : list Param)
    (ev : list (list Tensor)) :
  turn n (i, dg) tt (mkStore qs ev)
  = (Ok tt, mkStore (add_flat qs (- lr * (dg / of_nat n)) (draws qs i)) ev).
Proof.
  unfold turn, bind, for_params. cbn [params].
  rewrite add_randn_loop. cbn [with_params loss_evals ret].
  replace (- lr * dg / of_nat n) with (- lr * (dg / of_nat n))
    by (unfold Qcdiv; scalar_ring).
  reflexivity.
Qed.

Lemma no_optim_later_turns (n : nat) (ps : list Param)
    (l : list (nat * scalar)) :
  forall (acc : Tensor) (ev : list (list Tensor)),
    length acc = sum_numel ps ->
    exists acc',
      fold_left (add_direction (draws ps) n) l (Some acc) = Some acc'
      /\ for_each l (turn n) tt (mkStore (add_flat ps (- lr) acc) ev)
         = (Ok tt, mkStore (add_flat ps (- lr) acc') ev).
Proof.
  induction l as [|[i dg] l IH]; intros acc ev Hacc.
  - exists acc. split; reflexivity.
  - cbn [for_each fold_left add_direction].
    rewrite (bind_ok _ (no_optim_turn n i dg _ ev)).
    assert (draws (add_flat ps (- lr) acc) i = draws ps i) as Hd
      by (unfold draws;
          rewrite (draw_like_numel normal_sample (add_flat ps (- lr) acc) ps)
            by (apply add_flat_numel; lia);
          reflexivity).
    rewrite Hd, add_flat_add_flat_tadd by lia.
    apply IH. unfold tadd, draws.
    rewrite axpy_length_eq; rewrite ?scale_length, ?draw_like_length; assumption.
Qed.

Lemma sgd_no_optim_update_model_spec (dir_grads : Tensor) (ps : list Param)
    (ev : list (list Tensor)) :
  dir_grads <> [] ->
  sgd_no_optim_update_model normal_sample dir_grads seed lr (mkStore ps ev)
  = (Ok tt,
     mkStore (add_flat ps (- lr)
                (averaged_sum (draws ps) dir_grads (sum_numel ps))) ev).
Proof.
  intros Hne.
  assert (forall i, length (draws ps i) = sum_numel ps) as Hdraw
    by (intros i; apply draw_like_length).
  pose proof (add_direction_averaged_sum (draws ps) Hdraw Hne) as Hsum.
  destruct dir_grads as [|dg dgs]; [congruence|].
  unfold sgd_no_optim_update_model. rewrite enumerate_cons in *.
  cbn [fold_left add_direction] in Hsum.
  change (for_each ((0%nat, dg) :: combine (seq 1 (length dgs)) dgs)
            (turn (length (dg :: dgs))) tt (mkStore ps ev)
          = (Ok tt,
             mkStore (add_flat ps (- lr)
                        (averaged_sum (draws ps) (dg :: dgs) (sum_numel ps)))
               ev)).
  cbn [for_each].
  rewrite (bind_ok _ (no_optim_turn (length (dg :: dgs)) 0 dg ps ev)).
  rewrite add_flat_scale.
  destruct (no_optim_later_turns (length (dg :: dgs)) ps
              (combine (seq 1 (length dgs)) dgs)
              (scale (dg / of_nat (length (dg :: dgs))) (draws ps 0)) ev)
    as (acc' & Hacc' & E).
  - rewrite scale_length. apply Hdraw.
  - rewrite E. rewrite Hacc' in Hsum. injection Hsum as ->. reflexivity.
Qed.

(** X11. For a vector of directional gradients that is not empty,
    [sgd_no_optim_update_model] leaves every parameter with the value that
    the paramwise injection followed by one step of plain SGD (learning
    rate [lr], no weight decay, no momentum) gives it, in exact
    arithmetic, and it leaves the gradient slots as they were. *)
Theorem sgd_no_optim_update_is_plain_sgd_step (dir_grads : Tensor)
    (st : Store) :
  dir_grads <> [] ->
  exists st1 st2,
    sgd_no_optim_update_model normal_sample dir_grads seed lr st = (Ok tt, st1)
    /\ (generate_then_put_grad_paramwise normal_sample seed dir_grads ;;;
        optimizer_step (SGD lr 0)) st
       = (Ok tt, st2)
    /\ map data (params st1) = map data (params st2)
    /\ map grad (params st1) = map grad (params st)
    /\ loss_evals st1 = loss_evals st.
Proof.
  intros Hne. destruct st as [ps ev].
  rewrite sgd_no_optim_update_model_spec by assumption.
  rewrite (bind_ok _ (generate_then_put_grad_paramwise_spec normal_sample
                        seed ps ev Hne)).
  eexists. eexists. split; [reflexivity|]. split; [reflexivity|].
  cbn [params with_params loss_evals step SGD].
  rewrite sgd_step_plain by (rewrite averaged_sum_length; lia).
  rewrite put_flat_data, add_flat_grad.
  split; [reflexivity|]. split; reflexivity.
Qed.

End NoOptim.

(** * Where update and revert stop *)

Section Stops.

Variable normal_sample : Sampler.
Variable norm : Tensor -> scalar.
Variable self : RandomGradientEstimator.

(** The injection of a recorded step, in the mode of the estimator: it
    fills the gradient slots with the slices of one vector as long as the
    parameters. *)
Lemma inject_fills_slots (seed : Z) (dir_grads : Tensor) (ps : list Param)
    (ev : list (list Tensor)) :
  dir_grads <> [] ->
  total_dimensions self = sum_numel ps ->
  exists G,
    length G = sum_numel ps
    /\ (if paramwise_perturb self
        then generate_then_put_grad_paramwise normal_sample seed dir_grads
        else generate_then_put_grad normal_sample norm self seed dir_grads)
         (mkStore ps ev)
       = (Ok tt, mkStore (put_flat ps G) ev).
Proof.
  intros Hne Hdims.
  pose proof (inject_spec normal_sample norm self 0 0 (seed, dir_grads) ps ev
                Hne Hdims) as E.
  cbv beta in E. cbn [fst snd] in E.
  eexists. split; [|exact E].
  destruct (paramwise_perturb self); rewrite averaged_sum_length; auto.
Qed.

(** X12. With a weight decay [wd > 0] and [lr * wd = 1], the revert of a
    recorded step raises ZeroDivisionError at the first parameter, after
    the gradient has been injected again and [lr * grad] has been added to
    that parameter: the first parameter is left with that sum and with the
    gradient in its slot, the values of the other parameters are
    untouched, and no later recorded step is reverted. *)
Theorem revert_stops_on_zero_decay_factor (lr wd : scalar) (seed : Z)
    (dir_grads : Tensor) (iteration_seeds : list Z)
    (iteration_grad_scalar : list Tensor) (p : Param) (rest : list Param)
    (ev : list (list Tensor)) :
  sgd_only_no_optim self = false ->
  total_dimensions self = sum_numel (p :: rest) ->
  dir_grads <> [] ->
  length iteration_seeds = length iteration_grad_scalar ->
  0 < wd ->
  lr * wd = 1 ->
  exists g rest',
    revert_model_given_seed_and_grad normal_sample norm self (SGD lr wd)
      (seed :: iteration_seeds) (dir_grads :: iteration_grad_scalar)
      (mkStore (p :: rest) ev)
    = (Raise ZeroDivisionError,
       mkStore ({| requires_grad := requires_grad p;
                   data := axpy (data p) lr g;
                   grad := Some g |} :: rest') ev)
    /\ length g = numel p
    /\ map data rest' = map data rest.
Proof.
  intros Hopt Hdims Hne Hlen Hwd Hz.
  destruct (inject_fills_slots seed (p :: rest) ev Hne Hdims)
    as (G & HG & Einj).
  change (sum_numel (p :: rest)) with (numel p + sum_numel rest)%nat in HG.
  assert (length (firstn (numel p) G) = numel p) as Hg
    by (rewrite length_firstn; lia).
  exists (firstn (numel p) G), (put_flat rest (skipn (numel p) G)).
  split; [|split; [exact Hg | apply put_flat_data]].
  unfold revert_model_given_seed_and_grad.
  rewrite Hopt. cbn [length]. rewrite Hlen, Nat.eqb_refl.
  cbn [negb assert SGD isinstance_SGD defaults_momentum defaults_lr
       defaults_weight_decay andb combine for_each].
  change (Qc_eqb 0 0) with true. cbv iota.
  unfold bind at 1. cbn [ret]. unfold bind at 1. cbn [ret].
  unfold bind at 1. cbn [ret].
  unfold revert_model_step at 1.
  rewrite (bind_raise _ (m := _ ;;; _) (e := ZeroDivisionError)
             (st' := mkStore
                       ({| requires_grad := requires_grad p;
                           data := axpy (data p) lr (firstn (numel p) G);
                           grad := Some (firstn (numel p) G) |}
                        :: put_flat rest (skipn (numel p) G)) ev));
    [reflexivity|].
  rewrite (bind_ok _ Einj).
  unfold for_params. cbn [params put_flat for_params_list].
  unfold revert_param at 1. cbn [grad set_grad data].
  unfold add_. rewrite Hg.
  replace (Nat.eqb (length (data p)) (numel p)) with true
    by (symmetry; apply Nat.eqb_refl).
  apply Qc_ltb_true in Hwd. rewrite Hwd.
  assert (Qc_eqb (1 - lr * wd) 0 = true) as Hq
    by (apply Qc_eqb_true; rewrite Hz; scalar_ring).
  rewrite Hq. reflexivity.
Qed.

(** X13. The assertions of the driver: update and revert with lists of
    different lengths, revert on an estimator configured with
    [sgd_only_no_optim], and the optimizer-free update on an estimator
    that is not paramwise, all raise AssertionError and leave the store
    untouched. *)
Theorem driver_assertions (optimizer : Optimizer) (iteration_seeds : list Z)
    (iteration_grad_scalar : list Tensor) (st : Store) :
  (length iteration_seeds <> length iteration_grad_scalar ->
   update_model_given_seed_and_grad normal_sample norm self optimizer
     iteration_seeds iteration_grad_scalar st
   = (Raise AssertionError, st)
   /\ revert_model_given_seed_and_grad normal_sample norm self optimizer
        iteration_seeds iteration_grad_scalar st
      = (Raise AssertionError, st))
  /\ (sgd_only_no_optim self = true ->
      revert_model_given_seed_and_grad normal_sample norm self optimizer
        iteration_seeds iteration_grad_scalar st
      = (Raise AssertionError, st))
  /\ (sgd_only_no_optim self = true ->
      paramwise_perturb self = false ->
      update_model_given_seed_and_grad normal_sample norm self optimizer
        iteration_seeds iteration_grad_scalar st
      = (Raise AssertionError, st)).
Proof.
  split; [|split].
  - intros Hlen. apply Nat.eqb_neq in Hlen.
    unfold update_model_given_seed_and_grad,
      revert_model_given_seed_and_grad, bind, assert.
    rewrite Hlen. destruct (sgd_only_no_optim self); split; reflexivity.
  - intros Hopt. unfold revert_model_given_seed_and_grad. rewrite Hopt.
    reflexivity.
  - intros Hopt Hmode.
    unfold update_model_given_seed_and_grad, bind, assert.
    rewrite Hopt, Hmode.
    destruct (Nat.eqb (length iteration_seeds) (length iteration_grad_scalar));
      reflexivity.
Qed.

End Stops.

(** * What [compute_grad] leaves of the parameters *)

Lemma put_grad_keeps_data (g : Tensor) (st : Store) :
  map data (params (snd (put_grad g st))) = map data (params st).
Proof.
  pose proof (put_grad_loop_data g (params st) 0%nat) as H.
  unfold put_grad, bind, for_params.
  destruct (for_params_list (put_grad_body g) (params st) 0%nat)
    as [[s|e] ps']; exact H.
Qed.

Section ComputeGradFrame.

Variable normal_sample : Sampler.
Variable norm : Tensor -> scalar.
Variables BatchInputs Labels : Type.
Variable self : RandomGradientEstimator.
Variable loss_fn : LossFn BatchInputs Labels.
Variable batch_inputs : BatchInputs.
Variable labels : Labels.
Variable seed : Z.

Lemma compute_grad_returning (is_put : bool) (st : Store) :
  paramwise_perturb self = true \/ dims_ok self st = true ->
  map data
    (params (snd (compute_grad normal_sample norm self batch_inputs labels
                    loss_fn seed is_put st)))
  = map data (params st).
Proof.
  intros H. destruct st as [ps ev]. unfold compute_grad.
  destruct (paramwise_perturb self) eqn:Hmode; cbn [negb].
  - rewrite (bind_ok _ (zo_grad_estimate_paramwise_spec normal_sample self
                          loss_fn batch_inputs labels seed ps ev)).
    destruct (num_pert self) as [|n] eqn:Hn.
    + reflexivity.
    + assert (map (directional_gradient self loss_fn batch_inputs labels
                     (paramwise_direction normal_sample seed ps) ps)
                (seq 0 (S n)) <> []) as Hne by discriminate.
      rewrite (bind_ok _ (generate_then_put_grad_paramwise_spec normal_sample
                            seed ps _ Hne)).
      cbn [snd ret params]. apply put_flat_data.
  - destruct H as [H | Hdims]; [discriminate|].
    apply dims_ok_le in Hdims. cbn [params] in Hdims.
    pose proof (zo_grad_estimate_spec normal_sample norm self loss_fn
                  batch_inputs labels seed ps ev Hdims) as E.
    destruct (full_gradient self loss_fn batch_inputs labels
                (flat_direction normal_sample norm self seed) ps
                (num_pert self)) as [g|].
    + rewrite (bind_ok _ E). destruct is_put; [|reflexivity].
      unfold bind.
      match goal with |- context [put_grad g ?s] =>
        pose proof (put_grad_keeps_data g s) as Hd;
        destruct (put_grad g s) as [[u|e] st'] end;
        exact Hd.
    + rewrite (bind_raise _ E). reflexivity.
Qed.

(** The loss evaluation that precedes the loop, for a callable that raises
    or returns. *)
Lemma initial_minus_loss_returns (loss : Loss BatchInputs Labels)
    (ps : list Param) (ev : list (list Tensor)) :
  (grad_estimate_method self = rge_forward ->
   exists v, loss batch_inputs labels (map data ps) = Ok v) ->
  exists pml,
    initial_minus_loss self loss batch_inputs labels (mkStore ps ev)
    = (Ok pml,
       mkStore ps
         (ev ++ match grad_estimate_method self with
                | rge_central => []
                | rge_forward => [map data ps]
                end)).
Proof.
  intros Hbase. unfold initial_minus_loss.
  destruct (grad_estimate_method self).
  - exists None. rewrite app_nil_r. reflexivity.
  - destruct (Hbase eq_refl) as [v Hv]. exists (Some v).
    unfold bind, eval_loss. cbn [params loss_evals]. rewrite Hv. reflexivity.
Qed.

(** X14. When every loss evaluation returns, [compute_grad] leaves every
    parameter with the value it had before the call, in exact arithmetic,
    whatever the mode, [is_put] and the number of directions: each
    perturbation is undone before the next one, and the injection writes
    gradient slots only.  When the loss raises at the first perturbed
    point, nothing undoes the perturbation: the exception leaves
    [compute_grad] and the parameters stay at their values plus
    [mu * direction_0].  (In the whole-vector mode the estimator must have
    been built for the parameters at hand; the in-place additions of the
    paramwise mode run with gradient tracking off.) *)
Theorem compute_grad_leaves_values (is_put : bool) (st : Store) :
  paramwise_perturb self = true \/ dims_ok self st = true ->
  map data
    (params (snd (compute_grad normal_sample norm self batch_inputs labels
                    loss_fn seed is_put st)))
  = map data (params st)
  /\ (forall (loss : Loss BatchInputs Labels) (e : exn),
        let direction :=
          if paramwise_perturb self
          then paramwise_direction normal_sample seed (params st) 0
          else flat_direction normal_sample norm self seed 0 in
        let moved := add_flat (params st) (mu self) direction in
        num_pert self <> 0%nat ->
        (grad_estimate_method self = rge_forward ->
         exists v, loss batch_inputs labels (map data (params st)) = Ok v) ->
        loss batch_inputs labels (map data moved) = Raise e ->
        compute_grad normal_sample norm self batch_inputs labels loss seed
          is_put st
        = (Raise e,
           {| params := moved;
              loss_evals :=
                loss_evals st
                ++ match grad_estimate_method self with
                   | rge_central => []
                   | rge_forward => [map data (params st)]
                   end
                ++ [map data moved] |})).
Proof.
  intros H. split; [apply compute_grad_returning; exact H|].
  intros loss e direction moved Hn Hbase Hraise.
  destruct st as [ps ev]. cbn [params loss_evals] in *.
  destruct (initial_minus_loss_returns loss ps ev Hbase) as [pml Einit].
  destruct (num_pert self) as [|n] eqn:Hnum; [congruence|].
  unfold compute_grad.
  destruct (paramwise_perturb self) eqn:Hmode; cbn [negb].
  - apply bind_raise. unfold _zo_grad_estimate_paramwise.
    rewrite (bind_ok _ Einit), Hnum. apply bind_raise.
    cbn [seq for_each]. apply bind_raise.
    unfold _zo_grad_estimate_paramwise_step. cbv zeta.
    rewrite (bind_ok _ (perturb_model_paramwise_flat normal_sample _ _ _)).
    apply bind_raise. unfold eval_loss. cbn [params loss_evals with_params].
    fold (paramwise_direction normal_sample seed ps 0).
    fold direction. fold moved. rewrite Hraise, <- app_assoc. reflexivity.
  - destruct H as [H | Hdims]; [discriminate|].
    apply dims_ok_le in Hdims. cbn [params] in Hdims.
    apply bind_raise. unfold _zo_grad_estimate.
    rewrite (bind_ok _ Einit), Hnum. apply bind_raise.
    cbn [seq for_each]. apply bind_raise.
    unfold _zo_grad_estimate_step. cbv zeta.
    assert (sum_numel ps
            <= length (generate_perturbation_norm normal_sample norm self
                         (get_rng seed 0)))%nat as Hlen
      by (rewrite generate_perturbation_norm_length; exact Hdims).
    pose proof (fun ev' =>
                  perturb_model_flat
                    (generate_perturbation_norm normal_sample norm self
                       (get_rng seed 0))
                    (mu self) (mkStore ps ev') Hlen) as Hp.
    rewrite (bind_ok _ (Hp _)).
    apply bind_raise. unfold eval_loss. cbn [params loss_evals with_params].
    fold (flat_direction normal_sample norm self seed 0).
    fold direction. fold moved. rewrite Hraise, <- app_assoc. reflexivity.
Qed.

End ComputeGradFrame.

(** * The two update paths *)

Lemma add_flat_data_congr (ps qs : list Param) (alpha : scalar) (v : Tensor) :
  map data ps = map data qs ->
  map data (add_flat ps alpha v) = map data (add_flat qs alpha v).
Proof.
  revert qs v. induction ps as [|p ps IH]; intros [|q qs] v H;
    try discriminate; [reflexivity|].
  cbn [map] in H. injection H as Hd Hrest.
  cbn [add_flat map data set_data]. unfold numel. rewrite Hd.
  f_equal. apply IH. exact Hrest.
Qed.

Lemma numel_data_congr (ps qs : list Param) :
  map data ps = map data qs -> map numel ps = map numel qs.
Proof.
  intros H. apply (f_equal (map (@length scalar))) in H.
  rewrite !map_map in H. exact H.
Qed.

Lemma sum_numel_data_congr (ps qs : list Param) :
  map data ps = map data qs -> sum_numel ps = sum_numel qs.
Proof.
  intros H. unfold sum_numel. f_equal. apply numel_data_congr. exact H.
Qed.

Section UpdatePaths.

Variable normal_sample : Sampler.
Variable norm : Tensor -> scalar.
Variable lr : scalar.

(** The gradient the paramwise injection forms for the recorded step [x]
    over the parameters [ps]. *)
Let G (ps : list Param) (x : Z * Tensor) : Tensor :=
  averaged_sum
    (fun i => concat (draw_like normal_sample (get_rng (fst x) i) ps))
    (snd x) (sum_numel ps).

Let step_n (ps : list Param) (x : Z * Tensor) : list Param :=
  add_flat ps (- lr) (G ps x).

Let step_o (qs : list Param) (x : Z * Tensor) : list Param :=
  put_flat (add_flat qs (- lr) (G qs x)) (G qs x).

(** The loop body of the optimizer-free branch of
    [update_model_given_seed_and_grad]. *)
Let body_n (x : Z * Tensor) (_ : unit) : M unit :=
  let '(one_update_seed, one_update_grad_dirs) := x in
  sgd_no_optim_update_model normal_sample one_update_grad_dirs
    one_update_seed lr.

Lemma no_optim_loop (l : list (Z * Tensor)) :
  Forall (fun x => snd x <> []) l ->
  forall ps ev,
    for_each l body_n tt (mkStore ps ev)
    = (Ok tt, mkStore (fold_left step_n l ps) ev).
Proof.
  induction 1 as [|[seed dgs] l Hx Hl IH]; intros ps ev; [reflexivity|].
  cbn [for_each fold_left body_n].
  rewrite (bind_ok _ (sgd_no_optim_update_model_spec normal_sample seed lr
                        ps ev Hx)).
  apply IH.
Qed.

Lemma optimizer_loop (self : RandomGradientEstimator)
    (l : list (Z * Tensor)) :
  paramwise_perturb self = true ->
  Forall (fun x => snd x <> []) l ->
  forall qs ev,
    for_each l (update_model_step normal_sample norm self (SGD lr 0)) tt
      (mkStore qs ev)
    = (Ok tt, mkStore (fold_left step_o l qs) ev).
Proof.
  intros Hmode.
  induction 1 as [|[seed dgs] l Hx Hl IH]; intros qs ev; [reflexivity|].
  cbn [for_each fold_left]. unfold update_model_step at 1. rewrite Hmode.
  rewrite (bind_ok _ (bind_ok _ (generate_then_put_grad_paramwise_spec
                                   normal_sample seed qs ev Hx))).
  unfold optimizer_step. cbn [params with_params loss_evals step SGD].
  rewrite sgd_step_plain by (rewrite averaged_sum_length; lia).
  apply IH.
Qed.

Lemma steps_keep_data_equal (l : list (Z * Tensor)) :
  forall ps qs,
    map data ps = map data qs ->
    map data (fold_left step_n l ps) = map data (fold_left step_o l qs).
Proof.
  induction l as [|x l IH]; intros ps qs H; [exact H|].
  cbn [fold_left]. apply IH. unfold step_n, step_o.
  rewrite put_flat_data.
  assert (G ps x = G qs x) as ->.
  { unfold G. rewrite (sum_numel_data_congr _ _ H).
    apply averaged_sum_ext. intros i.
    rewrite (draw_like_numel normal_sample ps qs)
      by (apply numel_data_congr; exact H).
    reflexivity. }
  apply add_flat_data_congr. exact H.
Qed.

Lemma steps_keep_grads (l : list (Z * Tensor)) (ps : list Param) :
  map grad (fold_left step_n l ps) = map grad ps.
Proof.
  revert ps. induction l as [|x l IH]; intros ps; [reflexivity|].
  cbn [fold_left]. rewrite IH. apply add_flat_grad.
Qed.

(** X15. For recorded steps with at least one directional gradient each,
    the optimizer-free update ([sgd_only_no_optim], where only the learning
    rate of the optimizer is read) leaves every parameter with the value
    that the paramwise update through plain SGD with that learning rate, no
    weight decay and no momentum leaves it, in exact arithmetic; and unlike
    that update it leaves the gradient slots as they were. *)
Theorem update_paths_agree (self_n self_o : RandomGradientEstimator)
    (optimizer : Optimizer) (iteration_seeds : list Z)
    (iteration_grad_scalar : list Tensor) (st : Store) :
  sgd_only_no_optim self_n = true ->
  paramwise_perturb self_n = true ->
  sgd_only_no_optim self_o = false ->
  paramwise_perturb self_o = true ->
  defaults_lr optimizer = lr ->
  length iteration_seeds = length iteration_grad_scalar ->
  Forall (fun dir_grads => dir_grads <> []) iteration_grad_scalar ->
  exists st1 st2,
    update_model_given_seed_and_grad normal_sample norm self_n optimizer
      iteration_seeds iteration_grad_scalar st
    = (Ok tt, st1)
    /\ update_model_given_seed_and_grad normal_sample norm self_o (SGD lr 0)
         iteration_seeds iteration_grad_scalar st
       = (Ok tt, st2)
    /\ map data (params st1) = map data (params st2)
    /\ map grad (params st1) = map grad (params st).
Proof.
  intros Hn Hpn Ho Hpo Hlr Hlen Hgrads.
  set (l := combine iteration_seeds iteration_grad_scalar).
  assert (Forall (fun x : Z * Tensor => snd x <> []) l) as Hl.
  { apply Forall_forall. intros [seed dgs] Hin.
    apply in_combine_r in Hin. rewrite Forall_forall in Hgrads.
    apply Hgrads. exact Hin. }
  destruct st as [ps ev].
  exists (mkStore (fold_left step_n l ps) ev),
         (mkStore (fold_left step_o l ps) ev).
  split; [|split; [|split]].
  - unfold update_model_given_seed_and_grad.
    rewrite Hlen, Nat.eqb_refl, Hn, Hpn, Hlr.
    exact (no_optim_loop Hl ps ev).
  - unfold update_model_given_seed_and_grad.
    rewrite Hlen, Nat.eqb_refl, Ho.
    exact (optimizer_loop self_o Hpo Hl ps ev).
  - cbn [params]. apply steps_keep_data_equal. reflexivity.
  - cbn [params]. apply steps_keep_grads.
Qed.

End UpdatePaths.

(** * Revert without weight decay *)

Lemma axpy_comm (d u v : Tensor) (a b : scalar) :
  axpy (axpy d a u) b v = axpy (axpy d b v) a u.
Proof.
  revert u v. induction d as [|x d IH]; intros [|y u] [|z v]; cbn; auto.
  rewrite IH. f_equal. scalar_ring.
Qed.

Lemma add_flat_comm (ps : list Param) (a b : scalar) (u v : Tensor) :
  (sum_numel ps <= length u)%nat ->
  (sum_numel ps <= length v)%nat ->
  add_flat (add_flat ps a u) b v = add_flat (add_flat ps b v) a u.
Proof.
  revert u v. induction ps as [|p ps IH]; intros u v Hu Hv; [reflexivity|].
  change (sum_numel (p :: ps)) with (numel p + sum_numel ps)%nat in *.
  cbn [add_flat].
  assert (forall c w, (numel p <= length w)%nat ->
            numel (set_data p (axpy (data p) c (firstn (numel p) w)))
            = numel p) as Hn.
  { intros c w Hw. unfold numel at 1. cbn [data set_data].
    rewrite axpy_length_eq; [reflexivity|].
    rewrite length_firstn. unfold numel in *. lia. }
  rewrite !Hn by lia.
  rewrite IH by (rewrite length_skipn; lia).
  unfold set_data. cbn [data requires_grad grad].
  rewrite axpy_comm. reflexivity.
Qed.

Lemma revert_plain_loop (lr : scalar) (qs : list Param) (G : Tensor) :
  (sum_numel qs <= length G)%nat ->
  for_params_list (revert_param lr 0) (put_flat qs G) tt
  = (Ok tt, put_flat (add_flat qs lr G) G).
Proof.
  revert G. induction qs as [|q qs IH]; intros G H; [reflexivity|].
  change (sum_numel (q :: qs)) with (numel q + sum_numel qs)%nat in H.
  assert (length (firstn (numel q) G) = numel q) as Hg
    by (rewrite length_firstn; lia).
  cbn [put_flat add_flat for_params_list].
  unfold revert_param at 1. cbn [grad set_grad data].
  unfold add_. rewrite Hg.
  replace (Nat.eqb (length (data q)) (numel q)) with true
    by (symmetry; apply Nat.eqb_refl).
  change (Qc_ltb 0 0) with false. cbv iota.
  rewrite IH by (rewrite length_skipn; lia).
  assert (numel (set_data q (axpy (data q) lr (firstn (numel q) G)))
          = numel q) as Hn.
  { unfold numel at 1. cbn [data set_data]. rewrite axpy_length_eq;
      [reflexivity|]. rewrite Hg. reflexivity. }
  rewrite Hn. reflexivity.
Qed.

Lemma sum_numel_congr (ps qs : list Param) :
  map numel ps = map numel qs -> sum_numel ps = sum_numel qs.
Proof. intros H. unfold sum_numel. rewrite H. reflexivity. Qed.

Section PlainRevertLoops.

Variable normal_sample : Sampler.
Variable norm : Tensor -> scalar.
Variable self : RandomGradientEstimator.
Variable lr : scalar.

(** The parameters the update starts from; the steps change values and
    gradient slots, never a size. *)
Variable ps0 : list Param.
Hypothesis dims0 : total_dimensions self = sum_numel ps0.

(** The gradient injected for the recorded step [x], in the mode of the
    estimator, into parameters of the sizes of [ps0]. *)
Let inj (x : Z * Tensor) : Tensor :=
  if paramwise_perturb self
  then averaged_sum (paramwise_direction normal_sample (fst x) ps0) (snd x)
         (sum_numel ps0)
  else averaged_sum (flat_direction normal_sample norm self (fst x)) (snd x)
         (total_dimensions self).

Let shift (a : scalar) (ps : list Param) (x : Z * Tensor) : list Param :=
  add_flat ps a (inj x).

Let moved (a : scalar) (ps : list Param) (x : Z * Tensor) : list Param :=
  put_flat (add_flat ps a (inj x)) (inj x).

Lemma inj_length (x : Z * Tensor) : length (inj x) = sum_numel ps0.
Proof.
  unfold inj. destruct (paramwise_perturb self);
    rewrite averaged_sum_length; auto.
Qed.

Lemma inject_inj (x : Z * Tensor) (ps : list Param) (ev : list (list Tensor)) :
  snd x <> [] ->
  map numel ps = map numel ps0 ->
  (if paramwise_perturb self
   then generate_then_put_grad_paramwise normal_sample (fst x) (snd x)
   else generate_then_put_grad normal_sample norm self (fst x) (snd x))
    (mkStore ps ev)
  = (Ok tt, mkStore (put_flat ps (inj x)) ev).
Proof.
  intros Hne Hnumel.
  assert (total_dimensions self = sum_numel ps) as Hdims
    by (rewrite (sum_numel_congr _ _ Hnumel); exact dims0).
  pose proof (inject_spec normal_sample norm self 0 0 x ps ev Hne Hdims) as E.
  cbv beta in E. rewrite E. unfold inj, paramwise_direction.
  rewrite (sum_numel_congr _ _ Hnumel).
  destruct (paramwise_perturb self); [|reflexivity].
  do 3 f_equal. apply averaged_sum_ext. intros i.
  rewrite (draw_like_numel normal_sample ps ps0) by exact Hnumel.
  reflexivity.
Qed.

Lemma shift_numel (a : scalar) (ps : list Param) (x : Z * Tensor) :
  map numel ps = map numel ps0 ->
  map numel (shift a ps x) = map numel ps0.
Proof.
  intros H. unfold shift. rewrite add_flat_numel; [exact H|].
  rewrite inj_length, (sum_numel_congr _ _ H). lia.
Qed.

Lemma moved_numel (a : scalar) (ps : list Param) (x : Z * Tensor) :
  map numel ps = map numel ps0 ->
  map numel (moved a ps x) = map numel ps0.
Proof.
  intros H. unfold moved. rewrite put_flat_numel. apply shift_numel. exact H.
Qed.

Lemma plain_update_loop (l : list (Z * Tensor)) :
  Forall (fun x => snd x <> []) l ->
  forall ps ev,
    map numel ps = map numel ps0 ->
    for_each l (update_model_step normal_sample norm self (SGD lr 0)) tt
      (mkStore ps ev)
    = (Ok tt, mkStore (fold_left (moved (- lr)) l ps) ev).
Proof.
  induction 1 as [|x l Hx Hl IH]; intros ps ev Hnumel; [reflexivity|].
  cbn [for_each fold_left]. unfold update_model_step at 1.
  destruct x as [seed dgs].
  rewrite (bind_ok _ (bind_ok _ (inject_inj (seed, dgs) ps ev Hx Hnumel))).
  unfold optimizer_step. cbn [params with_params loss_evals step SGD].
  rewrite sgd_step_plain
    by (rewrite inj_length, (sum_numel_congr _ _ Hnumel); lia).
  apply IH. fold (moved (- lr) ps (seed, dgs)).
  apply moved_numel. exact Hnumel.
Qed.

Lemma plain_revert_loop (l : list (Z * Tensor)) :
  Forall (fun x => snd x <> []) l ->
  forall qs ev,
    map numel qs = map numel ps0 ->
    for_each l (revert_model_step normal_sample norm self lr 0) tt
      (mkStore qs ev)
    = (Ok tt, mkStore (fold_left (moved lr) l qs) ev).
Proof.
  induction 1 as [|x l Hx Hl IH]; intros qs ev Hnumel; [reflexivity|].
  cbn [for_each fold_left]. unfold revert_model_step at 1.
  destruct x as [seed dgs].
  unfold bind at 1.
  rewrite (bind_ok _ (inject_inj (seed, dgs) qs ev Hx Hnumel)).
  unfold for_params. cbn [params].
  rewrite revert_plain_loop
    by (rewrite inj_length, (sum_numel_congr _ _ Hnumel); lia).
  cbn [with_params loss_evals].
  apply IH. fold (moved lr qs (seed, dgs)).
  apply moved_numel. exact Hnumel.
Qed.

Lemma moved_data (a : scalar) (l : list (Z * Tensor)) :
  forall ps qs,
    map data ps = map data qs ->
    map data (fold_left (moved a) l ps) = map data (fold_left (shift a) l qs).
Proof.
  induction l as [|x l IH]; intros ps qs H; [exact H|].
  cbn [fold_left]. apply IH. unfold moved, shift.
  rewrite put_flat_data. apply add_flat_data_congr. exact H.
Qed.

Lemma shifts_numel (a : scalar) (l : list (Z * Tensor)) :
  forall ps,
    map numel ps = map numel ps0 ->
    map numel (fold_left (shift a) l ps) = map numel ps0.
Proof.
  induction l as [|x l IH]; intros ps H; [exact H|].
  cbn [fold_left]. apply IH. apply shift_numel. exact H.
Qed.

Lemma shift_through (a b : scalar) (x : Z * Tensor) (l : list (Z * Tensor)) :
  forall ps,
    map numel ps = map numel ps0 ->
    shift b (fold_left (shift a) l ps) x = fold_left (shift a) l (shift b ps x).
Proof.
  induction l as [|y l IH]; intros ps H; [reflexivity|].
  cbn [fold_left].
  rewrite IH by (apply shift_numel; exact H).
  f_equal. unfold shift.
  apply add_flat_comm; rewrite inj_length, (sum_numel_congr _ _ H); lia.
Qed.

Lemma shifts_cancel (l : list (Z * Tensor)) :
  forall ps,
    map numel ps = map numel ps0 ->
    fold_left (shift lr) l (fold_left (shift (- lr)) l ps) = ps.
Proof.
  induction l as [|x l IH]; intros ps H; [reflexivity|].
  cbn [fold_left].
  rewrite shift_through by (apply shift_numel; exact H).
  assert (shift lr (shift (- lr) ps x) x = ps) as Hback.
  { unfold shift.
    rewrite add_flat_add
      by (rewrite inj_length, (sum_numel_congr _ _ H); lia).
    replace (- lr + lr) with 0 by scalar_ring.
    apply add_flat_0. rewrite inj_length, (sum_numel_congr _ _ H). lia. }
  rewrite Hback. apply IH. exact H.
Qed.

(** The update by plain SGD of the recorded steps [l] from [ps0], then
    their revert in the same order. *)
Lemma plain_update_then_revert (l : list (Z * Tensor))
    (ev : list (list Tensor)) :
  Forall (fun x => snd x <> []) l ->
  exists ps1 ps2,
    for_each l (update_model_step normal_sample norm self (SGD lr 0)) tt
      (mkStore ps0 ev)
    = (Ok tt, mkStore ps1 ev)
    /\ for_each l (revert_model_step normal_sample norm self lr 0) tt
         (mkStore ps1 ev)
       = (Ok tt, mkStore ps2 ev)
    /\ map data ps2 = map data ps0.
Proof.
  intros Hl.
  assert (map data (fold_left (moved (- lr)) l ps0)
          = map data (fold_left (shift (- lr)) l ps0)) as Hup
    by (apply moved_data; reflexivity).
  assert (map numel (fold_left (moved (- lr)) l ps0) = map numel ps0)
    as Hnumel1
    by (rewrite (numel_data_congr _ _ Hup); apply shifts_numel; reflexivity).
  exists (fold_left (moved (- lr)) l ps0),
         (fold_left (moved lr) l (fold_left (moved (- lr)) l ps0)).
  split; [|split].
  - apply plain_update_loop; [exact Hl | reflexivity].
  - apply plain_revert_loop; [exact Hl | exact Hnumel1].
  - rewrite (moved_data lr l _ _ Hup).
    rewrite shifts_cancel by reflexivity. reflexivity.
Qed.

End PlainRevertLoops.

Section PlainRevert.

Variable normal_sample : Sampler.
Variable norm : Tensor -> scalar.
Variable self : RandomGradientEstimator.
Variable lr : scalar.

(** X16. Without weight decay the order of the revert does not matter:
    for plain SGD with learning rate [lr], reverting the recorded steps in
    the very order of the update (not reversed) also gives every parameter
    the value it had before the update, in exact arithmetic. *)
Theorem revert_in_update_order_without_weight_decay
    (iteration_seeds : list Z) (iteration_grad_scalar : list Tensor)
    (st : Store) :
  sgd_only_no_optim self = false ->
  dims_ok self st = true ->
  length iteration_seeds = length iteration_grad_scalar ->
  Forall (fun dir_grads => dir_grads <> []) iteration_grad_scalar ->
  exists st1 st2,
    update_model_given_seed_and_grad normal_sample norm self (SGD lr 0)
      iteration_seeds iteration_grad_scalar st
    = (Ok tt, st1)
    /\ revert_model_given_seed_and_grad normal_sample norm self (SGD lr 0)
         iteration_seeds iteration_grad_scalar st1
       = (Ok tt, st2)
    /\ map data (params st2) = map data (params st).
Proof.
  intros Hopt Hdims Hlen Hgrads.
  assert (total_dimensions self = sum_numel (params st)) as Hsum
    by (unfold dims_ok in Hdims; apply Nat.eqb_eq in Hdims; exact Hdims).
  destruct st as [ps ev]. cbn [params] in *.
  set (l := combine iteration_seeds iteration_grad_scalar).
  assert (Forall (fun x : Z * Tensor => snd x <> []) l) as Hl.
  { apply Forall_forall. intros [seed dgs] Hin.
    apply in_combine_r in Hin. rewrite Forall_forall in Hgrads.
    apply Hgrads. exact Hin. }
  destruct (@plain_update_then_revert normal_sample norm self lr ps Hsum l ev
              Hl)
    as (ps1 & ps2 & Eup & Erev & Hdata).
  exists (mkStore ps1 ev), (mkStore ps2 ev).
  split; [|split].
  - unfold update_model_given_seed_and_grad.
    rewrite Hlen, Nat.eqb_refl, Hopt. exact Eup.
  - unfold revert_model_given_seed_and_grad.
    rewrite Hopt, Hlen, Nat.eqb_refl. exact Erev.
  - exact Hdata.
Qed.

End PlainRevert.

(** * Exactness on affine losses *)

Section AffineLoss.

Variable normal_sample : Sampler.
Variable norm : Tensor -> scalar.
Variables BatchInputs Labels : Type.
Variable self : RandomGradientEstimator.
Variable loss_fn : LossFn BatchInputs Labels.
Variable batch_inputs : BatchInputs.
Variable labels : Labels.
Variable seed : Z.

Lemma directional_gradient_affine (direction : nat -> Tensor)
    (ps : list Param) (i : nat) (slope : scalar) :
  mu self <> 0 ->
  (forall a : scalar,
     loss_fn batch_inputs labels (map data (add_flat ps a (direction i)))
     = loss_fn batch_inputs labels (map data ps) + a * slope) ->
  directional_gradient self loss_fn batch_inputs labels direction ps i
  = slope.
Proof.
  intros Hmu Haff.
  unfold directional_gradient, L_plus, L_minus, denom, perturbed.
  destruct (grad_estimate_method self); rewrite !Haff; unfold two, scalar in *;
    field; repeat split; try exact Hmu; discriminate.
Qed.

(** X17. Finite differences are exact on affine losses: when the loss,
    along the direction [i], is the loss at the parameters plus [a] times
    a slope for every step [a], and [mu] is not zero, the directional
    gradient of index [i] that the estimate returns is that slope exactly,
    in the central mode and in the forward mode, for
    [_zo_grad_estimate_paramwise] and for [_zo_grad_estimate]. *)
Theorem estimate_is_exact_on_affine_loss (st : Store) (i : nat)
    (slope : scalar) :
  (i < num_pert self)%nat ->
  mu self <> 0 ->
  ((forall a : scalar,
      loss_fn batch_inputs labels
        (map data
           (add_flat (params st) a
              (concat (draw_like normal_sample (get_rng seed i) (params st)))))
      = loss_fn batch_inputs labels (map data (params st)) + a * slope) ->
   exists dir_grads st',
     _zo_grad_estimate_paramwise normal_sample self batch_inputs labels
       loss_fn seed st
     = (Ok dir_grads, st')
     /\ nth_error dir_grads i = Some slope)
  /\ (dims_ok self st = true ->
      (forall a : scalar,
         loss_fn batch_inputs labels
           (map data
              (add_flat (params st) a
                 (generate_perturbation_norm normal_sample norm self
                    (get_rng seed i))))
         = loss_fn batch_inputs labels (map data (params st)) + a * slope) ->
      exists grad dir_grads st',
        _zo_grad_estimate normal_sample norm self batch_inputs labels loss_fn
          seed st
        = (Ok (grad, dir_grads), st')
        /\ nth_error dir_grads i = Some slope).
Proof.
  intros Hi Hmu. destruct st as [ps ev]. cbn [params]. split.
  - intros Haff. rewrite zo_grad_estimate_paramwise_spec.
    eexists. eexists. split; [reflexivity|].
    rewrite nth_error_map_seq by exact Hi. f_equal.
    apply directional_gradient_affine; assumption.
  - intros Hdims Haff. apply dims_ok_le in Hdims. cbn [params] in Hdims.
    rewrite zo_grad_estimate_spec by assumption.
    destruct (full_gradient_some self loss_fn batch_inputs labels
                (flat_direction normal_sample norm self seed) ps
                (n := num_pert self)) as [g ->]; [lia|].
    eexists. eexists. eexists. split; [reflexivity|].
    rewrite nth_error_map_seq by exact Hi. f_equal.
    apply directional_gradient_affine; assumption.
Qed.

End AffineLoss.

(** The sum of the parameter values is affine along every direction. *)
Lemma Qc_sum_app (l1 l2 : list scalar) :
  Qc_sum (l1 ++ l2) = Qc_sum l1 + Qc_sum l2.
Proof.
  unfold Qc_sum.
  induction l1 as [|x l1 IH]; cbn [app fold_right].
  - scalar_ring.
  - rewrite IH. scalar_ring.
Qed.

Lemma Qc_sum_axpy (d u : Tensor) (a : scalar) :
  length d = length u ->
  Qc_sum (axpy d a u) = Qc_sum d + a * Qc_sum u.
Proof.
  revert u. induction d as [|x d IH]; intros [|y u] H; try discriminate.
  - cbn. scalar_ring.
  - injection H as H. specialize (IH u H). unfold Qc_sum in *.
    cbn [axpy fold_right]. rewrite IH. scalar_ring.
Qed.

Lemma linear_loss_is_affine (ps : list Param) (a : scalar) (v : Tensor) :
  (sum_numel ps <= length v)%nat ->
  Qc_sum (concat (map data (add_flat ps a v)))
  = Qc_sum (concat (map data ps)) + a * Qc_sum (firstn (sum_numel ps) v).
Proof.
  revert v. induction ps as [|p ps IH]; intros v H.
  - cbn. scalar_ring.
  - change (sum_numel (p :: ps)) with (numel p + sum_numel ps)%nat in *.
    cbn [add_flat map concat data set_data].
    rewrite !Qc_sum_app, IH by (rewrite length_skipn; lia).
    rewrite Qc_sum_axpy
      by (rewrite length_firstn; unfold numel in *; lia).
    rewrite <- (firstn_skipn (numel p) (firstn (numel p + sum_numel ps) v)).
    rewrite Qc_sum_app, firstn_firstn, Nat.min_l by lia.
    rewrite skipn_firstn_comm.
    replace (numel p + sum_numel ps - numel p)%nat with (sum_numel ps) by lia.
    scalar_ring.
Qed.

(** * Sizes never change *)

Lemma keeps_sizes_ret {A} (a : A) : keeps_sizes (ret a).
Proof. intros st. reflexivity. Qed.

Lemma keeps_sizes_raise {A} (e : exn) : keeps_sizes (@raise A e).
Proof. intros st. reflexivity. Qed.

Lemma keeps_sizes_assert (b : bool) : keeps_sizes (assert b).
Proof. destruct b; intros st; reflexivity. Qed.

Lemma keeps_sizes_bind {A B} (m : M A) (k : A -> M B) :
  keeps_sizes m -> (forall a, keeps_sizes (k a)) -> keeps_sizes (bind m k).
Proof.
  intros Hm Hk st. specialize (Hm st). unfold bind.
  destruct (m st) as [[a|e] st']; cbn [snd] in *.
  - rewrite Hk. exact Hm.
  - exact Hm.
Qed.

Lemma keeps_sizes_for_each {A S} (xs : list A) (body : A -> S -> M S) :
  (forall x s, keeps_sizes (body x s)) ->
  forall s, keeps_sizes (for_each xs body s).
Proof.
  intros Hbody. induction xs as [|x xs IH]; intros s; cbn [for_each].
  - apply keeps_sizes_ret.
  - apply keeps_sizes_bind; [apply Hbody | exact IH].
Qed.

Lemma keeps_sizes_for_params {S} (body : Param -> S -> Param * result S) :
  (forall p s, numel (fst (body p s)) = numel p) ->
  forall s, keeps_sizes (for_params body s).
Proof.
  intros Hbody s st. unfold for_params.
  assert (forall ps,
            map numel (snd (for_params_list body ps s)) = map numel ps) as H.
  { intros ps. revert s. induction ps as [|p ps IH]; intros s; [reflexivity|].
    cbn [for_params_list]. specialize (Hbody p s).
    destruct (body p s) as [p' [s'|e]]; cbn [fst] in Hbody.
    - specialize (IH s').
      destruct (for_params_list body ps s') as [r rest'].
      cbn [snd map] in *. rewrite IH, Hbody. reflexivity.
    - cbn [snd map]. rewrite Hbody. reflexivity. }
  specialize (H (params st)).
  destruct (for_params_list body (params st) s) as [r ps']. exact H.
Qed.

Lemma view_length (t : Tensor) (n : nat) (t' : Tensor) :
  view t n = Ok t' -> length t' = n.
Proof.
  unfold view. destruct (Nat.eqb_spec (length t) n); [|discriminate].
  intros H. injection H as <-. assumption.
Qed.

Section Sizes.

Variable normal_sample : Sampler.
Variable norm : Tensor -> scalar.
Variables BatchInputs Labels : Type.
Variable self : RandomGradientEstimator.
Variable loss : Loss BatchInputs Labels.
Variable batch_inputs : BatchInputs.
Variable labels : Labels.
Variable seed : Z.

Lemma keeps_sizes_eval_loss : keeps_sizes (eval_loss loss batch_inputs labels).
Proof. intros st. reflexivity. Qed.

Lemma keeps_sizes_perturb_model (perturb : option Tensor) (alpha : scalar) :
  keeps_sizes (perturb_model perturb alpha).
Proof.
  unfold perturb_model.
  apply keeps_sizes_bind; [|intros; apply keeps_sizes_ret].
  apply keeps_sizes_for_params. intros p start.
  unfold perturb_model_body. destruct perturb as [v|].
  - destruct (view (slice v start (start + numel p)) (numel p)) as [z|e]
      eqn:E; [|reflexivity].
    apply view_length in E. cbn [fst]. unfold numel at 1.
    cbn [data set_data]. apply axpy_length_eq. unfold numel in E. lia.
  - cbn [fst]. destruct (Qc_eqb alpha 1); [reflexivity|].
    unfold numel. cbn [data set_data]. apply scale_length.
Qed.

Lemma keeps_sizes_perturb_model_paramwise (rng : Generator) (alpha : scalar) :
  keeps_sizes (perturb_model_paramwise normal_sample rng alpha).
Proof.
  unfold perturb_model_paramwise.
  apply keeps_sizes_bind; [|intros; apply keeps_sizes_ret].
  apply keeps_sizes_for_params. intros p g.
  unfold add_randn_body.
  pose proof (randn_length normal_sample (numel p) g) as Hz.
  destruct (randn normal_sample (numel p) g) as [z g'].
  cbn [fst] in *. unfold numel at 1. cbn [data set_data].
  apply axpy_length_eq. unfold numel in Hz. lia.
Qed.

Lemma keeps_sizes_put_grad (g : Tensor) : keeps_sizes (put_grad g).
Proof.
  unfold put_grad.
  apply keeps_sizes_bind; [|intros; apply keeps_sizes_ret].
  apply keeps_sizes_for_params. intros p start. unfold put_grad_body.
  destruct (view (slice g start (start + numel p)) (numel p));
    reflexivity.
Qed.

Lemma keeps_sizes_generate_then_put_grad_paramwise (dir_grads : Tensor) :
  keeps_sizes (generate_then_put_grad_paramwise normal_sample seed dir_grads).
Proof.
  unfold generate_then_put_grad_paramwise.
  apply keeps_sizes_for_each. intros [i dg] []. cbn [put_grad_paramwise_step].
  apply keeps_sizes_bind; [|intros; apply keeps_sizes_ret].
  apply keeps_sizes_for_params. intros p g. unfold put_grad_paramwise_body.
  destruct (randn normal_sample (numel p) g) as [z g'].
  destruct (Nat.eqb i 0); [reflexivity|].
  destruct (grad p) as [g0|]; [|reflexivity].
  destruct (add_ g0 1 _); reflexivity.
Qed.

Lemma keeps_sizes_initial_minus_loss :
  keeps_sizes (initial_minus_loss self loss batch_inputs labels).
Proof.
  unfold initial_minus_loss. destruct (grad_estimate_method self).
  - apply keeps_sizes_ret.
  - apply keeps_sizes_bind;
      [apply keeps_sizes_eval_loss | intros; apply keeps_sizes_ret].
Qed.

(** One apply / measure / restore cycle keeps the sizes, for any way
    [pert] of perturbing that does, and wherever the cycle stops. *)
Lemma keeps_sizes_cycle {B : Type} (pert : scalar -> M unit)
    (pml : option scalar) (k : scalar -> option scalar -> M B) :
  (forall alpha, keeps_sizes (pert alpha)) ->
  (forall l m, keeps_sizes (k l m)) ->
  keeps_sizes
    (pert (mu self) ;;;
     pert_plus_loss <- eval_loss loss batch_inputs labels ;;
     pert_minus_loss <-
       match grad_estimate_method self with
       | rge_central =>
           pert (- two * mu self) ;;;
           l <- eval_loss loss batch_inputs labels ;;
           pert (mu self) ;;;
           ret (Some l)
       | rge_forward =>
           pert (- mu self) ;;;
           ret pml
       end ;;
     k pert_plus_loss pert_minus_loss).
Proof.
  intros Hpert Hk.
  apply keeps_sizes_bind; [apply Hpert | intros _].
  apply keeps_sizes_bind; [apply keeps_sizes_eval_loss | intros l].
  apply keeps_sizes_bind; [|intros m; apply Hk].
  destruct (grad_estimate_method self).
  - apply keeps_sizes_bind; [apply Hpert | intros _].
    apply keeps_sizes_bind; [apply keeps_sizes_eval_loss | intros l'].
    apply keeps_sizes_bind; [apply Hpert | intros; apply keeps_sizes_ret].
  - apply keeps_sizes_bind; [apply Hpert | intros; apply keeps_sizes_ret].
Qed.

Lemma keeps_sizes_compute_grad (is_put : bool) :
  keeps_sizes
    (compute_grad normal_sample norm self batch_inputs labels loss seed
       is_put).
Proof.
  unfold compute_grad. destruct (negb (paramwise_perturb self)).
  - apply keeps_sizes_bind.
    + unfold _zo_grad_estimate.
      apply keeps_sizes_bind; [apply keeps_sizes_initial_minus_loss|].
      intros pml. apply keeps_sizes_bind.
      * apply keeps_sizes_for_each. intros i [[g dgs] m].
        unfold _zo_grad_estimate_step. cbv zeta.
        apply keeps_sizes_cycle;
          [intros; apply keeps_sizes_perturb_model|].
        intros l [minus|]; [apply keeps_sizes_ret | apply keeps_sizes_raise].
      * intros [[[g|] dgs] m];
          [apply keeps_sizes_ret | apply keeps_sizes_raise].
    + intros [g dgs]. apply keeps_sizes_bind;
        [|intros; apply keeps_sizes_ret].
      destruct is_put; [apply keeps_sizes_put_grad | apply keeps_sizes_ret].
  - apply keeps_sizes_bind.
    + unfold _zo_grad_estimate_paramwise.
      apply keeps_sizes_bind; [apply keeps_sizes_initial_minus_loss|].
      intros pml. apply keeps_sizes_bind; [|intros; apply keeps_sizes_ret].
      apply keeps_sizes_for_each. intros i [dgs m].
      unfold _zo_grad_estimate_paramwise_step. cbv zeta.
      apply (keeps_sizes_cycle
               (fun alpha =>
                  perturb_model_paramwise normal_sample (get_rng seed i)
                    alpha));
        [intros; apply keeps_sizes_perturb_model_paramwise|].
      intros l [minus|]; [apply keeps_sizes_ret | apply keeps_sizes_raise].
    + intros dgs. apply keeps_sizes_bind;
        [|intros; apply keeps_sizes_ret].
      apply keeps_sizes_generate_then_put_grad_paramwise.
Qed.

Lemma keeps_sizes_compute_grad_with_graph :
  keeps_sizes
    (compute_grad_with_graph normal_sample norm self batch_inputs labels loss
       seed).
Proof.
  unfold compute_grad_with_graph.
  apply keeps_sizes_bind; [apply keeps_sizes_assert | intros _].
  apply keeps_sizes_bind; [apply keeps_sizes_initial_minus_loss|].
  intros pml. apply keeps_sizes_bind.
  - apply keeps_sizes_for_each. intros i [dgs m].
    unfold compute_grad_with_graph_step. cbv zeta.
    apply keeps_sizes_cycle; [intros; apply keeps_sizes_perturb_model|].
    intros l [minus|]; [apply keeps_sizes_ret | apply keeps_sizes_raise].
  - intros locals.
    destruct (stack (fst locals));
      [apply keeps_sizes_ret | apply keeps_sizes_raise].
Qed.

End Sizes.

Lemma init_ok_fields (parameters : list Param) (mu0 : scalar) (n : nat)
    (method : RandomGradEstimateMethod + string)
    (normalize paramwise sgd_only : bool) (self : RandomGradientEstimator)
    (ps : list Param) :
  init parameters mu0 n method normalize paramwise sgd_only = Ok (self, ps) ->
  ps = filter requires_grad parameters
  /\ total_dimensions self = sum_numel ps.
Proof.
  unfold init. intros H.
  destruct (match method with
            | inl m => Ok m
            | inr s =>
                if String.eqb s (value rge_central) then Ok rge_central
                else if String.eqb s (value rge_forward) then Ok rge_forward
                else Raise
                  (Exception
                     "Grad estimate method has to be rge-central or rge-forward")
            end) as [m|e]; [|discriminate].
  destruct (paramwise && negb (Bool.eqb normalize false)); [discriminate|].
  destruct (sgd_only && negb paramwise); [discriminate|].
  injection H as <- <-. cbn. split; reflexivity.
Qed.

Section Constructed.

Variable normal_sample : Sampler.
Variable norm : Tensor -> scalar.
Variables BatchInputs Labels : Type.

(** X18. The estimator that [__init__] builds fits the parameters it
    keeps -- [total_dimensions] is their element count -- and neither
    [compute_grad] nor [compute_grad_with_graph] ever changes the size of a
    parameter, whatever the callable [loss] does, return or raise, and in
    whatever way the call ends: after every call the parameters have the
    sizes they had at construction, and the estimator fits them as
    before. *)
Theorem constructed_estimator_keeps_fitting
    (parameters : list Param) (mu0 : scalar) (n : nat)
    (method : RandomGradEstimateMethod + string)
    (normalize paramwise sgd_only : bool) (self : RandomGradientEstimator)
    (ps : list Param) :
  init parameters mu0 n method normalize paramwise sgd_only = Ok (self, ps) ->
  forall (loss : Loss BatchInputs Labels) (batch_inputs : BatchInputs)
         (labels : Labels) (seed : Z) (is_put : bool) (st : Store),
    map numel (params st) = map numel ps ->
    dims_ok self st = true
    /\ (let st' :=
          snd (compute_grad normal_sample norm self batch_inputs labels loss
                 seed is_put st) in
        map numel (params st') = map numel ps /\ dims_ok self st' = true)
    /\ (let st' :=
          snd (compute_grad_with_graph normal_sample norm self batch_inputs
                 labels loss seed st) in
        map numel (params st') = map numel ps /\ dims_ok self st' = true).
Proof.
  intros Hinit loss batch_inputs labels seed is_put st Hst.
  destruct (init_ok_fields _ _ _ _ _ _ _ Hinit) as (_ & Hd).
  assert (forall st' : Store,
            map numel (params st') = map numel ps ->
            dims_ok self st' = true) as Hfit.
  { intros st' H. unfold dims_ok.
    rewrite Hd, (sum_numel_congr _ _ H). apply Nat.eqb_refl. }
  split; [apply Hfit; exact Hst|]. split; cbv zeta.
  - assert (map numel
              (params (snd (compute_grad normal_sample norm self batch_inputs
                              labels loss seed is_put st)))
            = map numel ps) as H
      by (rewrite keeps_sizes_compute_grad; exact Hst).
    split; [exact H | apply Hfit; exact H].
  - assert (map numel
              (params (snd (compute_grad_with_graph normal_sample norm self
                              batch_inputs labels loss seed st)))
            = map numel ps) as H
      by (rewrite keeps_sizes_compute_grad_with_graph; exact Hst).
    split; [exact H | apply Hfit; exact H].
Qed.

End Constructed.

(** * The further properties at the worked configuration *)

Lemma compute_grad_with_graph_agrees_witness :
  paramwise_perturb (example_estimator rge_forward false) = false
  /\ dims_ok (example_estimator rge_forward false) example_store = true
  /\ num_pert (example_estimator rge_forward false) <> 0%nat
  /\ exists grad dir_grads st',
       _zo_grad_estimate example_sample example_norm
         (example_estimator rge_forward false) tt tt example_loss
         example_seed example_store
       = (Ok (grad, dir_grads), st')
       /\ compute_grad_with_graph example_sample example_norm
            (example_estimator rge_forward false) tt tt example_loss
            example_seed example_store
          = (Ok dir_grads, st')
       /\ length dir_grads = 2%nat
       /\ params st' = example_params.
Proof.
  split; [reflexivity|]. split; [reflexivity|]. split; [discriminate|].
  apply (compute_grad_with_graph_agrees_with_zo_grad_estimate example_sample
           example_norm (example_estimator rge_forward false) example_loss
           tt tt example_seed example_store);
    [reflexivity | reflexivity | discriminate].
Defined.

Lemma perturb_model_short_vector_witness :
  (length example_short_vector < sum_numel (params example_store))%nat
  /\ perturb_model (Some example_short_vector) 1 example_store
     = (Raise RuntimeError,
        with_params example_store
          [ {| requires_grad := true;
               data := [of_Z 2; of_Z 3; of_Z 4; of_Z 5];
               grad := None |};
            {| requires_grad := true;
               data := [of_Z 5; of_Z 6; of_Z 7; of_Z 8; of_Z 9; of_Z 10];
               grad := Some [0; 0; 0; 0; 0; of_Z 1] |} ]).
Proof.
  assert (length example_short_vector < sum_numel (params example_store))%nat
    as Hshort by (cbn; lia).
  split; [exact Hshort|].
  destruct (perturb_model_short_vector example_short_vector 1 example_store
              Hshort) as [(k & p & Hp & Hoff & E) _].
  destruct k as [|[|k]].
  - injection Hp as <-. cbn in Hoff. lia.
  - rewrite E. cbn [firstn skipn params example_store example_params add_flat
                    app numel data length example_short_vector set_data].
    unfold with_params. cbn [loss_evals example_store].
    repeat f_equal; apply Qc_eqb_true; reflexivity.
  - destruct k; discriminate Hp.
Defined.

Lemma put_grad_short_vector_witness :
  (length example_short_vector < sum_numel (params example_store))%nat
  /\ put_grad example_short_vector example_store
     = (Raise RuntimeError,
        with_params example_store
          [ {| requires_grad := true;
               data := [of_Z 1; of_Z 2; of_Z 3; of_Z 4];
               grad := Some [1; 1; 1; 1] |};
            {| requires_grad := true;
               data := [of_Z 5; of_Z 6; of_Z 7; of_Z 8; of_Z 9; of_Z 10];
               grad := Some [0; 0; 0; 0; 0; of_Z 1] |} ]).
Proof.
  assert (length example_short_vector < sum_numel (params example_store))%nat
    as Hshort by (cbn; lia).
  split; [exact Hshort|].
  destruct (put_grad_short_vector example_short_vector example_store Hshort)
    as [(k & p & Hp & Hoff & E) _].
  destruct k as [|[|k]].
  - injection Hp as <-. cbn in Hoff. lia.
  - rewrite E. reflexivity.
  - destruct k; discriminate Hp.
Defined.

Lemma full_gradient_is_replayable_witness :
  dims_ok (example_estimator rge_central false) example_store = true
  /\ num_pert (example_estimator rge_central false) <> 0%nat
  /\ exists grad dir_grads st',
       _zo_grad_estimate example_sample example_norm
         (example_estimator rge_central false) tt tt example_loss
         example_seed example_store
       = (Ok (grad, dir_grads), st')
       /\ accumulate_update example_sample example_norm
            (example_estimator rge_central false) example_seed dir_grads
          = Some grad.
Proof.
  split; [reflexivity|]. split; [discriminate|].
  destruct (zo_grad_estimate_full_gradient_is_replayable example_sample
              example_norm (example_estimator rge_central false) example_loss
              tt tt example_seed example_store)
    as (grad & dir_grads & st' & E & Hacc & _);
    [reflexivity | discriminate |].
  exists grad, dir_grads, st'. split; [exact E | exact Hacc].
Defined.

Lemma compute_grad_put_is_replayable_witness :
  paramwise_perturb (example_estimator rge_central false) = false
  /\ dims_ok (example_estimator rge_central false) example_store = true
  /\ num_pert (example_estimator rge_central false) <> 0%nat
  /\ exists dir_grads st1 st2,
       compute_grad example_sample example_norm
         (example_estimator rge_central false) tt tt example_loss
         example_seed true example_store
       = (Ok dir_grads, st1)
       /\ generate_then_put_grad example_sample example_norm
            (example_estimator rge_central false) example_seed dir_grads
            example_store
          = (Ok tt, st2)
       /\ params st1 = params st2
       /\ map data (params st1) = map data (params example_store).
Proof.
  split; [reflexivity|]. split; [reflexivity|]. split; [discriminate|].
  apply (compute_grad_put_is_replayable example_sample example_norm
           (example_estimator rge_central false) example_loss tt tt
           example_seed example_store);
    [reflexivity | reflexivity | discriminate].
Defined.

Lemma compute_grad_modes_agree_witness :
  dims_ok (example_estimator rge_central false) example_store = true
  /\ num_pert (example_estimator rge_central false) <> 0%nat
  /\ (forall i : nat,
        (i < num_pert (example_estimator rge_central false))%nat ->
        concat (draw_like example_sample (get_rng example_seed i)
                  (params example_store))
        = fst (randn example_sample
                 (total_dimensions (example_estimator rge_central false))
                 (get_rng example_seed i)))
  /\ compute_grad example_sample example_norm
       (example_estimator rge_central true) tt tt example_loss example_seed
       false example_store
     = compute_grad example_sample example_norm
         (example_estimator rge_central false) tt tt example_loss
         example_seed true example_store.
Proof.
  assert (forall i : nat,
            (i < num_pert (example_estimator rge_central false))%nat ->
            concat (draw_like example_sample (get_rng example_seed i)
                      (params example_store))
            = fst (randn example_sample
                     (total_dimensions (example_estimator rge_central false))
                     (get_rng example_seed i))) as Hdraws
    by (intros i _;
        apply (sequential_draws_give_flat_draw example_sample_slices);
        reflexivity).
  split; [reflexivity|]. split; [discriminate|]. split; [exact Hdraws|].
  apply (compute_grad_modes_agree example_sample example_norm example_loss
           tt tt example_seed (example_estimator rge_central false)
           (example_estimator rge_central true) false example_store);
    first [exact Hdraws | reflexivity | discriminate].
Defined.

Lemma sgd_no_optim_update_witness :
  example_dir_grads <> []
  /\ exists st1 st2,
       sgd_no_optim_update_model example_sample example_dir_grads
         example_seed (Q2Qc (1 # 10)) example_store
       = (Ok tt, st1)
       /\ (generate_then_put_grad_paramwise example_sample example_seed
             example_dir_grads ;;;
           optimizer_step (SGD (Q2Qc (1 # 10)) 0)) example_store
          = (Ok tt, st2)
       /\ map data (params st1) = map data (params st2)
       /\ map grad (params st1) = map grad (params example_store)
       /\ loss_evals st1 = loss_evals example_store.
Proof.
  assert (example_dir_grads <> []) as Hne by discriminate.
  split; [exact Hne|].
  apply (sgd_no_optim_update_is_plain_sgd_step example_sample example_seed
           (Q2Qc (1 # 10)) example_store Hne).
Defined.

Lemma revert_stops_witness :
  0 < of_Z 2
  /\ Q2Qc (1 # 2) * of_Z 2 = 1
  /\ exists g rest',
       revert_model_given_seed_and_grad example_sample example_norm
         (example_estimator rge_central false) (SGD (Q2Qc (1 # 2)) (of_Z 2))
         [example_seed] [example_dir_grads] example_store
       = (Raise ZeroDivisionError,
          {| params :=
               {| requires_grad := true;
                  data := axpy [of_Z 1; of_Z 2; of_Z 3; of_Z 4]
                            (Q2Qc (1 # 2)) g;
                  grad := Some g |} :: rest';
             loss_evals := [] |})
       /\ length g = 4%nat
       /\ map data rest'
          = [[of_Z 5; of_Z 6; of_Z 7; of_Z 8; of_Z 9; of_Z 10]].
Proof.
  assert (0 < of_Z 2) as Hwd by (unfold Qclt, Qlt; cbn; lia).
  assert (Q2Qc (1 # 2) * of_Z 2 = 1) as Hone
    by (apply Qc_eqb_true; reflexivity).
  assert (example_dir_grads <> []) as Hne by discriminate.
  split; [exact Hwd|]. split; [exact Hone|].
  exact (revert_stops_on_zero_decay_factor example_sample example_norm
           (example_estimator rge_central false) example_seed
           (dir_grads := example_dir_grads) [] []
           {| requires_grad := true;
              data := [of_Z 1; of_Z 2; of_Z 3; of_Z 4];
              grad := None |}
           [ {| requires_grad := true;
                data := [of_Z 5; of_Z 6; of_Z 7; of_Z 8; of_Z 9; of_Z 10];
                grad := Some [0; 0; 0; 0; 0; of_Z 1] |} ]
           [] eq_refl eq_refl Hne eq_refl Hwd Hone).
Defined.

Lemma compute_grad_leaves_values_witness :
  (paramwise_perturb (example_estimator rge_forward false) = true
   \/ dims_ok (example_estimator rge_forward false) example_store = true)
  /\ map data
       (params
          (snd (compute_grad example_sample example_norm
                  (example_estimator rge_forward false) tt tt example_loss
                  example_seed true example_store)))
     = map data (params example_store)
  /\ compute_grad example_sample example_norm
       (example_estimator rge_forward false) tt tt example_failing_loss
       example_seed true example_store
     = (Raise ZeroDivisionError,
        {| params :=
             add_flat example_params (Q2Qc (1 # 1000))
               (flat_direction example_sample example_norm
                  (example_estimator rge_forward false) example_seed 0);
           loss_evals :=
             [ map data example_params;
               map data
                 (add_flat example_params (Q2Qc (1 # 1000))
                    (flat_direction example_sample example_norm
                       (example_estimator rge_forward false) example_seed
                       0)) ] |}).
Proof.
  assert (paramwise_perturb (example_estimator rge_forward false) = true
          \/ dims_ok (example_estimator rge_forward false) example_store
             = true) as H
    by (right; reflexivity).
  split; [exact H|].
  destruct (compute_grad_leaves_values example_sample example_norm
              (example_estimator rge_forward false) example_loss tt tt
              example_seed true example_store H) as [Hvalues Hraise].
  split; [exact Hvalues|].
  apply (Hraise example_failing_loss ZeroDivisionError).
  - discriminate.
  - intros _. exists 0. reflexivity.
  - vm_compute. reflexivity.
Defined.

Lemma update_paths_agree_witness :
  sgd_only_no_optim example_no_optim_estimator = true
  /\ sgd_only_no_optim (example_estimator rge_central true) = false
  /\ defaults_lr (SGD (Q2Qc (1 # 10)) (Q2Qc (1 # 3))) = Q2Qc (1 # 10)
  /\ Forall (fun dir_grads : Tensor => dir_grads <> [])
       [example_dir_grads; [of_Z 5]]
  /\ exists st1 st2,
       update_model_given_seed_and_grad example_sample example_norm
         example_no_optim_estimator (SGD (Q2Qc (1 # 10)) (Q2Qc (1 # 3)))
         [42%Z; 7%Z] [example_dir_grads; [of_Z 5]] example_store
       = (Ok tt, st1)
       /\ update_model_given_seed_and_grad example_sample example_norm
            (example_estimator rge_central true) (SGD (Q2Qc (1 # 10)) 0)
            [42%Z; 7%Z] [example_dir_grads; [of_Z 5]] example_store
          = (Ok tt, st2)
       /\ map data (params st1) = map data (params st2)
       /\ map grad (params st1) = map grad (params example_store).
Proof.
  assert (Forall (fun dir_grads : Tensor => dir_grads <> [])
            [example_dir_grads; [of_Z 5]]) as Hgrads
    by (repeat constructor; discriminate).
  split; [reflexivity|]. split; [reflexivity|]. split; [reflexivity|].
  split; [exact Hgrads|].
  apply (update_paths_agree example_sample example_norm
           (lr := Q2Qc (1 # 10)) example_no_optim_estimator
           (example_estimator rge_central true)
           (SGD (Q2Qc (1 # 10)) (Q2Qc (1 # 3)))
           [42%Z; 7%Z] example_store);
    first [reflexivity | exact Hgrads].
Defined.

Lemma revert_in_update_order_witness :
  sgd_only_no_optim (example_estimator rge_central false) = false
  /\ dims_ok (example_estimator rge_central false) example_store = true
  /\ Forall (fun dir_grads : Tensor => dir_grads <> [])
       [example_dir_grads; [of_Z 5]]
  /\ exists st1 st2,
       update_model_given_seed_and_grad example_sample example_norm
         (example_estimator rge_central false) (SGD (Q2Qc (1 # 10)) 0)
         [42%Z; 7%Z] [example_dir_grads; [of_Z 5]] example_store
       = (Ok tt, st1)
       /\ revert_model_given_seed_and_grad example_sample example_norm
            (example_estimator rge_central false) (SGD (Q2Qc (1 # 10)) 0)
            [42%Z; 7%Z] [example_dir_grads; [of_Z 5]] st1
          = (Ok tt, st2)
       /\ map data (params st2) = map data (params example_store).
Proof.
  assert (Forall (fun dir_grads : Tensor => dir_grads <> [])
            [example_dir_grads; [of_Z 5]]) as Hgrads
    by (repeat constructor; discriminate).
  split; [reflexivity|]. split; [reflexivity|]. split; [exact Hgrads|].
  apply (revert_in_update_order_without_weight_decay example_sample
           example_norm (example_estimator rge_central false)
           (Q2Qc (1 # 10)) [42%Z; 7%Z] example_store);
    first [reflexivity | exact Hgrads].
Defined.

Lemma estimate_is_exact_witness :
  (1 < num_pert (example_estimator rge_central false))%nat
  /\ mu (example_estimator rge_central false) <> 0
  /\ (exists dir_grads st',
        _zo_grad_estimate_paramwise example_sample
          (example_estimator rge_central false) tt tt example_linear_loss
          example_seed example_store
        = (Ok dir_grads, st')
        /\ nth_error dir_grads 1
           = Some (Qc_sum
                     (firstn (sum_numel example_params)
                        (concat (draw_like example_sample
                                   (get_rng example_seed 1)
                                   example_params)))))
  /\ (exists grad dir_grads st',
        _zo_grad_estimate example_sample example_norm
          (example_estimator rge_central false) tt tt example_linear_loss
          example_seed example_store
        = (Ok (grad, dir_grads), st')
        /\ nth_error dir_grads 1
           = Some (Qc_sum
                     (firstn (sum_numel example_params)
                        (concat (draw_like example_sample
                                   (get_rng example_seed 1)
                                   example_params))))).
Proof.
  assert (1 < num_pert (example_estimator rge_central false))%nat as Hi
    by (cbn; lia).
  assert (mu (example_estimator rge_central false) <> 0) as Hmu
    by (apply Qc_eqb_false; reflexivity).
  split; [exact Hi|]. split; [exact Hmu|].
  destruct (estimate_is_exact_on_affine_loss example_sample example_norm
              (example_estimator rge_central false) example_linear_loss tt tt
              example_seed example_store
              (Qc_sum
                 (firstn (sum_numel example_params)
                    (concat (draw_like example_sample (get_rng example_seed 1)
                               example_params))))
              Hi Hmu) as [Hp Hw].
  split.
  - apply Hp. intros a. apply linear_loss_is_affine. cbn. lia.
  - apply Hw; [reflexivity|]. intros a.
    apply (linear_loss_is_affine example_params a
             (generate_perturbation_norm example_sample example_norm
                (example_estimator rge_central false)
                (get_rng example_seed 1))).
    cbn. lia.
Defined.

Lemma constructed_estimator_witness :
  init example_params (Q2Qc (1 # 1000)) 2 (inr "rge-forward"%string) false
    true false
  = Ok (example_estimator rge_forward true, example_params)
  /\ dims_ok (example_estimator rge_forward true) example_store = true
  /\ map numel
       (params
          (snd (compute_grad example_sample example_norm
                  (example_estimator rge_forward true) tt tt
                  example_failing_loss example_seed true example_store)))
     = map numel example_params.
Proof.
  assert (init example_params (Q2Qc (1 # 1000)) 2 (inr "rge-forward"%string)
            false true false
          = Ok (example_estimator rge_forward true, example_params)) as Hinit
    by reflexivity.
  split; [exact Hinit|].
  destruct (@constructed_estimator_keeps_fitting example_sample example_norm
              unit unit _ _ _ _ _ _ _ _ _ Hinit
              example_failing_loss tt tt example_seed true example_store
              eq_refl) as (Hfit & [Hsizes _] & _).
  split; [exact Hfit | exact Hsizes].
Defined.
